(** * placentagen: analyse_tree

    A shallow embedding of [source/placentagen/analyse_tree.py] and the
    properties of its order classifier, terminal finder, grid binners and
    ellipsoid/grid volume routine.

    Conventions of the embedding.
    - A numpy array is a [list]; reading or writing outside its bounds
      raises [IndexError], as numpy does for the non-negative indices the
      module uses.
    - Python exceptions and [sys.exit] are values of [exn]; a function that
      may raise returns [result A].
    - Integer arrays ([dtype=int]) hold element numbers, node numbers and
      counters.  They are bounded by the sizes of the input arrays, so they
      are modelled by [nat]; no 64-bit wrap-around can occur.
    - Floating-point arrays are modelled over a numeric interface [Num],
      with one instance for binary64 ([float]) and one for exact rational
      arithmetic ([Q]). *)

From Stdlib Require Import ZArith QArith Qround Qabs Floats Lia String.
From stdpp Require Import base list sorting strings pretty.

Set Default Proof Using "Type".
Local Open Scope nat_scope.

(** ** Exceptions *)

(** The ways a call can end without a value: Python's exceptions, and
    [sys.exit] with its message.  [OutOfFuel] is no Python exception: it
    marks a [while] loop of the embedding that used up its bound on the
    number of iterations. *)
Inductive exn : Type :=
| IndexError
| NameError (name : string)
| ValueError
| OverflowError
| OutOfFuel
| SysExit (msg : string).

Inductive result (A : Type) : Type :=
| Ok (a : A)
| Err (e : exn).
Arguments Ok {A} a.
Arguments Err {A} e.

Definition bind {A B : Type} (m : result A) (k : A -> result B) : result B :=
  match m with
  | Ok a => k a
  | Err e => Err e
  end.

Declare Scope result_scope.
Delimit Scope result_scope with result.
Notation "x <- m ;; k" := (bind m (fun x => k))
  (at level 100, m at next level, right associativity,
   format "'[v' x  <-  m  ;;  '/' k ']'") : result_scope.
Local Open Scope result_scope.

Definition is_ok {A : Type} (m : result A) : bool :=
  match m with Ok _ => true | Err _ => false end.

(** ** Arrays *)

(** [a[i]] *)
Definition get {A : Type} (a : list A) (i : nat) : result A :=
  match a !! i with
  | Some x => Ok x
  | None => Err IndexError
  end.

(** [a[i] = v] *)
Definition set {A : Type} (a : list A) (i : nat) (v : A) : result (list A) :=
  if decide (i < length a) then Ok (<[i:=v]> a) else Err IndexError.

(** [np.zeros(n, dtype=int)] *)
Definition np_zeros (n : nat) : list nat := replicate n 0.

(** [np.resize(a, n)]: the first [n] entries of [a] repeated as often as
    needed; zeros when [a] is empty. *)
Definition np_resize (a : list nat) (n : nat) : list nat :=
  match a with
  | [] => replicate n 0
  | _ => take n (mjoin (replicate n a))
  end.

(** [for x in xs: s = body(x, s)] *)
Fixpoint for_loop {A S : Type} (xs : list A) (body : A -> S -> result S) (s : S)
  : result S :=
  match xs with
  | [] => Ok s
  | x :: xs' => s' <- body x s ;; for_loop xs' body s'
  end.

(** [range(0, n)] and [range(n - 1, -1, -1)] *)
Definition range (n : nat) : list nat := seq 0 n.
Definition range_down (n : nat) : list nat := rev (seq 0 n).

(** ** Tree data *)

(** A row of [elems]: [[element number, first node, second node]]. *)
Definition elem_row : Type := list nat.

(** The record returned by [pg_utilities.element_connectivity_1D]: per
    element a row [[count, e1, e2, ...]] of upstream and of downstream
    elements, zero-filled. *)
Record connectivity : Type := {
  elem_up : list (list nat);
  elem_down : list (list nat)
}.

(** Modelled from the spec: [pg_utilities.element_connectivity_1D] is not
    part of the sources.  Per element it returns the count and the list of
    upstream elements (those whose second node is this element's first node)
    and of downstream elements (those whose first node is this element's
    second node).  Rows are zero-filled to a common width, as in a numpy
    integer array. *)
Definition elem_node (elems : list elem_row) (ne k : nat) : option nat :=
  row ← elems !! ne; row !! k.

Definition neighbours (elems : list elem_row) (ne here there : nat) : list nat :=
  filter (fun ne2 =>
            ne2 <> ne /\ is_Some (elem_node elems ne here)
            /\ elem_node elems ne2 there = elem_node elems ne here)
         (seq 0 (length elems)).

Definition connectivity_row (width : nat) (ids : list nat) : list nat :=
  length ids :: ids ++ replicate (width - length ids) 0.

Definition element_connectivity_1D (elems : list elem_row) : connectivity :=
  let n := length elems in
  {| elem_up := map (fun ne => connectivity_row n (neighbours elems ne 1 2)) (seq 0 n);
     elem_down := map (fun ne => connectivity_row n (neighbours elems ne 2 1)) (seq 0 n) |}.

(** ** Terminal finder: [calc_terminal_branch] *)

Record terminal_list : Type := {
  terminal_elems : list nat;
  terminal_nodes : list nat;
  total_terminals : nat
}.

Definition calc_terminal_branch_body (elems : list elem_row) (elem_cnct : connectivity)
    (ne : nat) (st : list nat * list nat * nat) : result (list nat * list nat * nat) :=
  let '(terminal_branches, terminal_nodes, num_term) := st in
  down <- get (elem_down elem_cnct) ne ;;
  n_down <- get down 0 ;;
  if decide (n_down = 0) then
    terminal_branches <- set terminal_branches num_term ne ;;
    row <- get elems ne ;;
    leaf <- get row 2 ;;
    terminal_nodes <- set terminal_nodes num_term leaf ;;
    Ok (terminal_branches, terminal_nodes, num_term + 1)
  else Ok st.

(** [calc_terminal_branch] after the call of [element_connectivity_1D];
    [num_nodes] is [len(node_loc)]. *)
Definition calc_terminal_branch_conn (num_nodes : nat) (elems : list elem_row)
    (elem_cnct : connectivity) : result terminal_list :=
  let num_elems := length elems in
  let terminal_branches := np_zeros num_elems in
  let terminal_nodes := np_zeros num_nodes in
  let num_term := 0 in
  st <- for_loop (range num_elems) (calc_terminal_branch_body elems elem_cnct)
                 (terminal_branches, terminal_nodes, num_term) ;;
  let '(terminal_branches, terminal_nodes, num_term) := st in
  let terminal_branches := np_resize terminal_branches num_term in
  let terminal_nodes := np_resize terminal_nodes num_term in
  Ok {| terminal_elems := terminal_branches;
        terminal_nodes := terminal_nodes;
        total_terminals := num_term |}.

Definition calc_terminal_branch (num_nodes : nat) (elems : list elem_row)
  : result terminal_list :=
  calc_terminal_branch_conn num_nodes elems (element_connectivity_1D elems).

(** ** Order classifier: [evaluate_orders] *)

Record orders : Type := {
  strahler : list nat;
  horsfield : list nat;
  generation : list nat
}.

(** Body of the forward loop; the state is [(generation, maxgen)]. *)
Definition generation_body (elem_upstream elem_downstream : list (list nat))
    (ne : nat) (st : list nat * nat) : result (list nat * nat) :=
  let '(generation, maxgen) := st in
  up <- get elem_upstream ne ;;
  ne0 <- get up 1 ;;
  generation <-
    (if decide (ne0 <> 0) then
       n_generation <- get generation ne0 ;;
       down0 <- get elem_downstream ne0 ;;
       n_down0 <- get down0 0 ;;
       if decide (n_down0 = 1) then set generation ne n_generation
       else if decide (2 <= n_down0) then set generation ne (n_generation + 1)
       else Ok generation
     else set generation ne 1) ;;
  g <- get generation ne ;;
  Ok (generation, Nat.max maxgen g).

(** Body of the loop over the daughters of a branching element; the state
    is [(n_horsfield, temp_strahler, strahler_add)]. *)
Definition daughter_body (down horsfield strahler : list nat)
    (noelem : nat) (st : nat * nat * nat) : result (nat * nat * nat) :=
  let '(n_horsfield, temp_strahler, strahler_add) := st in
  ne2 <- get down noelem ;;
  temp_horsfield <- get horsfield ne2 ;;
  let n_horsfield :=
    if decide (n_horsfield < temp_horsfield) then temp_horsfield else n_horsfield in
  s2 <- get strahler ne2 ;;
  if decide (s2 < temp_strahler) then Ok (n_horsfield, temp_strahler, 0)
  else if decide (temp_strahler < s2) then Ok (n_horsfield, s2, 0)
  else Ok (n_horsfield, temp_strahler, strahler_add).

(** Body of the backward loop; the state is [(horsfield, strahler)]. *)
Definition order_body (elem_downstream : list (list nat)) (generation : list nat)
    (ne : nat) (st : list nat * list nat) : result (list nat * list nat) :=
  let '(horsfield, strahler) := st in
  h <- get horsfield ne ;;
  let n_horsfield := Nat.max h 1 in
  down <- get elem_downstream ne ;;
  n_children <- get down 0 ;;
  n_children <-
    (if decide (n_children = 1) then
       d1 <- get down 1 ;;
       g1 <- get generation d1 ;;
       if decide (g1 = 0) then Ok 0 else Ok n_children
     else Ok n_children) ;;
  let temp_strahler := 0 in
  let strahler_add := 1 in
  st <-
    (if decide (2 <= n_children) then
       d1 <- get down 1 ;;
       temp_strahler <- get strahler d1 ;;
       st <- for_loop (seq 1 n_children) (daughter_body down horsfield strahler)
                      (n_horsfield, temp_strahler, strahler_add) ;;
       let '(n_horsfield, temp_strahler, strahler_add) := st in
       Ok (n_horsfield + 1, temp_strahler, strahler_add)
     else if decide (n_children = 1) then
       ne2 <- get down 1 ;;
       n_horsfield <- get horsfield ne2 ;;
       strahler_add <- get strahler ne2 ;;
       Ok (n_horsfield, temp_strahler, strahler_add)
     else Ok (n_horsfield, temp_strahler, strahler_add)) ;;
  let '(n_horsfield, temp_strahler, strahler_add) := st in
  horsfield <- set horsfield ne n_horsfield ;;
  strahler <- set strahler ne (temp_strahler + strahler_add) ;;
  Ok (horsfield, strahler).

(** [evaluate_orders] after the call of [element_connectivity_1D]. *)
Definition evaluate_orders_conn (num_elems : nat) (elem_connect : connectivity)
  : result orders :=
  let elem_upstream := elem_up elem_connect in
  let elem_downstream := elem_down elem_connect in
  let strahler := np_zeros num_elems in
  let horsfield := np_zeros num_elems in
  let generation := np_zeros num_elems in
  let maxgen := 1 in
  st <- for_loop (range num_elems) (generation_body elem_upstream elem_downstream)
                 (generation, maxgen) ;;
  let '(generation, maxgen) := st in
  st <- for_loop (range_down num_elems) (order_body elem_downstream generation)
                 (horsfield, strahler) ;;
  let '(horsfield, strahler) := st in
  Ok {| strahler := strahler; horsfield := horsfield; generation := generation |}.

Definition evaluate_orders (elems : list elem_row) : result orders :=
  evaluate_orders_conn (length elems) (element_connectivity_1D elems).

(** The tree of three elements: element 0 from node 0 to node 1, which
    branches into the terminal elements 1 (to node 2) and 2 (to node 3). *)
Definition tree3 : list elem_row := [[0; 0; 1]; [1; 1; 2]; [2; 1; 3]].


(** ** Numbers *)

(** The operations the module applies to floating-point values. *)
Class Num (F : Type) : Type := {
  fzero : F;
  of_Z : Z -> F;                  (* float(n) *)
  fadd : F -> F -> F;
  fsub : F -> F -> F;
  fmul : F -> F -> F;
  fdiv : F -> F -> F;
  fabs : F -> F;
  ffloor : F -> F;                (* np.floor *)
  fltb : F -> F -> bool;
  fleb : F -> F -> bool;
  feqb : F -> F -> bool;
  ftrunc : F -> result Z          (* int(x) *)
}.

(** [np.sqrt] *)
Class Sqrt (F : Type) : Type := fsqrt : F -> F.

(** *** Exact rational arithmetic *)

#[export] Instance Q_num : Num Q := {|
  fzero := 0%Q;
  of_Z := inject_Z;
  fadd := Qplus;
  fsub := Qminus;
  fmul := Qmult;
  fdiv := Qdiv;
  fabs := Qabs;
  ffloor := fun q => inject_Z (Qfloor q);
  fltb := fun a b => negb (Qle_bool b a);
  fleb := Qle_bool;
  feqb := Qeq_bool;
  ftrunc := fun q => Ok (Z.quot (Qnum q) (Zpos (Qden q)))
|}.

(** *** binary64 *)

Definition float_of_Z (z : Z) : float :=
  match z with
  | Z0 => PrimFloat.zero
  | Zpos _ => PrimFloat.of_uint63 (Uint63.of_Z z)
  | Zneg p => PrimFloat.opp (PrimFloat.of_uint63 (Uint63.of_Z (Zpos p)))
  end.

Definition float_trunc (x : float) : result Z :=
  match Prim2SF x with
  | S754_zero _ => Ok 0%Z
  | S754_finite s m e =>
      let v := if (0 <=? e)%Z then (Zpos m * 2 ^ e)%Z else (Zpos m / 2 ^ (- e))%Z in
      Ok (if s then (- v)%Z else v)
  | S754_infinity _ => Err OverflowError
  | S754_nan => Err ValueError
  end.

Definition float_floor (x : float) : float :=
  match Prim2SF x with
  | S754_finite s m e =>
      if (0 <=? e)%Z then x
      else
        let d := (2 ^ (- e))%Z in
        let q := (Zpos m / d)%Z in
        if (q * d =? Zpos m)%Z then x
        else if s then float_of_Z (- (q + 1)) else float_of_Z q
  | _ => x
  end.

#[export] Instance float_num : Num float := {|
  fzero := PrimFloat.zero;
  of_Z := float_of_Z;
  fadd := PrimFloat.add;
  fsub := PrimFloat.sub;
  fmul := PrimFloat.mul;
  fdiv := PrimFloat.div;
  fabs := PrimFloat.abs;
  ffloor := float_floor;
  fltb := PrimFloat.ltb;
  fleb := PrimFloat.leb;
  feqb := PrimFloat.eqb;
  ftrunc := float_trunc
|}.

#[export] Instance float_sqrt : Sqrt float := PrimFloat.sqrt.

(** ** numpy on floating-point arrays *)

Section NumPy.
Context {F : Type} `{Num F}.

Definition of_nat (n : nat) : F := of_Z (Z.of_nat n).

(** [x ** 2] *)
Definition fsquare (x : F) : F := fmul x x.

(** [a.sum()] *)
Definition fsum (xs : list F) : F := fold_left fadd xs fzero.

(** [np.min(a)], [np.max(a)]; both raise on an empty array. *)
Definition np_min (xs : list F) : result F :=
  match xs with
  | [] => Err ValueError
  | x :: xs' => Ok (fold_left (fun m y => if fltb y m then y else m) xs' x)
  end.

Definition np_max (xs : list F) : result F :=
  match xs with
  | [] => Err ValueError
  | x :: xs' => Ok (fold_left (fun m y => if fltb m y then y else m) xs' x)
  end.

(** [[f(x) for x in xs]] for an [f] that may raise. *)
Fixpoint mapM {A B : Type} (f : A -> result B) (xs : list A) : result (list B) :=
  match xs with
  | [] => Ok []
  | x :: xs' => y <- f x ;; ys <- mapM f xs' ;; Ok (y :: ys)
  end.

(** [a[:, c]] *)
Definition column (a : list (list F)) (c : nat) : result (list F) :=
  mapM (fun row => get row c) a.

(** [row[i:j]] *)
Definition slice {A : Type} (row : list A) (i j : nat) : list A :=
  take (j - i) (drop i row).

(** [np.linspace(start, stop, num)] *)
Definition np_linspace (start stop : F) (num : nat) : list F :=
  let div := of_nat (num - 1) in
  let delta := fsub stop start in
  let step := fdiv delta div in
  let y :=
    map (fun i =>
           if decide (1 < num) then
             if feqb step fzero then fadd (fmul (fdiv (of_nat i) div) delta) start
             else fadd (fmul (of_nat i) step) start
           else fadd (fmul (of_nat i) delta) start)
        (seq 0 num) in
  if decide (1 < num) then <[num - 1 := stop]> y else y.

(** [np.diff(x)] *)
Definition np_diff (xs : list F) : list F :=
  zip_with (fun a b => fsub b a) xs (drop 1 xs).

(** [np.trapz(y, x)] for [y] and [x] of one length. *)
Definition np_trapz (ys xs : list F) : F :=
  let d := np_diff xs in
  let s := zip_with fadd (drop 1 ys) ys in
  fsum (zip_with (fun di si => fdiv (fmul di si) (of_Z 2)) d s).

(** [a - b] for two rows: lengths must agree unless one is 1. *)
Definition vec_sub (a b : list F) : result (list F) :=
  if decide (length a = length b) then Ok (zip_with fsub a b)
  else match a, b with
       | [x], _ => Ok (map (fun y => fsub x y) b)
       | _, [y] => Ok (map (fun x => fsub x y) a)
       | _, _ => Err ValueError
       end.

(** [np.linalg.norm(v)] *)
Definition np_norm `{Sqrt F} (v : list F) : F :=
  fsqrt (fsum (map fsquare v)).

(** [np.zeros(n)] and [np.zeros((m, n))] *)
Definition np_fzeros (n : nat) : list F := replicate n fzero.
Definition np_fzeros2 (m n : nat) : list (list F) := replicate m (np_fzeros n).

(** [a[i][j] = v] *)
Definition set2 {A : Type} (a : list (list A)) (i j : nat) (v : A)
  : result (list (list A)) :=
  row <- get a i ;;
  row <- set row j v ;;
  set a i row.

Definition get2 {A : Type} (a : list (list A)) (i j : nat) : result A :=
  row <- get a i ;; get row j.
End NumPy.

(** [while cond(s): s = body(s)], for at most [fuel] iterations. *)
Fixpoint while_loop {S : Type} (fuel : nat) (cond : S -> result bool)
    (body : S -> result S) (s : S) : result S :=
  match fuel with
  | 0 => Err OutOfFuel
  | Datatypes.S fuel' =>
      c <- cond s ;;
      if c then s' <- body s ;; while_loop fuel' cond body s'
      else Ok s
  end.

(** ** Tree statistics: [tree_statistics] *)

Section TreeStatistics.
Context {F : Type} `{Num F} `{Sqrt F}.

Definition num_schemes : nat := 3.

(** Names bound when the body of [tree_statistics] runs: its parameters,
    the names it assigns, and the names of the module.  [diameter] is not
    among them (the array is called [diameters]). *)
Definition tree_statistics_names : list string :=
  ["node_loc"; "elems"; "radius"; "orders"; "num_elems"; "diameters";
   "connectivity"; "elem_upstream"; "elem_downstream"; "num_schemes";
   "generation"; "horsfield"; "strahler"; "index"; "lengths"; "nbranches";
   "branches"; "ne"; "np1"; "np2"; "point1"; "point2"; "ntotal"; "num_dpp";
   "num_llp"; "N"; "num_upstream"; "ne0"; "add"; "i"; "n_segments";
   "mean_diameter"; "ne_next";
   "np"; "pg_utilities"; "time"; "sys"; "math"; "numpy";
   "calc_terminal_branch"; "evaluate_orders"; "define_radius_by_order";
   "tree_statistics"; "terminals_in_sampling_grid_fast";
   "terminals_in_sampling_grid"; "ellipse_volume_to_grid";
   "cal_br_vol_samp_grid"]%string.

(** Reading a variable: [NameError] when the name is not bound. *)
Definition read_name {A : Type} (name : string) (value : A) : result A :=
  if decide (name ∈ tree_statistics_names) then Ok value
  else Err (NameError name).

(** First loop: the length of every element. *)
Definition length_body (node_loc : list (list F)) (elems : list elem_row)
    (ne : nat) (lengths : list F) : result (list F) :=
  row <- get elems ne ;;
  np1 <- get row 1 ;;
  np2 <- get row 2 ;;
  n1 <- get node_loc np1 ;;
  let point1 := slice n1 1 4 in
  n2 <- get node_loc np2 ;;
  let point2 := slice n2 1 4 in
  d <- vec_sub point1 point2 ;;
  set lengths ne (np_norm d).

(** Second loop; the state is [(index, nbranches, branches, N)]. *)
Definition branch_body (fuel : nat) (elem_upstream elem_downstream : list (list nat))
    (ords : orders) (diameters lengths : list F)
    (ne : nat) (st : list nat * list (list F) * list (list F) * nat)
  : result (list nat * list (list F) * list (list F) * nat) :=
  let '(index, nbranches, branches, N) := st in
  up <- get elem_upstream ne ;;
  num_upstream <- get up 0 ;;
  ne0 <- get up 1 ;;
  g <- get (generation ords) ne ;;
  index <- set index 0 g ;;
  h <- get (horsfield ords) ne ;;
  index <- set index 1 h ;;
  s <- get (strahler ords) ne ;;
  index <- set index 2 s ;;
  add <-
    (if decide (num_upstream = 0) then Ok true
     else
       g0 <- get (generation ords) ne0 ;;
       i0 <- get index 0 ;;
       Ok (bool_decide (g0 <> i0))) ;;
  st <-
    (if add : bool then
       let N := N + 1 in
       nbranches <-
         for_loop (range num_schemes)
           (fun i nbranches =>
              v <- get index i ;;
              set2 nbranches i (N - 1) (of_nat v))
           nbranches ;;
       nbranches <-
         (if decide (num_upstream <> 0) then
            s0 <- get (strahler ords) ne0 ;;
            set2 nbranches num_schemes (N - 1) (of_nat s0)
          else set2 nbranches num_schemes (N - 1) fzero) ;;
       Ok (nbranches, N)
     else Ok (nbranches, N)) ;;
  let '(nbranches, N) := st in
  let n_segments := 1 in
  diameter <- read_name "diameter" diameters ;;
  mean_diameter <- get diameter ne ;;
  l <- get lengths ne ;;
  branches <- set2 branches 0 (N - 1) l ;;
  let ne_next := ne in
  st <-
    while_loop fuel
      (fun '(branches, mean_diameter, n_segments, ne_next) =>
         down <- get elem_downstream ne_next ;;
         c <- get down 0 ;;
         Ok (bool_decide (c = 1)))
      (fun '(branches, mean_diameter, n_segments, ne_next) =>
         down <- get elem_downstream ne_next ;;
         ne_next <- get down 1 ;;
         b <- get2 branches 0 (N - 1) ;;
         l <- get lengths ne_next ;;
         branches <- set2 branches 0 (N - 1) (fadd b l) ;;
         d <- get diameters ne_next ;;
         Ok (branches, fadd mean_diameter d, n_segments + 1, ne_next))
      (branches, mean_diameter, n_segments, ne_next) ;;
  let '(branches, _, _, _) := st in
  Ok (index, nbranches, branches, N).

(** [tree_statistics] after the call of [element_connectivity_1D].  The
    function has no [return] statement: it returns [None], here [tt].
    [fuel] bounds the iterations of the inner [while]. *)
Definition tree_statistics_conn (fuel : nat) (node_loc : list (list F))
    (elems : list elem_row) (radius : list F) (ords : orders)
    (conn : connectivity) : result unit :=
  let num_elems := length elems in
  let diameters := map (fmul (of_Z 2)) radius in
  let elem_upstream := elem_up conn in
  let elem_downstream := elem_down conn in
  let index := np_zeros 3 in
  let lengths := np_fzeros num_elems in
  let nbranches := np_fzeros2 (num_schemes + 1) num_elems in
  let branches := np_fzeros2 5 num_elems in
  lengths <- for_loop (range num_elems) (length_body node_loc elems) lengths ;;
  let N := 1 in
  _ <- for_loop (range num_elems)
         (branch_body fuel elem_upstream elem_downstream ords diameters lengths)
         (index, nbranches, branches, N) ;;
  Ok tt.

Definition tree_statistics (fuel : nat) (node_loc : list (list F))
    (elems : list elem_row) (radius : list F) (ords : orders) : result unit :=
  tree_statistics_conn fuel node_loc elems radius ords (element_connectivity_1D elems).
End TreeStatistics.

(** ** Sampling grid *)

(** [rectangular_mesh]: rows [[x, y, z]] of [nodes], rows
    [[element number, n1, ..., n8]] of [elems] (n1 the corner of least and
    n8 the corner of greatest x, y, z), and [total_elems]. *)
Record rectangular_mesh (F : Type) : Type := {
  mesh_nodes : list (list F);
  mesh_elems : list (list nat);
  mesh_total_elems : nat
}.
Arguments mesh_nodes {F} _.
Arguments mesh_elems {F} _.
Arguments mesh_total_elems {F} _.

(** Origin, cell size and number of cells per axis, as
    [terminals_in_sampling_grid_fast] and [cal_br_vol_samp_grid] read them
    off the mesh. *)
Record grid_frame (F : Type) : Type := {
  startx : F; xside : F; nelem_x : F;
  starty : F; yside : F; nelem_y : F;
  startz : F; zside : F; nelem_z : F
}.
Arguments startx {F} _. Arguments xside {F} _. Arguments nelem_x {F} _.
Arguments starty {F} _. Arguments yside {F} _. Arguments nelem_y {F} _.
Arguments startz {F} _. Arguments zside {F} _. Arguments nelem_z {F} _.

Record grid_terminals : Type := {
  terminals_in_grid : list nat;
  grid_terminal_elems : list Z
}.

(** An integer index into an array of length [len]: numpy counts a
    negative index from the end. *)
Definition np_index (len : nat) (k : Z) : result nat :=
  if decide (0 <= k < Z.of_nat len)%Z then Ok (Z.to_nat k)
  else if decide (- Z.of_nat len <= k < 0)%Z then Ok (Z.to_nat (Z.of_nat len + k))
  else Err IndexError.

Section SamplingGrid.
Context {F : Type} `{Num F}.

(** [nodes[elems[ne][k]][c]] *)
Definition corner_coord (mesh : rectangular_mesh F) (ne k c : nat) : result F :=
  row <- get (mesh_elems mesh) ne ;;
  n <- get row k ;;
  p <- get (mesh_nodes mesh) n ;;
  get p c.

(** One axis: [(start, side, nelem)]. *)
Definition axis_frame (mesh : rectangular_mesh F) (c : nat) : result (F * F * F) :=
  col <- column (mesh_nodes mesh) c ;;
  start <- np_min col ;;
  hi <- corner_coord mesh 0 8 c ;;
  lo <- corner_coord mesh 0 1 c ;;
  let side := fsub hi lo in
  stop <- np_max col ;;
  Ok (start, side, fdiv (fsub stop start) side).

Definition mesh_frame (mesh : rectangular_mesh F) : result (grid_frame F) :=
  ax <- axis_frame mesh 0 ;;
  ay <- axis_frame mesh 1 ;;
  az <- axis_frame mesh 2 ;;
  let '(startx, xside, nelem_x) := ax in
  let '(starty, yside, nelem_y) := ay in
  let '(startz, zside, nelem_z) := az in
  Ok {| startx := startx; xside := xside; nelem_x := nelem_x;
        starty := starty; yside := yside; nelem_y := nelem_y;
        startz := startz; zside := zside; nelem_z := nelem_z |}.

(** The element number of the grid cell that holds [coord]. *)
Definition grid_elem_index (g : grid_frame F) (coord : list F) : result Z :=
  c0 <- get coord 0 ;;
  let xelem_num := ffloor (fdiv (fsub c0 (startx g)) (xside g)) in
  c1 <- get coord 1 ;;
  let yelem_num := ffloor (fdiv (fsub c1 (starty g)) (yside g)) in
  c2 <- get coord 2 ;;
  let zelem_num := ffloor (fdiv (fsub c2 (startz g)) (zside g)) in
  ftrunc (fadd (fadd xelem_num (fmul yelem_num (nelem_x g)))
               (fmul zelem_num (fmul (nelem_x g) (nelem_y g)))).

(** [node_loc[terminal_list['terminal_nodes'][nt]][1:4]] *)
Definition terminal_coord (tl : terminal_list) (node_loc : list (list F)) (nt : nat)
  : result (list F) :=
  n <- get (terminal_nodes tl) nt ;;
  row <- get node_loc n ;;
  Ok (slice row 1 4).

Definition fast_body (g : grid_frame F) (tl : terminal_list) (node_loc : list (list F))
    (nt : nat) (st : list nat * list Z) : result (list nat * list Z) :=
  let '(terminals_in_grid, terminal_elems) := st in
  coord_terminal <- terminal_coord tl node_loc nt ;;
  nelem <- grid_elem_index g coord_terminal ;;
  i <- np_index (length terminals_in_grid) nelem ;;
  c <- get terminals_in_grid i ;;
  terminals_in_grid <- set terminals_in_grid i (c + 1) ;;
  terminal_elems <- set terminal_elems nt nelem ;;
  Ok (terminals_in_grid, terminal_elems).

Definition terminals_in_sampling_grid_fast (mesh : rectangular_mesh F)
    (tl : terminal_list) (node_loc : list (list F)) : result grid_terminals :=
  let num_terminals := total_terminals tl in
  let terminals_in_grid := np_zeros (length (mesh_elems mesh)) in
  let terminal_elems := replicate num_terminals 0%Z in
  g <- mesh_frame mesh ;;
  st <- for_loop (range num_terminals) (fast_body g tl node_loc)
                 (terminals_in_grid, terminal_elems) ;;
  let '(terminals_in_grid, terminal_elems) := st in
  Ok {| terminals_in_grid := terminals_in_grid;
        grid_terminal_elems := terminal_elems |}.

(** The nested tests of the fallback scan:
    [min <= coord < max] on each axis, read left to right. *)
Definition in_box (min_coords max_coords coord_terminal : list F) : result bool :=
  c0 <- get coord_terminal 0 ;; lo0 <- get min_coords 0 ;;
  if fleb lo0 c0 then
    hi0 <- get max_coords 0 ;;
    if fltb c0 hi0 then
      c1 <- get coord_terminal 1 ;; lo1 <- get min_coords 1 ;;
      if fleb lo1 c1 then
        hi1 <- get max_coords 1 ;;
        if fltb c1 hi1 then
          c2 <- get coord_terminal 2 ;; lo2 <- get min_coords 2 ;;
          if fleb lo2 c2 then
            hi2 <- get max_coords 2 ;;
            Ok (fltb c2 hi2)
          else Ok false
        else Ok false
      else Ok false
    else Ok false
  else Ok false.

(** Inner loop of the fallback scan for grid cell [ne]; the state is
    [(terminals_in_grid, terminal_mapped, terminal_elems)]. *)
Definition scan_terminal (tl : terminal_list) (node_loc : list (list F))
    (ne : nat) (min_coords max_coords : list F)
    (nt : nat) (st : list nat * list nat * list nat)
  : result (list nat * list nat * list nat) :=
  let '(terminals_in_grid, terminal_mapped, terminal_elems) := st in
  m <- get terminal_mapped nt ;;
  if decide (m = 0) then
    coord_terminal <- terminal_coord tl node_loc nt ;;
    in_element <- in_box min_coords max_coords coord_terminal ;;
    if in_element : bool then
      c <- get terminals_in_grid ne ;;
      terminals_in_grid <- set terminals_in_grid ne (c + 1) ;;
      terminal_mapped <- set terminal_mapped nt 1 ;;
      terminal_elems <- set terminal_elems nt ne ;;
      Ok (terminals_in_grid, terminal_mapped, terminal_elems)
    else Ok st
  else Ok st.

(** [nodes[elems[ne][k]][0:3]] *)
Definition corner (mesh : rectangular_mesh F) (ne k : nat) : result (list F) :=
  row <- get (mesh_elems mesh) ne ;;
  n <- get row k ;;
  p <- get (mesh_nodes mesh) n ;;
  Ok (slice p 0 3).

(** Outer loop of the fallback scan. *)
Definition scan_cell (mesh : rectangular_mesh F) (placenta_list : list nat)
    (tl : terminal_list) (node_loc : list (list F))
    (ne_i : nat) (st : list nat * list nat * list nat)
  : result (list nat * list nat * list nat) :=
  ne <- get placenta_list ne_i ;;
  if decide (0 < ne) then
    min_coords <- corner mesh ne 1 ;;
    max_coords <- corner mesh ne 8 ;;
    for_loop (range (total_terminals tl))
             (scan_terminal tl node_loc ne min_coords max_coords) st
  else Ok st.

Record grid_scan : Type := {
  scan_terminals_in_grid : list nat;
  scan_terminal_elems : list nat
}.

Definition terminals_in_sampling_grid (mesh : rectangular_mesh F)
    (placenta_list : list nat) (tl : terminal_list) (node_loc : list (list F))
  : result grid_scan :=
  let num_sample_elems := length placenta_list in
  let num_terminals := total_terminals tl in
  let terminals_in_grid := np_zeros (length (mesh_elems mesh)) in
  let terminal_mapped := np_zeros num_terminals in
  let terminal_elems := np_zeros num_terminals in
  st <- for_loop (range num_sample_elems) (scan_cell mesh placenta_list tl node_loc)
                 (terminals_in_grid, terminal_mapped, terminal_elems) ;;
  let '(terminals_in_grid, _, terminal_elems) := st in
  Ok {| scan_terminals_in_grid := terminals_in_grid;
        scan_terminal_elems := terminal_elems |}.
End SamplingGrid.

(** ** Ellipsoid volume per grid cell: [ellipse_volume_to_grid] *)

Record ellipse_radii (F : Type) : Type := {
  x_radius : F;
  y_radius : F;
  z_radius : F
}.
Arguments x_radius {F} _. Arguments y_radius {F} _. Arguments z_radius {F} _.

Record ellipse_volumes (F : Type) : Type := {
  pl_vol_in_grid : list F;
  non_empty_rects : list nat
}.
Arguments pl_vol_in_grid {F} _. Arguments non_empty_rects {F} _.

(** Modelled from the spec: [pg_utilities.check_in_ellipsoid] and
    [pg_utilities.check_on_ellipsoid] are not part of the sources; the spec
    describes them as the strict and the boundary algebraic test of a point
    against the ellipsoid with the three given radii. *)
Definition ellipsoid_form {F : Type} `{Num F} (x y z rx ry rz : F) : F :=
  fadd (fadd (fsquare (fdiv x rx)) (fsquare (fdiv y ry))) (fsquare (fdiv z rz)).

Definition check_in_ellipsoid_model {F : Type} `{Num F} (x y z rx ry rz : F) : bool :=
  fltb (ellipsoid_form x y z rx ry rz) (of_Z 1).

Definition check_on_ellipsoid_model {F : Type} `{Num F} (x y z rx ry rz : F) : bool :=
  feqb (ellipsoid_form x y z rx ry rz) (of_Z 1).

Section Ellipsoid.
Context {F : Type} `{Num F} `{Sqrt F}.

(** The functions of [pg_utilities] the routine calls. *)
Variable calculate_ellipse_radii : F -> F -> F -> ellipse_radii F.
Variables check_in_ellipsoid check_on_ellipsoid : F -> F -> F -> F -> F -> F -> bool.

(** The loop over the eight corners of cell [ne]; the state is
    [(count_in_range, nod_in_range)]. *)
Definition corner_body (mesh : rectangular_mesh F) (radii : ellipse_radii F)
    (ne nod : nat) (st : nat * list nat) : result (nat * list nat) :=
  let '(count_in_range, nod_in_range) := st in
  x <- corner_coord mesh ne nod 0 ;;
  y <- corner_coord mesh ne nod 1 ;;
  z <- corner_coord mesh ne nod 2 ;;
  let check_in_range :=
    check_in_ellipsoid x y z (x_radius radii) (y_radius radii) (z_radius radii) in
  let check_on_range :=
    check_on_ellipsoid x y z (x_radius radii) (y_radius radii) (z_radius radii) in
  if check_in_range || check_on_range then
    nod_in_range <- set nod_in_range (nod - 1) 1 ;;
    Ok (count_in_range + 1, nod_in_range)
  else Ok st.

Definition count_corners (mesh : rectangular_mesh F) (radii : ellipse_radii F)
    (ne : nat) : result (nat * list nat) :=
  for_loop (seq 1 8) (corner_body mesh radii ne) (0, np_zeros 8).

(** The height of the ellipsoid surface over the sample points, clamped
    to the range of the cell: [zv] after the double loop. *)
Definition surface_heights (radii : ellipse_radii F) (xVector yVector : list F)
    (startz endz : F) : list (list F) :=
  map (fun y =>
         map (fun x =>
                let zv :=
                  fmul (fsquare (z_radius radii))
                       (fsub (fsub (of_Z 1) (fsquare (fdiv x (x_radius radii))))
                             (fsquare (fdiv y (y_radius radii)))) in
                let zv := if fleb zv (fsquare startz) then fsquare startz else zv in
                let zv := fsqrt zv in
                if fltb endz zv then endz
                else if fltb zv startz then startz
                else zv)
             xVector)
      yVector.

(** The trapezoidal quadrature of one boundary cell between [startz] and
    [endz]; the routine runs it a second time, with [startz_2] and
    [endz_2], for a cell that crosses the plane z = 0. *)
Definition cell_quadrature (radii : ellipse_radii F) (num_test_points : nat)
    (startx endx starty endy startz endz : F) : result F :=
  let xVector := np_linspace startx endx num_test_points in
  let yVector := np_linspace starty endy num_test_points in
  let zv := surface_heights radii xVector yVector startz endz in
  intermediate <-
    for_loop (range num_test_points)
      (fun i intermediate =>
         col <- column zv i ;;
         set intermediate i (np_trapz col xVector))
      (np_fzeros num_test_points) ;;
  let Value1 := np_trapz intermediate yVector in
  Ok (fsub Value1 (fmul (fmul startz (fsub endx startx)) (fsub endy starty))).

(** Body of the loop over the grid cells; the state is
    [(pl_vol_in_grid, non_empty_loc, non_empty_count)]. *)
Definition cell_body (mesh : rectangular_mesh F) (radii : ellipse_radii F)
    (num_test_points : nat) (ne : nat) (st : list F * list nat * nat)
  : result (list F * list nat * nat) :=
  let '(pl_vol_in_grid, non_empty_loc, non_empty_count) := st in
  startx <- corner_coord mesh ne 1 0 ;;
  endx <- corner_coord mesh ne 8 0 ;;
  starty <- corner_coord mesh ne 1 1 ;;
  endy <- corner_coord mesh ne 8 1 ;;
  startz <- corner_coord mesh ne 1 2 ;;
  endz <- corner_coord mesh ne 8 2 ;;
  cnt <- count_corners mesh radii ne ;;
  let '(count_in_range, nod_in_range) := cnt in
  if decide (count_in_range = 8) then
    non_empty_loc <- set non_empty_loc non_empty_count ne ;;
    let non_empty_count := non_empty_count + 1 in
    pl_vol_in_grid <-
      set pl_vol_in_grid ne
          (fmul (fmul (fsub endx startx) (fsub endy starty)) (fsub endz startz)) ;;
    Ok (pl_vol_in_grid, non_empty_loc, non_empty_count)
  else if decide (count_in_range = 0) then
    pl_vol_in_grid <- set pl_vol_in_grid ne fzero ;;
    Ok (pl_vol_in_grid, non_empty_loc, non_empty_count)
  else
    non_empty_loc <- set non_empty_loc non_empty_count ne ;;
    let non_empty_count := non_empty_count + 1 in
    let node1_z := startz in
    let node8_z := endz in
    let '(startz, endz, second) :=
      if fltb startz fzero && fleb endz fzero then
        (fabs node8_z, fabs node1_z, None)
      else if fltb startz fzero && fltb fzero endz then
        (fzero, fabs node1_z, Some (fzero, node8_z))
      else (startz, endz, None) in
    v <- cell_quadrature radii num_test_points startx endx starty endy startz endz ;;
    pl_vol_in_grid <- set pl_vol_in_grid ne v ;;
    pl_vol_in_grid <-
      match second with
      | Some (startz_2, endz_2) =>
          v2 <- cell_quadrature radii num_test_points
                  startx endx starty endy startz_2 endz_2 ;;
          v1 <- get pl_vol_in_grid ne ;;
          set pl_vol_in_grid ne (fadd v1 v2)
      | None => Ok pl_vol_in_grid
      end ;;
    Ok (pl_vol_in_grid, non_empty_loc, non_empty_count).

Definition ellipse_volume_to_grid (mesh : rectangular_mesh F)
    (volume thickness ellipticity : F) (num_test_points : nat)
  : result (ellipse_volumes F) :=
  let total_elems := mesh_total_elems mesh in
  let radii := calculate_ellipse_radii volume thickness ellipticity in
  let pl_vol_in_grid := np_fzeros total_elems in
  let non_empty_loc := np_zeros total_elems in
  let non_empty_count := 0 in
  st <- for_loop (range (length (mesh_elems mesh)))
                 (cell_body mesh radii num_test_points)
                 (pl_vol_in_grid, non_empty_loc, non_empty_count) ;;
  let '(pl_vol_in_grid, non_empty_loc, non_empty_count) := st in
  let non_empty_loc := np_resize non_empty_loc non_empty_count in
  Ok {| pl_vol_in_grid := pl_vol_in_grid; non_empty_rects := non_empty_loc |}.
End Ellipsoid.

(** ** Branch volume per grid cell: [cal_br_vol_samp_grid] *)

Record branch_volumes (F : Type) : Type := {
  total_vol_samp_gr : list (list F);
  br_num_in_samp_gr : list nat;
  vol_each_br : list F;
  total_br_vol : F
}.
Arguments total_vol_samp_gr {F} _. Arguments br_num_in_samp_gr {F} _.
Arguments vol_each_br {F} _. Arguments total_br_vol {F} _.

(** The loop state: [(br_num_in_samp_gr, vol_each_br, total_vol_samp_gr,
    b_count)]. *)
Definition branch_state (F : Type) : Type :=
  (list nat * list F * list (list F) * nat)%type.

Definition branch_outside_msg (ne : nat) : string :=
  "branch number: " +:+ pretty ne
  +:+ " is located outside the ellispoid (whole or partial). Check ellipsoid vol/coordinates of br".

Definition datapoints_outside_msg : string :=
  "some datapoints of branches are allocated outside ellipsoid".

Section BranchVolume.
Context {F : Type} `{Num F}.

Variable calculate_ellipse_radii : F -> F -> F -> ellipse_radii F.
Variables check_in_ellipsoid check_on_ellipsoid : F -> F -> F -> F -> F -> F -> bool.

(** The remainder of the loop body (from [r = 0.1] to the update of
    [total_vol_samp_gr]): the branch between [N1] and [N2] is filled with
    sample points, the points are counted per grid cell and the volume of
    the branch is shared out accordingly.  It uses the inverse cosine and
    the sine and cosine of the branch angle, and tests neither end point
    again. *)
Variable distribute_branch :
  rectangular_mesh F -> nat -> list F -> list F -> branch_state F
  -> result (branch_state F).

(** The test that stops the run for a branch outside the ellipsoid. *)
Definition branch_outside (check_in_range_N1 check_on_range_N1
                           check_in_range_N2 check_on_range_N2 : bool) : bool :=
  (bool_decide (check_in_range_N1 = false) && bool_decide (check_on_range_N1 = false))
  || (bool_decide (check_in_range_N2 = false) && bool_decide (check_in_range_N2 = false)).

Definition branch_body_vol (mesh : rectangular_mesh F) (branch_el : list elem_row)
    (branch_node : list (list F)) (radii : ellipse_radii F)
    (ne : nat) (st : branch_state F) : result (branch_state F) :=
  row <- get branch_el ne ;;
  n1 <- get row 1 ;;
  p1 <- get branch_node n1 ;;
  let N1 := slice p1 1 4 in
  n2 <- get row 2 ;;
  p2 <- get branch_node n2 ;;
  let N2 := slice p2 1 4 in
  let x_rad := x_radius radii in
  let y_rad := y_radius radii in
  let z_rad := z_radius radii in
  a0 <- get N1 0 ;; a1 <- get N1 1 ;; a2 <- get N1 2 ;;
  let check_in_range_N1 := check_in_ellipsoid a0 a1 a2 x_rad y_rad z_rad in
  let check_on_range_N1 := check_on_ellipsoid a0 a1 a2 x_rad y_rad z_rad in
  b0 <- get N2 0 ;; b1 <- get N2 1 ;; b2 <- get N2 2 ;;
  let check_in_range_N2 := check_in_ellipsoid b0 b1 b2 x_rad y_rad z_rad in
  let check_on_range_N2 := check_on_ellipsoid b0 b1 b2 x_rad y_rad z_rad in
  if branch_outside check_in_range_N1 check_on_range_N1
                    check_in_range_N2 check_on_range_N2
  then Err (SysExit (branch_outside_msg ne))
  else distribute_branch mesh ne N1 N2 st.

(** The final cross-check against the ellipsoid volume of each cell. *)
Definition countercheck (pl_vol_in_grid : list F) (total_vol_samp_gr : list (list F))
    (i : nat) (u : unit) : result unit :=
  pv <- get pl_vol_in_grid i ;;
  if feqb pv fzero then
    tv <- get2 total_vol_samp_gr i 0 ;;
    if negb (feqb tv fzero) then Err (SysExit datapoints_outside_msg) else Ok u
  else Ok u.

Definition cal_br_vol_samp_grid (mesh : rectangular_mesh F)
    (branch_el : list elem_row) (branch_node : list (list F))
    (volume thickness ellipticity : F) (p_vol : ellipse_volumes F)
  : result (branch_volumes F) :=
  let total_elems := mesh_total_elems mesh in
  let radii := calculate_ellipse_radii volume thickness ellipticity in
  let br_num_in_samp_gr := np_zeros total_elems in
  let vol_each_br := np_fzeros (length branch_el) in
  let total_vol_samp_gr := np_fzeros2 total_elems 2 in
  let b_count := 0 in
  st <- for_loop (range (length branch_el))
                 (branch_body_vol mesh branch_el branch_node radii)
                 (br_num_in_samp_gr, vol_each_br, total_vol_samp_gr, b_count) ;;
  let '(br_num_in_samp_gr, vol_each_br, total_vol_samp_gr, b_count) := st in
  _ <- for_loop (range (length total_vol_samp_gr))
                (countercheck (pl_vol_in_grid p_vol) total_vol_samp_gr) tt ;;
  Ok {| total_vol_samp_gr := total_vol_samp_gr;
        br_num_in_samp_gr := br_num_in_samp_gr;
        vol_each_br := vol_each_br;
        total_br_vol := fsum vol_each_br |}.
End BranchVolume.

(** ** Radius by order: [define_radius_by_order] *)

(** The order systems [system] may name: ['strahler'], ['horsfield'] or
    ['generation']. *)
Inductive order_system : Type := Strahler | Horsfield | Generation.

(** [orders[system]] *)
Definition select_order (ords : orders) (system : order_system) : list nat :=
  match system with
  | Strahler => strahler ords
  | Horsfield => horsfield ords
  | Generation => generation ords
  end.

Section RadiusByOrder.
Context {F : Type} `{Num F}.

(** [np.log10(x)] and [10. ** x] *)
Variables np_log10 power10 : F -> F.

(** [define_radius_by_order] after the call of [element_connectivity_1D]
    inside [evaluate_orders].  [inlet_elem] is any integer: numpy counts a
    negative one from the end of the array. *)
Definition define_radius_by_order_conn (elems : list elem_row) (conn : connectivity)
    (system : order_system) (inlet_elem : Z) (inlet_radius radius_ratio : F)
  : result (list F) :=
  let num_elems := length elems in
  let radius := np_fzeros num_elems in
  orders <- evaluate_orders_conn (length elems) conn ;;
  let elem_order := select_order orders system in
  let ne := inlet_elem in
  i <- np_index (length elem_order) ne ;;
  n_max_ord <- get elem_order i ;;
  i <- np_index (length radius) ne ;;
  radius <- set radius i inlet_radius ;;
  for_loop (range num_elems)
    (fun ne radius =>
       o <- get elem_order ne ;;
       set radius ne
           (power10 (fadd (fmul (np_log10 radius_ratio)
                                (of_Z (Z.of_nat o - Z.of_nat n_max_ord)))
                          (np_log10 inlet_radius))))
    radius.

Definition define_radius_by_order (elems : list elem_row) (system : order_system)
    (inlet_elem : Z) (inlet_radius radius_ratio : F) : result (list F) :=
  define_radius_by_order_conn elems (element_connectivity_1D elems) system
                              inlet_elem inlet_radius radius_ratio.

(** The radius of an element of order [o] when the inlet element has
    order [n_max_ord]. *)
Definition radius_of_order (inlet_radius radius_ratio : F) (o n_max_ord : nat) : F :=
  power10 (fadd (fmul (np_log10 radius_ratio)
                      (of_Z (Z.of_nat o - Z.of_nat n_max_ord)))
                (np_log10 inlet_radius)).
End RadiusByOrder.

(** ** Inputs and predicates of the statements *)

(** The same tree hung below one more element, so that the branching
    element is number 1: its daughters do get generation 2. *)
Definition tree4 : list elem_row := [[0; 0; 1]; [1; 1; 2]; [2; 2; 3]; [3; 2; 4]].

(** A root with three daughters: elements 1 and 2 branch again into two
    terminal elements each, element 3 is terminal.  The daughters of the
    root have strahler 2, 2 and 1. *)
Definition trifurcation : list elem_row :=
  [[0; 0; 1]; [1; 1; 2]; [2; 1; 3]; [3; 1; 4];
   [4; 2; 5]; [5; 2; 6]; [6; 3; 7]; [7; 3; 8]].

(** The same tree with the daughter of lower order first. *)
Definition trifurcation' : list elem_row :=
  [[0; 0; 1]; [1; 1; 2]; [2; 1; 3]; [3; 1; 4];
   [4; 3; 5]; [5; 3; 6]; [6; 4; 7]; [7; 4; 8]].

(** Two elements that share no node: both have no upstream element. *)
Definition forest2 : list elem_row := [[0; 0; 1]; [1; 2; 3]].

(** Two elements that end in the node where a third one starts: element 2
    has two upstream elements. *)
Definition confluence : list elem_row := [[0; 0; 2]; [1; 1; 2]; [2; 2; 3]].

(** The upstream count of an element, and the two defects of a topology. *)
Definition up_count (conn : connectivity) (ne : nat) : option nat :=
  row ← elem_up conn !! ne; row !! 0.

Definition num_roots (num_elems : nat) (conn : connectivity) : nat :=
  length (filter (fun ne => up_count conn ne = Some 0) (seq 0 num_elems)).

Definition has_confluence (num_elems : nat) (conn : connectivity) : Prop :=
  Exists (fun ne => exists c, up_count conn ne = Some c /\ 2 <= c) (seq 0 num_elems).

Definition invalid_topology (num_elems : nat) (conn : connectivity) : Prop :=
  2 <= num_roots num_elems conn \/ has_confluence num_elems conn.


(** A connectivity record that [evaluate_orders] can index: one row per
    element; an upstream row has an entry 1, which is an element number; a
    downstream row has its count and as many element numbers after it.
    Nothing is asked of the number of roots or of upstream elements. *)
Definition wf_up_row (n : nat) (up : list nat) : bool :=
  match up !! 1 with
  | Some ne0 => bool_decide (ne0 < n)
  | None => false
  end.

Definition wf_down_row (n : nat) (down : list nat) : bool :=
  match down !! 0 with
  | Some c =>
      forallb (fun k => match down !! k with
                        | Some d => bool_decide (d < n)
                        | None => false
                        end) (seq 1 c)
  | None => false
  end.

Definition wf_conn (n : nat) (conn : connectivity) : bool :=
  bool_decide (length (elem_up conn) = n)
  && bool_decide (length (elem_down conn) = n)
  && forallb (wf_up_row n) (elem_up conn)
  && forallb (wf_down_row n) (elem_down conn).


(** The downstream count of an element. *)
Definition down_count (conn : connectivity) (ne : nat) : option nat :=
  row ← elem_down conn !! ne; row !! 0.

(** The elements without a downstream element, in the order of the
    element loop. *)
Definition terminals_of (num_elems : nat) (conn : connectivity) : list nat :=
  filter (fun ne => down_count conn ne = Some 0) (seq 0 num_elems).


(** The ellipsoid with the three radii 1, whatever the volume, thickness
    and ellipticity: stands for [pg_utilities.calculate_ellipse_radii] on
    inputs that give these radii. *)
Definition unit_radii (volume thickness ellipticity : float) : ellipse_radii float :=
  {| x_radius := 1%float; y_radius := 1%float; z_radius := 1%float |}.

(** One branch from the centre of that ellipsoid to the point (1, 0, 0)
    of its surface; rows of the node array are [[node number, x, y, z]]. *)
Definition radial_branch_el : list elem_row := [[0; 0; 1]].
Definition radial_branch_node : list (list float) :=
  [[0; 0; 0; 0]%float; [1; 1; 0; 0]%float].

(** A tree of two elements in a row along the x axis, of radius 0.5. *)
Definition chain2 : list elem_row := [[0; 0; 1]; [1; 1; 2]].
Definition chain2_node_loc : list (list float) :=
  [[0; 0; 0; 0]%float; [1; 1; 0; 0]%float; [2; 2; 0; 0]%float].
Definition chain2_radius : list float := [0.5%float; 0.5%float].
Definition chain2_orders : orders :=
  {| strahler := [1; 1]; horsfield := [1; 1]; generation := [1; 1] |}.


(** A mesh the volume routines can index: no more cells than
    [total_elems], and each of the corners 1 to 8 of every cell is a node
    with three coordinates. *)
Definition wf_cell {F : Type} (nodes : list (list F)) (row : list nat) : bool :=
  forallb (fun k => match row !! k with
                    | Some n => match nodes !! n with
                                | Some p => bool_decide (3 <= length p)
                                | None => false
                                end
                    | None => false
                    end) (seq 1 8).

Definition wf_mesh {F : Type} (mesh : rectangular_mesh F) : bool :=
  bool_decide (length (mesh_elems mesh) <= mesh_total_elems mesh)
  && forallb (wf_cell (mesh_nodes mesh)) (mesh_elems mesh).

(** The coordinates of corner [nod] of cell [ne]. *)
Definition corner_point {F : Type} (mesh : rectangular_mesh F) (ne nod : nat)
  : option (F * F * F) :=
  row ← mesh_elems mesh !! ne;
  n ← row !! nod;
  p ← mesh_nodes mesh !! n;
  x ← p !! 0;
  y ← p !! 1;
  z ← p !! 2;
  Some (x, y, z).

Section CornerCount.
Context {F : Type}.
Variables check_in_ellipsoid check_on_ellipsoid : F -> F -> F -> F -> F -> F -> bool.

(** Corner [nod] of cell [ne] is inside or on the ellipsoid. *)
Definition corner_in_or_on (mesh : rectangular_mesh F) (radii : ellipse_radii F)
    (ne nod : nat) : bool :=
  match corner_point mesh ne nod with
  | Some (x, y, z) =>
      check_in_ellipsoid x y z (x_radius radii) (y_radius radii) (z_radius radii)
      || check_on_ellipsoid x y z (x_radius radii) (y_radius radii) (z_radius radii)
  | None => false
  end.

(** The number of corners of cell [ne] inside or on the ellipsoid. *)
Definition corner_count (mesh : rectangular_mesh F) (radii : ellipse_radii F)
    (ne : nat) : nat :=
  length (filter (fun nod => corner_in_or_on mesh radii ne nod = true) (seq 1 8)).
End CornerCount.

(** The single cell from (-2, -2, -2) to (2, 2, 2), which holds the
    unit ball. *)
Definition box_mesh : rectangular_mesh float :=
  {| mesh_nodes := [[-2; -2; -2]%float; [2; -2; -2]%float; [-2; 2; -2]%float;
                    [2; 2; -2]%float; [-2; -2; 2]%float; [2; -2; 2]%float;
                    [-2; 2; 2]%float; [2; 2; 2]%float];
     mesh_elems := [[0; 0; 1; 2; 3; 4; 5; 6; 7]];
     mesh_total_elems := 1 |}.

(** Three cells in a row along the x axis, with corners at x = -5, -3,
    -1/2 and 1/2 and at y, z = -1/4 and 1/4: the first cell has no corner in
    the unit ball, the second one some, the third one all eight. *)
Definition row_mesh : rectangular_mesh float :=
  {| mesh_nodes :=
       [[-5; -0.25; -0.25]%float; [-3; -0.25; -0.25]%float; [-0.5; -0.25; -0.25]%float; [0.5; -0.25; -0.25]%float;
        [-5; 0.25; -0.25]%float; [-3; 0.25; -0.25]%float; [-0.5; 0.25; -0.25]%float; [0.5; 0.25; -0.25]%float;
        [-5; -0.25; 0.25]%float; [-3; -0.25; 0.25]%float; [-0.5; -0.25; 0.25]%float; [0.5; -0.25; 0.25]%float;
        [-5; 0.25; 0.25]%float; [-3; 0.25; 0.25]%float; [-0.5; 0.25; 0.25]%float; [0.5; 0.25; 0.25]%float];
     mesh_elems := [[0; 0; 1; 4; 5; 8; 9; 12; 13];
                    [1; 1; 2; 5; 6; 9; 10; 13; 14];
                    [2; 2; 3; 6; 7; 10; 11; 14; 15]];
     mesh_total_elems := 3 |}.


Section ScanPredicates.
Context {F : Type} `{Num F}.

(** Terminal [nt] lies in grid cell [ne]: between the first and the last
    corner of the cell on each axis, the first included. *)
Definition terminal_in_cell (mesh : rectangular_mesh F) (tl : terminal_list)
    (node_loc : list (list F)) (ne nt : nat) : bool :=
  match corner mesh ne 1, corner mesh ne 8, terminal_coord tl node_loc nt with
  | Ok min_coords, Ok max_coords, Ok coord_terminal =>
      match in_box min_coords max_coords coord_terminal with
      | Ok b => b
      | Err _ => false
      end
  | _, _, _ => false
  end.

(** Terminal [nt] lies in one of the cells [cells] other than cell 0. *)
Definition in_listed_cell (mesh : rectangular_mesh F) (tl : terminal_list)
    (node_loc : list (list F)) (cells : list nat) (nt : nat) : Prop :=
  Exists (fun ne => 0 < ne /\ terminal_in_cell mesh tl node_loc ne nt = true) cells.

(** The first of the cells [cells], cell 0 apart, in which terminal [nt]
    lies; 0 when there is none. *)
Definition first_listed_cell (mesh : rectangular_mesh F) (tl : terminal_list)
    (node_loc : list (list F)) (cells : list nat) (nt : nat) : nat :=
  match find (fun ne => bool_decide (0 < ne) && terminal_in_cell mesh tl node_loc ne nt)
             cells with
  | Some ne => ne
  | None => 0
  end.
End ScanPredicates.

(** The number of entries of [l] equal to [c]. *)
Definition count_of (c : nat) (l : list nat) : nat :=
  length (filter (fun v => v = c) l).

(** A grid of two unit cells along the x axis (cell 0 from x = 0 to 1,
    cell 1 from x = 1 to 2), and three terminals: two in cell 1 and one in
    cell 0. *)
Definition pair_mesh : rectangular_mesh float :=
  {| mesh_nodes :=
       [[0; 0; 0]%float; [1; 0; 0]%float; [2; 0; 0]%float;
        [0; 1; 0]%float; [1; 1; 0]%float; [2; 1; 0]%float;
        [0; 0; 1]%float; [1; 0; 1]%float; [2; 0; 1]%float;
        [0; 1; 1]%float; [1; 1; 1]%float; [2; 1; 1]%float];
     mesh_elems := [[0; 0; 1; 3; 4; 6; 7; 9; 10]; [1; 1; 2; 4; 5; 7; 8; 10; 11]];
     mesh_total_elems := 2 |}.

Definition pair_node_loc : list (list float) :=
  [[0; 1.5; 0.5; 0.5]%float; [1; 1.25; 0.25; 0.75]%float; [2; 0.5; 0.5; 0.5]%float].

Definition pair_terminals : terminal_list :=
  {| terminal_elems := [0; 1; 2]; terminal_nodes := [0; 1; 2]; total_terminals := 3 |}.


(** ** A uniform grid in exact arithmetic *)

(** The frame [mesh_frame] reads off a grid of [nx] by [ny] by [nz]
    cells of size [xside] by [yside] by [zside] with least corner
    [(startx, starty, startz)]: the greatest node coordinate on an axis is
    [start + n * side], and the number of cells is computed from it. *)
Definition uniform_axis (start side : Q) (n : nat) : Q :=
  fdiv (fsub (start + inject_Z (Z.of_nat n) * side)%Q start) side.

Definition uniform_frame (startx starty startz xside yside zside : Q)
    (nx ny nz : nat) : grid_frame Q :=
  {| startx := startx; xside := xside; nelem_x := uniform_axis startx xside nx;
     starty := starty; yside := yside; nelem_y := uniform_axis starty yside ny;
     startz := startz; zside := zside; nelem_z := uniform_axis startz zside nz |}.

(** Cell [i] is the cell number [i mod nx] along x, [(i / nx) mod ny]
    along y and [i / (nx * ny)] along z; its centroid is half a cell beyond
    its least corner on each axis. *)
Definition centre (start side : Q) (k : nat) : Q :=
  (start + (inject_Z (Z.of_nat k) + (1 # 2)) * side)%Q.

Definition cell_centroid (startx starty startz xside yside zside : Q)
    (nx ny : nat) (i : nat) : list Q :=
  [centre startx xside (i mod nx);
   centre starty yside ((i / nx) mod ny);
   centre startz zside (i / (nx * ny))].

(** The grid of 2 by 1 by 1 unit cells from the origin, over [Q]. *)
Definition pair_mesh_Q : rectangular_mesh Q :=
  {| mesh_nodes :=
       [[0; 0; 0]%Q; [1; 0; 0]%Q; [2; 0; 0]%Q;
        [0; 1; 0]%Q; [1; 1; 0]%Q; [2; 1; 0]%Q;
        [0; 0; 1]%Q; [1; 0; 1]%Q; [2; 0; 1]%Q;
        [0; 1; 1]%Q; [1; 1; 1]%Q; [2; 1; 1]%Q];
     mesh_elems := [[0; 0; 1; 3; 4; 6; 7; 9; 10]; [1; 1; 2; 4; 5; 7; 8; 10; 11]];
     mesh_total_elems := 2 |}.


(** ** A rectangular mesh from its node coordinates *)

(** Modelled from the spec: [generate_shapes.gen_rectangular_mesh] is not
    part of the sources.  The spec describes its result as an axis-aligned
    grid of cuboid cells given by a node array (the grid corner points) and
    an element array, each element referencing its 8 corner nodes with the
    corner of least coordinates first and the corner of greatest coordinates
    last.  Here nodes and cells are numbered along x first, then y, then
    z, which is the numbering [terminals_in_sampling_grid_fast] computes. *)
Definition rect_nodes {F : Type} (xs ys zs : list F) : list (list F) :=
  z ← zs; y ← ys; x ← xs; [[x; y; z]].

Definition rect_elems (nx ny nz : nat) : list (list nat) :=
  iz ← seq 0 nz; iy ← seq 0 ny; ix ← seq 0 nx;
  let node := fun a b c => (ix + a) + (nx + 1) * ((iy + b) + (ny + 1) * (iz + c)) in
  [[ix + nx * (iy + ny * iz);
    node 0 0 0; node 1 0 0; node 0 1 0; node 1 1 0;
    node 0 0 1; node 1 0 1; node 0 1 1; node 1 1 1]].

Definition rect_mesh {F : Type} (xs ys zs : list F) : rectangular_mesh F :=
  let elems := rect_elems (length xs - 1) (length ys - 1) (length zs - 1) in
  {| mesh_nodes := rect_nodes xs ys zs;
     mesh_elems := elems;
     mesh_total_elems := length elems |}.

(** The grid of 5 by 2 by 1 cells of size 1.7 by 1 by 1 centred at the
    origin, its nodes placed by [np.linspace] on each axis. *)
Definition grid5 : rectangular_mesh float :=
  rect_mesh (np_linspace (-4.25)%float 4.25%float 6)
            (np_linspace (-1)%float 1%float 3)
            (np_linspace (-0.5)%float 0.5%float 2).

(** The point half way between the first and the last corner of cell
    [ne]. *)
Definition centroid {F : Type} `{Num F} (mesh : rectangular_mesh F) (ne : nat)
  : result (list F) :=
  lo <- corner mesh ne 1 ;;
  hi <- corner mesh ne 8 ;;
  Ok (zip_with (fun a b => fdiv (fadd a b) (of_Z 2)) lo hi).

(** One terminal, at node 0. *)
Definition one_terminal : terminal_list :=
  {| terminal_elems := [0]; terminal_nodes := [0]; total_terminals := 1 |}.


(** ** Predicates of the further properties *)

(** The generation an element takes from an upstream element of
    generation [g0] with [c] downstream elements: the same for a single
    daughter, one more for two or more, and the initial 0 of the array when
    the upstream element records no daughter at all. *)
Definition generation_step (c g0 : nat) : nat :=
  if decide (c = 1) then g0 else if decide (2 <= c) then g0 + 1 else 0.

(** The rule the forward loop of [evaluate_orders] follows at element
    [ne], read on the generation array [g]: [ne0] is entry 1 of the upstream
    row of [ne].  An element with [ne0 = 0] counts as an inlet; otherwise its
    generation comes from that of element [ne0], which is only known if
    [ne0] is numbered before [ne] and still the initial 0 if not. *)
Definition generation_rule (conn : connectivity) (g : list nat) (ne : nat) : Prop :=
  forall up ne0,
    elem_up conn !! ne = Some up -> up !! 1 = Some ne0 ->
    (ne0 = 0 -> g !! ne = Some 1)
    /\ (ne0 <> 0 ->
        forall down0 c,
          elem_down conn !! ne0 = Some down0 -> down0 !! 0 = Some c ->
          (ne0 < ne -> forall g0, g !! ne0 = Some g0 ->
                                  g !! ne = Some (generation_step c g0))
          /\ (ne <= ne0 -> g !! ne = Some (generation_step c 0))).


(** Elements are numbered root first: the downstream elements a row
    records have greater numbers than the element of the row. *)
Definition root_first_row (ne : nat) (down : list nat) : bool :=
  match down !! 0 with
  | Some c => forallb (fun k => match down !! k with
                                | Some d => bool_decide (ne < d)
                                | None => true
                                end) (seq 1 c)
  | None => true
  end.

Definition root_first (conn : connectivity) : bool :=
  forallb (fun ne => match elem_down conn !! ne with
                     | Some down => root_first_row ne down
                     | None => true
                     end) (seq 0 (length (elem_down conn))).

(** [vals] are the (horsfield, strahler) orders of the [c] daughters a
    downstream row records, in the order of the row. *)
Definition daughters (down horsfield strahler : list nat) (c : nat)
    (vals : list (nat * nat)) : Prop :=
  Forall2 (fun k v => exists d, down !! k = Some d
                                /\ horsfield !! d = Some v.1
                                /\ strahler !! d = Some v.2) (seq 1 c) vals.

(** The rule the backward loop of [evaluate_orders] follows at element
    [ne], read on the arrays [h] and [s] of horsfield and strahler orders:
    - no daughter, or a single daughter of generation 0: both orders are 1;
    - a single daughter: both orders are those of the daughter;
    - two or more daughters: horsfield is one more than the greatest
      horsfield order of the daughters; strahler is the greatest strahler
      order of the daughters, plus one exactly when all daughters have the
      strahler order of the first one. *)
Definition order_rule (conn : connectivity) (generation h s : list nat) (ne : nat)
  : Prop :=
  forall down c,
    elem_down conn !! ne = Some down -> down !! 0 = Some c ->
    (c = 0 -> h !! ne = Some 1 /\ s !! ne = Some 1)
    /\ (c = 1 ->
        forall d g, down !! 1 = Some d -> generation !! d = Some g ->
          if decide (g = 0) then h !! ne = Some 1 /\ s !! ne = Some 1
          else h !! ne = h !! d /\ s !! ne = s !! d)
    /\ (2 <= c ->
        exists vals s1,
          daughters down h s c vals
          /\ head (map snd vals) = Some s1
          /\ h !! ne = Some (fold_left Nat.max (map fst vals) 1 + 1)
          /\ s !! ne = Some (fold_left Nat.max (map snd vals) s1
                             + (if decide (Forall (fun v => v.2 = s1) vals)
                                then 1 else 0))).


Section BranchPredicates.
Context {F : Type}.
Variables check_in_ellipsoid check_on_ellipsoid : F -> F -> F -> F -> F -> F -> bool.

(** The two end points [N1] and [N2] of branch [ne]. *)
Definition branch_ends (branch_el : list elem_row) (branch_node : list (list F))
    (ne : nat) : option (list F * list F) :=
  row ← branch_el !! ne;
  n1 ← row !! 1;
  p1 ← branch_node !! n1;
  n2 ← row !! 2;
  p2 ← branch_node !! n2;
  Some (slice p1 1 4, slice p2 1 4).

(** The outcome of the end-point test of [cal_br_vol_samp_grid] on branch
    [ne]: [Some true] when the test stops the run. *)
Definition branch_rejected (branch_el : list elem_row) (branch_node : list (list F))
    (radii : ellipse_radii F) (ne : nat) : option bool :=
  ends ← branch_ends branch_el branch_node ne;
  a0 ← ends.1 !! 0; a1 ← ends.1 !! 1; a2 ← ends.1 !! 2;
  b0 ← ends.2 !! 0; b1 ← ends.2 !! 1; b2 ← ends.2 !! 2;
  let rx := x_radius radii in
  let ry := y_radius radii in
  let rz := z_radius radii in
  Some (branch_outside (check_in_ellipsoid a0 a1 a2 rx ry rz)
                       (check_on_ellipsoid a0 a1 a2 rx ry rz)
                       (check_in_ellipsoid b0 b1 b2 rx ry rz)
                       (check_on_ellipsoid b0 b1 b2 rx ry rz)).
End BranchPredicates.

(** Two branches from the centre of the unit ball: the first one ends
    half way to the surface, the second one on it. *)
Definition two_branch_el : list elem_row := [[0; 0; 1]; [1; 0; 2]].
Definition two_branch_node : list (list float) :=
  [[0; 0; 0; 0]%float; [1; 0.5; 0; 0]%float; [2; 1; 0; 0]%float].

(** A remainder of the loop body that leaves the totals as they are. *)
Definition keep_totals (mesh : rectangular_mesh float) (ne : nat) (N1 N2 : list float)
    (st : branch_state float) : result (branch_state float) := Ok st.

(** * Properties *)

(** ** The error monad, arrays and loops *)

Lemma bind_ok {A B : Type} (m : result A) (k : A -> result B) (b : B) :
  bind m k = Ok b <-> exists a, m = Ok a /\ k a = Ok b.
Proof.
  destruct m as [a|e]; simpl; split.
  - intros Hk. exists a. split; [reflexivity | exact Hk].
  - intros (a' & Ha & Hk). injection Ha as ->. exact Hk.
  - discriminate.
  - intros (a' & Ha & _). discriminate.
Qed.

Lemma get_ok {A : Type} (a : list A) (i : nat) (x : A) :
  get a i = Ok x <-> a !! i = Some x.
Proof.
  unfold get. destruct (a !! i) as [y|]; split; intros Heq;
    try discriminate; congruence.
Qed.

Lemma get_lt {A : Type} (a : list A) (i : nat) :
  i < length a -> exists x, get a i = Ok x /\ a !! i = Some x.
Proof.
  intros Hi. destruct (lookup_lt_is_Some_2 a i Hi) as [x Hx].
  exists x. split; [by apply get_ok | exact Hx].
Qed.

Lemma set_lt {A : Type} (a : list A) (i : nat) (v : A) :
  i < length a -> set a i v = Ok (<[i:=v]> a).
Proof. intros Hi. unfold set. by rewrite decide_True. Qed.

Lemma set_ok {A : Type} (a a' : list A) (i : nat) (v : A) :
  set a i v = Ok a' <-> i < length a /\ a' = <[i:=v]> a.
Proof.
  unfold set. destruct (decide (i < length a)) as [Hi|Hi]; split.
  - intros [= <-]. by split.
  - by intros [_ ->].
  - discriminate.
  - intros [Hlt _]. contradiction.
Qed.

(** Rewrites a [get] or [set] that is known to succeed. *)
Ltac run_get H := rewrite (proj2 (get_ok _ _ _) H); cbn [bind].
Ltac run_set := rewrite set_lt by (rewrite ?length_insert; lia); cbn [bind].

Lemma for_loop_app {A S : Type} (xs ys : list A) (body : A -> S -> result S) (s : S) :
  for_loop (xs ++ ys) body s = (s' <- for_loop xs body s ;; for_loop ys body s').
Proof.
  revert s. induction xs as [|x xs IH]; intros s; simpl; [reflexivity|].
  destruct (body x s) as [s1|e]; simpl; [apply IH | reflexivity].
Qed.

(** Total correctness of a loop: an invariant indexed by the part of the
    list already visited, which every iteration keeps without raising. *)
Lemma for_loop_total {A S : Type} (I : list A -> S -> Prop)
    (xs : list A) (body : A -> S -> result S) (s : S) :
  I [] s ->
  (forall pre x post s1, xs = pre ++ x :: post -> I pre s1 ->
     exists s2, body x s1 = Ok s2 /\ I (pre ++ [x]) s2) ->
  exists s', for_loop xs body s = Ok s' /\ I xs s'.
Proof.
  intros H0 Hstep.
  assert (Hgen : forall post pre s1, xs = pre ++ post -> I pre s1 ->
            exists s', for_loop post body s1 = Ok s' /\ I xs s').
  { induction post as [|x post IH]; intros pre s1 Hxs Hpre.
    - exists s1. rewrite app_nil_r in Hxs. subst pre. by split.
    - destruct (Hstep pre x post s1 Hxs Hpre) as (s2 & Hb & Hs2).
      simpl. rewrite Hb. simpl.
      apply (IH (pre ++ [x])); [|exact Hs2].
      by rewrite <- app_assoc. }
  by apply (Hgen xs []).
Qed.

(** Partial correctness of a loop: the same invariant, kept by every
    iteration that returns. *)
Lemma for_loop_partial {A S : Type} (I : list A -> S -> Prop)
    (xs : list A) (body : A -> S -> result S) (s s' : S) :
  for_loop xs body s = Ok s' ->
  I [] s ->
  (forall pre x post s1 s2, xs = pre ++ x :: post -> I pre s1 ->
     body x s1 = Ok s2 -> I (pre ++ [x]) s2) ->
  I xs s'.
Proof.
  intros Hrun H0 Hstep.
  assert (Hgen : forall post pre s1, xs = pre ++ post -> I pre s1 ->
            for_loop post body s1 = Ok s' -> I xs s').
  { induction post as [|x post IH]; intros pre s1 Hxs Hpre Hloop.
    - simpl in Hloop. injection Hloop as <-.
      rewrite app_nil_r in Hxs. by subst pre.
    - simpl in Hloop. apply bind_ok in Hloop as (s2 & Hb & Hloop).
      apply (IH (pre ++ [x]) s2); [by rewrite <- app_assoc | | exact Hloop].
      by apply (Hstep pre x post s1 s2). }
  by apply (Hgen xs [] s).
Qed.

(** A loop whose body always raises raises as soon as there is an
    element to visit. *)
Lemma for_loop_raises {A S : Type} (xs : list A) (body : A -> S -> result S) (s : S) :
  xs <> [] ->
  (forall x s1, exists e, body x s1 = Err e) ->
  exists e, for_loop xs body s = Err e.
Proof.
  intros Hne Hbody. destruct xs as [|x xs]; [done|].
  simpl. destruct (Hbody x s) as [e ->]. by exists e.
Qed.

Lemma np_resize_take (a : list nat) (n : nat) :
  n <= length a -> np_resize a n = take n a.
Proof.
  intros Hn. unfold np_resize. destruct a as [|x a].
  - simpl in Hn. by replace n with 0 by lia.
  - destruct n as [|n]; [done|].
    cbn [replicate mjoin list_join]. rewrite take_app_le by done. reflexivity.
Qed.

Lemma seq_split_at (n : nat) (pre post : list nat) (x : nat) :
  seq 0 n = pre ++ x :: post -> pre = seq 0 x /\ x = length pre /\ x < n.
Proof.
  intros Heq.
  assert (Hlen : length (seq 0 n) = length pre + S (length post)).
  { rewrite Heq, length_app. reflexivity. }
  rewrite length_seq in Hlen.
  assert (Hx : seq 0 n !! length pre = Some x).
  { rewrite Heq. by rewrite list_lookup_middle. }
  apply lookup_seq in Hx as [Hx _]. simpl in Hx. subst x.
  split; [|split; [reflexivity | lia]].
  assert (Hpre : take (length pre) (seq 0 n) = pre).
  { rewrite Heq. by rewrite take_app_length. }
  rewrite <- Hpre at 1. rewrite take_seq. f_equal. lia.
Qed.

(** ** The order classifier on concrete trees *)

Example tree3_connectivity :
  element_connectivity_1D tree3
  = {| elem_up := [[0; 0; 0; 0]; [1; 0; 0; 0]; [1; 0; 0; 0]];
       elem_down := [[2; 1; 2; 0]; [0; 0; 0; 0]; [0; 0; 0; 0]] |}.
Proof. vm_compute. reflexivity. Qed.

(** C1: on the tree of three elements (root, two terminal daughters)
    [evaluate_orders] returns strahler [2,1,1] and horsfield [2,1,1], and
    [calc_terminal_branch] returns the two daughters; but the generation it
    returns is [1,1,1], not [1,2,2]: the forward loop takes an element whose
    upstream element is number 0 for an inlet. *)
Theorem tree3_orders_and_terminals :
  evaluate_orders tree3
  = Ok {| strahler := [2; 1; 1]; horsfield := [2; 1; 1]; generation := [1; 1; 1] |}
  /\ calc_terminal_branch 4 tree3
     = Ok {| terminal_elems := [1; 2]; terminal_nodes := [2; 3]; total_terminals := 2 |}.
Proof. split; vm_compute; reflexivity. Qed.

Example tree4_orders :
  evaluate_orders tree4
  = Ok {| strahler := [2; 2; 1; 1]; horsfield := [2; 2; 1; 1];
          generation := [1; 1; 2; 2] |}.
Proof. vm_compute. reflexivity. Qed.

Example trifurcation_connectivity :
  elem_down (element_connectivity_1D trifurcation) !! 0 = Some [3; 1; 2; 3; 0; 0; 0; 0; 0].
Proof. vm_compute. reflexivity. Qed.

(** C2: at a root with three daughters of strahler 2, 2 and 1 two
    daughters attain the maximum, yet [evaluate_orders] gives the root
    strahler 2, not 3 (horsfield is 1 + 2 = 3 as stated). *)
Theorem trifurcation_orders :
  evaluate_orders trifurcation
  = Ok {| strahler := [2; 2; 2; 1; 1; 1; 1; 1];
          horsfield := [3; 2; 2; 1; 1; 1; 1; 1];
          generation := [1; 1; 1; 1; 2; 2; 2; 2] |}.
Proof. vm_compute. reflexivity. Qed.

Example trifurcation'_orders :
  evaluate_orders trifurcation'
  = Ok {| strahler := [2; 1; 2; 2; 1; 1; 1; 1];
          horsfield := [3; 1; 2; 2; 1; 1; 1; 1];
          generation := [1; 1; 1; 1; 2; 2; 2; 2] |}.
Proof. vm_compute. reflexivity. Qed.

(** What the loop over the daughters computes, for daughters with the
    (horsfield, strahler) orders [vals]: the greatest horsfield order, the
    greatest strahler order, and an increment that survives only if every
    daughter has the strahler order the loop started from, which is that of
    the first daughter. *)
Lemma daughter_loop_spec (down horsfield strahler : list nat)
    (ks : list nat) (vals : list (nat * nat)) (n_horsfield temp_strahler add : nat) :
  Forall2 (fun k v => exists d, down !! k = Some d
                                /\ horsfield !! d = Some v.1
                                /\ strahler !! d = Some v.2) ks vals ->
  for_loop ks (daughter_body down horsfield strahler) (n_horsfield, temp_strahler, add)
  = Ok (fold_left Nat.max (map fst vals) n_horsfield,
        fold_left Nat.max (map snd vals) temp_strahler,
        if decide (Forall (fun v => v.2 = temp_strahler) vals) then add else 0).
Proof.
  intros Hvals. revert n_horsfield temp_strahler add.
  induction Hvals as [|k [h2 s2] ks vals (d & Hd & Hh & Hs) _ IH];
    intros n_horsfield temp_strahler add.
  - reflexivity.
  - simpl in Hh, Hs. cbn [for_loop]. unfold daughter_body at 1.
    run_get Hd. run_get Hh. run_get Hs.
    assert (Hmax : (if decide (n_horsfield < h2) then h2 else n_horsfield)
                   = Nat.max n_horsfield h2).
    { destruct (decide (n_horsfield < h2)); lia. }
    rewrite Hmax. cbn [map fold_left fst snd].
    destruct (decide (s2 < temp_strahler)) as [Hlt|Hge];
      [|destruct (decide (temp_strahler < s2)) as [Hgt|Hle]]; cbn [bind]; rewrite IH.
    + replace (Nat.max temp_strahler s2) with temp_strahler by lia.
      rewrite (decide_False (P := Forall _ (_ :: _))).
      * by destruct (decide (Forall _ vals)).
      * intros Hall. apply Forall_cons in Hall as [Heq _]. simpl in Heq. lia.
    + replace (Nat.max temp_strahler s2) with s2 by lia.
      rewrite (decide_False (P := Forall _ (_ :: _))).
      * by destruct (decide (Forall _ vals)).
      * intros Hall. apply Forall_cons in Hall as [Heq _]. simpl in Heq. lia.
    + assert (s2 = temp_strahler) as -> by lia.
      replace (Nat.max temp_strahler temp_strahler) with temp_strahler by lia.
      destruct (decide (Forall (fun v => v.2 = temp_strahler) vals)) as [Hall|Hnot].
      * rewrite decide_True; [done|]. by constructor.
      * rewrite decide_False; [done|]. by intros [_ Hall]%Forall_cons.
Qed.

(** ** The order classifier never rejects a topology *)

(** C3, as stated, fails: a forest of two roots and a tree with a
    confluence are both classified. *)
Lemma invalid_topology_classified :
  (invalid_topology (length forest2) (element_connectivity_1D forest2)
   /\ evaluate_orders forest2
      = Ok {| strahler := [1; 1]; horsfield := [1; 1]; generation := [1; 1] |})
  /\ (invalid_topology (length confluence) (element_connectivity_1D confluence)
      /\ evaluate_orders confluence
         = Ok {| strahler := [1; 1; 1]; horsfield := [1; 1; 1];
                 generation := [1; 1; 1] |}).
Proof.
  split; split.
  - left. vm_compute. lia.
  - vm_compute. reflexivity.
  - right. unfold has_confluence. apply Exists_exists. exists 2. split.
    + simpl. rewrite !elem_of_cons. auto.
    + exists 2. vm_compute. split; [reflexivity | lia].
  - vm_compute. reflexivity.
Qed.

Lemma wf_up_row_spec (n : nat) (up : list nat) :
  wf_up_row n up = true -> exists ne0, up !! 1 = Some ne0 /\ ne0 < n.
Proof.
  unfold wf_up_row. destruct (up !! 1) as [ne0|]; [|discriminate].
  intros Hlt%bool_decide_eq_true. by exists ne0.
Qed.

Lemma wf_down_row_spec (n : nat) (down : list nat) :
  wf_down_row n down = true ->
  exists c, down !! 0 = Some c
            /\ forall k, 1 <= k <= c -> exists d, down !! k = Some d /\ d < n.
Proof.
  unfold wf_down_row. destruct (down !! 0) as [c|]; [|discriminate].
  intros Hall. exists c. split; [reflexivity|].
  intros k Hk. rewrite forallb_forall in Hall.
  specialize (Hall k). destruct (down !! k) as [d|].
  - exists d. split; [reflexivity|].
    eapply bool_decide_eq_true_1, Hall, in_seq. lia.
  - exfalso. assert (false = true); [|discriminate].
    apply Hall, in_seq. lia.
Qed.

Lemma wf_conn_spec (n : nat) (conn : connectivity) :
  wf_conn n conn = true ->
  length (elem_up conn) = n /\ length (elem_down conn) = n
  /\ (forall ne, ne < n -> exists up ne0,
         elem_up conn !! ne = Some up /\ up !! 1 = Some ne0 /\ ne0 < n)
  /\ (forall ne, ne < n -> exists down c,
         elem_down conn !! ne = Some down /\ down !! 0 = Some c
         /\ forall k, 1 <= k <= c -> exists d, down !! k = Some d /\ d < n).
Proof.
  unfold wf_conn. rewrite !andb_true_iff, !bool_decide_eq_true, !forallb_forall.
  intros [[[Hup Hdown] Hups] Hdowns]. repeat split; [done | done | |].
  - intros ne Hne. destruct (lookup_lt_is_Some_2 (elem_up conn) ne) as [up Hrow]; [lia|].
    destruct (wf_up_row_spec n up) as (ne0 & H1 & Hlt).
    { apply Hups, list_elem_of_In, list_elem_of_lookup. by exists ne. }
    by exists up, ne0.
  - intros ne Hne.
    destruct (lookup_lt_is_Some_2 (elem_down conn) ne) as [down Hrow]; [lia|].
    destruct (wf_down_row_spec n down) as (c & H0 & Hk).
    { apply Hdowns, list_elem_of_In, list_elem_of_lookup. by exists ne. }
    by exists down, c.
Qed.

Lemma generation_body_total (n : nat) (conn : connectivity) (ne : nat)
    (generation : list nat) (maxgen : nat) :
  wf_conn n conn = true -> ne < n -> length generation = n ->
  exists generation' maxgen',
    generation_body (elem_up conn) (elem_down conn) ne (generation, maxgen)
    = Ok (generation', maxgen')
    /\ length generation' = n.
Proof.
  intros (_ & _ & Hups & Hdowns)%wf_conn_spec Hne Hlen.
  destruct (Hups ne Hne) as (up & ne0 & Hup & Hne0 & Hlt).
  destruct (Hdowns ne0 Hlt) as (down0 & c & Hdown0 & Hc & _).
  destruct (get_lt generation ne0) as (g0 & _ & Hg0); [lia|].
  unfold generation_body. run_get Hup. run_get Hne0.
  assert (Hread : forall g : list nat, length g = n ->
            exists generation' maxgen',
              (g1 <- get g ne ;; Ok (g, Nat.max maxgen g1)) = Ok (generation', maxgen')
              /\ length generation' = n).
  { intros g Hg. destruct (get_lt g ne) as (g1 & -> & _); [lia|].
    cbn [bind]. by eexists _, _. }
  destruct (decide (ne0 <> 0)).
  - run_get Hg0. run_get Hdown0. run_get Hc.
    destruct (decide (c = 1)); [|destruct (decide (2 <= c))].
    + run_set. apply Hread. by rewrite length_insert.
    + run_set. apply Hread. by rewrite length_insert.
    + cbn [bind]. by apply Hread.
  - run_set. apply Hread. by rewrite length_insert.
Qed.

Lemma daughter_loop_total (n : nat) (down horsfield strahler : list nat)
    (c : nat) (st : nat * nat * nat) :
  length horsfield = n -> length strahler = n ->
  (forall k, 1 <= k <= c -> exists d, down !! k = Some d /\ d < n) ->
  exists st', for_loop (seq 1 c) (daughter_body down horsfield strahler) st = Ok st'.
Proof.
  intros Hh Hs Hk.
  destruct (for_loop_total (fun _ _ => True) (seq 1 c)
              (daughter_body down horsfield strahler) st) as (st' & Hrun & _);
    [done | | by exists st'].
  intros pre k post [[n_h t_s] s_a] Hsplit _.
  assert (Hin : k ∈ seq 1 c).
  { rewrite Hsplit. apply elem_of_app. right. apply elem_of_cons. by left. }
  apply elem_of_seq in Hin.
  destruct (Hk k) as (d & Hd & Hlt); [lia|].
  destruct (get_lt horsfield d) as (h2 & _ & Hh2); [lia|].
  destruct (get_lt strahler d) as (s2 & _ & Hs2); [lia|].
  unfold daughter_body. run_get Hd. run_get Hh2. run_get Hs2.
  destruct (decide (s2 < t_s)); [by eexists|].
  destruct (decide (t_s < s2)); by eexists.
Qed.

Lemma order_body_total (n : nat) (conn : connectivity) (generation : list nat)
    (ne : nat) (horsfield strahler : list nat) :
  wf_conn n conn = true -> ne < n -> length generation = n ->
  length horsfield = n -> length strahler = n ->
  exists horsfield' strahler',
    order_body (elem_down conn) generation ne (horsfield, strahler)
    = Ok (horsfield', strahler')
    /\ length horsfield' = n /\ length strahler' = n.
Proof.
  intros (_ & _ & _ & Hdowns)%wf_conn_spec Hne Hg Hh Hs.
  destruct (Hdowns ne Hne) as (down & c & Hdown & Hc & Hk).
  destruct (get_lt horsfield ne) as (h & _ & Hhne); [lia|].
  unfold order_body. run_get Hhne. run_get Hdown. run_get Hc.
  assert (Hwrite : forall n_h t_s s_a,
            exists horsfield' strahler',
              (horsfield0 <- set horsfield ne n_h ;;
               strahler0 <- set strahler ne (t_s + s_a) ;;
               Ok (horsfield0, strahler0)) = Ok (horsfield', strahler')
              /\ length horsfield' = n /\ length strahler' = n).
  { intros n_h t_s s_a. do 2 run_set. eexists _, _.
    split; [reflexivity|]. by rewrite !length_insert. }
  assert (Hrest : forall c', c' <= c ->
            exists horsfield' strahler',
              (st <-
                 (if decide (2 <= c') then
                    d1 <- get down 1 ;;
                    temp_strahler <- get strahler d1 ;;
                    st <- for_loop (seq 1 c') (daughter_body down horsfield strahler)
                                   (Nat.max h 1, temp_strahler, 1) ;;
                    let '(n_horsfield, temp_strahler, strahler_add) := st in
                    Ok (n_horsfield + 1, temp_strahler, strahler_add)
                  else if decide (c' = 1) then
                    ne2 <- get down 1 ;;
                    n_horsfield <- get horsfield ne2 ;;
                    strahler_add <- get strahler ne2 ;;
                    Ok (n_horsfield, 0, strahler_add)
                  else Ok (Nat.max h 1, 0, 1)) ;;
               let '(n_horsfield, temp_strahler, strahler_add) := st in
               horsfield0 <- set horsfield ne n_horsfield ;;
               strahler0 <- set strahler ne (temp_strahler + strahler_add) ;;
               Ok (horsfield0, strahler0)) = Ok (horsfield', strahler')
              /\ length horsfield' = n /\ length strahler' = n).
  { intros c' Hc'. destruct (decide (2 <= c')); [|destruct (decide (c' = 1))].
    - destruct (Hk 1) as (d1 & Hd1 & Hlt1); [lia|].
      destruct (get_lt strahler d1) as (s1 & _ & Hs1); [lia|].
      run_get Hd1. run_get Hs1.
      destruct (daughter_loop_total n down horsfield strahler c' (Nat.max h 1, s1, 1))
        as ([[n_h t_s] s_a] & ->); [done | done | |].
      { intros k Hk'. apply Hk. lia. }
      cbn [bind]. apply Hwrite.
    - destruct (Hk 1) as (d1 & Hd1 & Hlt1); [lia|].
      destruct (get_lt horsfield d1) as (h1 & _ & Hh1); [lia|].
      destruct (get_lt strahler d1) as (s1 & _ & Hs1); [lia|].
      run_get Hd1. run_get Hh1. run_get Hs1. apply Hwrite.
    - cbn [bind]. apply Hwrite. }
  destruct (decide (c = 1)) as [->|Hc1].
  - destruct (Hk 1) as (d1 & Hd1 & Hlt1); [lia|].
    destruct (get_lt generation d1) as (g1 & _ & Hg1); [lia|].
    rewrite (proj2 (get_ok _ _ _) Hd1) in Hrest |- *. cbn [bind] in Hrest |- *.
    run_get Hg1.
    destruct (decide (g1 = 0)); cbn [bind]; [apply (Hrest 0) | apply (Hrest 1)]; lia.
  - cbn [bind]. by apply Hrest.
Qed.

(** C3, amended: [evaluate_orders] has no check of the topology.  For
    every connectivity record it can index (whatever the number of elements
    without an upstream element or the number of upstream elements of an
    element) it returns the three order arrays, one entry per element. *)
Theorem evaluate_orders_total (n : nat) (conn : connectivity) :
  wf_conn n conn = true ->
  exists r, evaluate_orders_conn n conn = Ok r
            /\ length (generation r) = n
            /\ length (horsfield r) = n
            /\ length (strahler r) = n.
Proof.
  intros Hwf. unfold evaluate_orders_conn.
  destruct (for_loop_total (fun _ st => length st.1 = n) (range n)
              (generation_body (elem_up conn) (elem_down conn)) (np_zeros n, 1))
    as ([generation maxgen] & -> & Hg).
  { apply length_replicate. }
  { intros pre ne post [g m] Hsplit Hlen.
    apply seq_split_at in Hsplit as (_ & _ & Hne).
    destruct (generation_body_total n conn ne g m Hwf Hne Hlen) as (g' & m' & -> & Hg').
    by exists (g', m'). }
  cbn [bind]. simpl in Hg.
  destruct (for_loop_total (fun _ st => length st.1 = n /\ length st.2 = n) (range_down n)
              (order_body (elem_down conn) generation) (np_zeros n, np_zeros n))
    as ([horsfield strahler] & -> & Hh & Hs).
  { split; apply length_replicate. }
  { intros pre ne post [h s] Hsplit [Hh Hs].
    assert (Hne : ne < n).
    { assert (Hin : ne ∈ range_down n).
      { rewrite Hsplit. apply elem_of_app. right. apply elem_of_cons. by left. }
      unfold range_down in Hin. apply list_elem_of_In in Hin.
      apply in_rev, in_seq in Hin. lia. }
    destruct (order_body_total n conn generation ne h s Hwf Hne Hg Hh Hs)
      as (h' & s' & -> & Hh' & Hs').
    by exists (h', s'). }
  cbn [bind]. by eexists.
Qed.

(** The forest of two roots is such an input. *)
Lemma evaluate_orders_total_forest2 :
  invalid_topology 2 (element_connectivity_1D forest2)
  /\ exists r, evaluate_orders_conn 2 (element_connectivity_1D forest2) = Ok r
               /\ length (generation r) = 2
               /\ length (horsfield r) = 2
               /\ length (strahler r) = 2.
Proof.
  split.
  - left. vm_compute. lia.
  - apply (evaluate_orders_total 2 (element_connectivity_1D forest2)).
    vm_compute. reflexivity.
Defined.

(** ** The terminal finder *)

Lemma filter_seq_sorted (P : nat -> Prop) `{!forall x, Decision (P x)} (j n : nat) :
  StronglySorted lt (filter P (seq j n)).
Proof.
  revert j. induction n as [|n IH]; intros j; simpl; [constructor|].
  rewrite filter_cons. destruct (decide (P j)); [|apply IH].
  constructor; [apply IH|].
  apply Forall_forall. intros x [_ Hx%elem_of_seq]%list_elem_of_filter. lia.
Qed.

Lemma down_count_get (conn : connectivity) (ne c : nat) :
  down_count conn ne = Some c ->
  exists down, get (elem_down conn) ne = Ok down /\ get down 0 = Ok c.
Proof.
  unfold down_count. destruct (elem_down conn !! ne) as [down|] eqn:Hrow; [|discriminate].
  simpl. intros Hc. exists down. split; by apply get_ok.
Qed.

Lemma elem_node_get (elems : list elem_row) (ne k nd : nat) :
  elem_node elems ne k = Some nd ->
  exists row, get elems ne = Ok row /\ get row k = Ok nd.
Proof.
  unfold elem_node. destruct (elems !! ne) as [row|] eqn:Hrow; [|discriminate].
  simpl. intros Hk. exists row. split; by apply get_ok.
Qed.

(** The state of the terminal loop after the elements [pre]. *)
Definition terminal_inv (num_nodes : nat) (elems : list elem_row) (conn : connectivity)
    (pre : list nat) (st : list nat * list nat * nat) : Prop :=
  let '(terminal_branches, terminal_nodes, num_term) := st in
  let found := filter (fun ne => down_count conn ne = Some 0) pre in
  num_term = length found
  /\ length terminal_branches = length elems
  /\ length terminal_nodes = num_nodes
  /\ take num_term terminal_branches = found
  /\ Forall2 (fun ne nd => elem_node elems ne 2 = Some nd)
             found (take num_term terminal_nodes).

Lemma terminal_body_step (num_nodes : nat) (elems : list elem_row) (conn : connectivity)
    (pre post : list nat) (ne : nat) (st : list nat * list nat * nat) :
  (forall ne, ne < length elems -> is_Some (down_count conn ne)) ->
  (forall ne, ne ∈ terminals_of (length elems) conn -> is_Some (elem_node elems ne 2)) ->
  length (terminals_of (length elems) conn) <= num_nodes ->
  seq 0 (length elems) = pre ++ ne :: post ->
  terminal_inv num_nodes elems conn pre st ->
  exists st', calc_terminal_branch_body elems conn ne st = Ok st'
              /\ terminal_inv num_nodes elems conn (pre ++ [ne]) st'.
Proof.
  intros Hdown Hleaf Hroom Hsplit.
  destruct st as [[tb tn] k]. intros (Hk & Htb & Htn & Htake & Hnodes).
  destruct (seq_split_at _ _ _ _ Hsplit) as (Hpre & Hlen & Hne).
  destruct (Hdown ne Hne) as [c Hc].
  destruct (down_count_get conn ne c Hc) as (down & Hrow & Hc0).
  unfold calc_terminal_branch_body. rewrite Hrow. cbn [bind]. rewrite Hc0. cbn [bind].
  assert (Hfound : length (filter (fun ne => down_count conn ne = Some 0) pre) <= ne).
  { rewrite Hlen. apply length_filter. }
  unfold terminal_inv. rewrite filter_app, filter_cons, filter_nil.
  destruct (decide (c = 0)) as [->|Hc1].
  - rewrite decide_True by done.
    assert (Hin : ne ∈ terminals_of (length elems) conn).
    { apply list_elem_of_filter. split; [done|]. apply elem_of_seq. lia. }
    destruct (Hleaf ne Hin) as [leaf Hnd].
    destruct (elem_node_get elems ne 2 leaf Hnd) as (row & Hr & Hl).
    assert (Hk' : k < num_nodes).
    { unfold terminals_of in Hroom. rewrite Hsplit in Hroom.
      rewrite filter_app, filter_cons, decide_True, length_app in Hroom by done.
      simpl in Hroom. lia. }
    rewrite set_lt by lia. cbn [bind]. rewrite Hr. cbn [bind]. rewrite Hl. cbn [bind].
    rewrite set_lt by lia. cbn [bind]. eexists. split; [reflexivity|].
    rewrite length_app, !length_insert. simpl.
    replace (k + 1) with (S k) by lia.
    rewrite (take_S_r _ k ne) by (apply list_lookup_insert_eq; lia).
    rewrite (take_S_r _ k leaf) by (apply list_lookup_insert_eq; lia).
    rewrite !take_insert_ge by lia.
    repeat split; [lia | done | done | by rewrite Htake |].
    apply Forall2_app; [done|]. by constructor.
  - rewrite decide_False by congruence.
    exists (tb, tn, k). split; [reflexivity|].
    rewrite app_nil_r. by repeat split.
Qed.

(** C4: [calc_terminal_branch] returns exactly the elements whose
    downstream count is zero, in increasing order and without spare slots,
    with the second node of each next to it, and [total_terminals] is the
    length of the list. *)
Theorem calc_terminal_branch_spec (num_nodes : nat) (elems : list elem_row)
    (conn : connectivity) :
  (forall ne, ne < length elems -> is_Some (down_count conn ne)) ->
  (forall ne, ne ∈ terminals_of (length elems) conn -> is_Some (elem_node elems ne 2)) ->
  length (terminals_of (length elems) conn) <= num_nodes ->
  exists r, calc_terminal_branch_conn num_nodes elems conn = Ok r
    /\ terminal_elems r = terminals_of (length elems) conn
    /\ (forall ne, ne ∈ terminal_elems r
                   <-> ne < length elems /\ down_count conn ne = Some 0)
    /\ StronglySorted lt (terminal_elems r)
    /\ Forall2 (fun ne nd => elem_node elems ne 2 = Some nd)
               (terminal_elems r) (terminal_nodes r)
    /\ total_terminals r = length (terminal_elems r).
Proof.
  intros Hdown Hleaf Hroom. unfold calc_terminal_branch_conn.
  destruct (for_loop_total (terminal_inv num_nodes elems conn) (range (length elems))
              (calc_terminal_branch_body elems conn)
              (np_zeros (length elems), np_zeros num_nodes, 0))
    as ([[tb tn] k] & -> & Hk & Htb & Htn & Htake & Hnodes).
  { unfold terminal_inv, np_zeros. rewrite !length_replicate. simpl.
    repeat split; constructor. }
  { intros pre ne post st Hsplit Hinv.
    by apply (terminal_body_step num_nodes elems conn pre post). }
  cbn [bind]. unfold range in Hk, Htake, Hnodes.
  fold (terminals_of (length elems) conn) in Hk, Htake, Hnodes.
  assert (Hk1 : k <= length tb).
  { rewrite Hk, Htb. unfold terminals_of.
    etrans; [apply length_filter|]. by rewrite length_seq. }
  assert (Hk2 : k <= length tn) by lia.
  eexists. split; [reflexivity|]. simpl.
  rewrite !np_resize_take by done. rewrite Htake.
  split; [reflexivity|]. split; [|split; [apply filter_seq_sorted | by split]].
  intros ne. unfold terminals_of. rewrite list_elem_of_filter, elem_of_seq.
  split; intros [? ?]; split; (done || lia).
Qed.

(** The tree of three elements is such an input. *)
Lemma calc_terminal_branch_spec_tree3 :
  exists r, calc_terminal_branch_conn 4 tree3 (element_connectivity_1D tree3) = Ok r
    /\ terminal_elems r = terminals_of (length tree3) (element_connectivity_1D tree3)
    /\ (forall ne, ne ∈ terminal_elems r
                   <-> ne < length tree3
                       /\ down_count (element_connectivity_1D tree3) ne = Some 0)
    /\ StronglySorted lt (terminal_elems r)
    /\ Forall2 (fun ne nd => elem_node tree3 ne 2 = Some nd)
               (terminal_elems r) (terminal_nodes r)
    /\ total_terminals r = length (terminal_elems r).
Proof.
  apply (calc_terminal_branch_spec 4 tree3 (element_connectivity_1D tree3)).
  - intros ne Hne. simpl in Hne.
    destruct ne as [|[|[|ne]]]; [by eexists .. | lia].
  - intros ne Hin. vm_compute in Hin.
    apply elem_of_cons in Hin as [->|Hin]; [by eexists|].
    apply elem_of_cons in Hin as [->|Hin]; [by eexists|].
    by apply elem_of_nil in Hin.
  - vm_compute. lia.
Defined.

(** ** The end-point test of [cal_br_vol_samp_grid] *)

(** What the test computes: the second end point is rejected unless it is
    strictly inside; whether it is on the surface is not consulted. *)
Lemma branch_outside_spec (in1 on1 in2 on2 : bool) :
  branch_outside in1 on1 in2 on2 = negb (in1 || on1) || negb in2.
Proof. by destruct in1, on1, in2, on2. Qed.

(** C7: a branch from the centre of the unit ball to a point on its
    surface has both end points inside or on the ellipsoid, yet
    [cal_br_vol_samp_grid] stops at it with the message for branch 0,
    whatever the grid and the remainder of the loop body. *)
Theorem branch_on_surface_aborts
    (distribute_branch : rectangular_mesh float -> nat -> list float -> list float
                         -> branch_state float -> result (branch_state float))
    (mesh : rectangular_mesh float) (volume thickness ellipticity : float)
    (p_vol : ellipse_volumes float) :
  check_in_ellipsoid_model 0%float 0%float 0%float 1%float 1%float 1%float = true
  /\ check_on_ellipsoid_model 1%float 0%float 0%float 1%float 1%float 1%float = true
  /\ cal_br_vol_samp_grid unit_radii check_in_ellipsoid_model check_on_ellipsoid_model
       distribute_branch mesh radial_branch_el radial_branch_node
       volume thickness ellipticity p_vol
     = Err (SysExit
         "branch number: 0 is located outside the ellispoid (whole or partial). Check ellipsoid vol/coordinates of br").
Proof. repeat split; vm_compute; reflexivity. Qed.

(** ** [tree_statistics] *)

Lemma bind_raises {A B : Type} (m : result A) (k : A -> result B) :
  (forall a, exists e, k a = Err e) -> exists e, bind m k = Err e.
Proof. intros Hk. destruct m as [a|e]; simpl; [apply Hk | by exists e]. Qed.

Lemma bind_raises_l {A B : Type} (m : result A) (k : A -> result B) :
  (exists e, m = Err e) -> exists e, bind m k = Err e.
Proof. intros [e ->]. by exists e. Qed.

Section TreeStatisticsFacts.
Context {F : Type} `{Num F} `{Sqrt F}.

(** No iteration of the second loop gets past the read of [diameter]. *)
Lemma branch_body_raises (fuel : nat) (elem_upstream elem_downstream : list (list nat))
    (ords : orders) (diameters lengths : list F) (ne : nat)
    (st : list nat * list (list F) * list (list F) * nat) :
  exists e, branch_body fuel elem_upstream elem_downstream ords diameters lengths ne st
            = Err e.
Proof.
  destruct st as [[[index nbranches] branches] N]. unfold branch_body.
  do 10 (apply bind_raises; intros ?).
  apply bind_raises. intros [nbranches' N'].
  by eexists.
Qed.

(** C8: [tree_statistics] does compute [diameters = 2.0 * radius], but
    then reads the unbound name [diameter]: on every tree with at least
    one element it raises and returns neither length nor mean diameter of
    any branch. *)
Theorem tree_statistics_raises (fuel : nat) (node_loc : list (list F))
    (elems : list elem_row) (radius : list F) (ords : orders) (conn : connectivity) :
  1 <= length elems ->
  exists e, tree_statistics_conn fuel node_loc elems radius ords conn = Err e.
Proof.
  intros Hn. unfold tree_statistics_conn.
  apply bind_raises. intros lengths.
  apply bind_raises_l.
  apply for_loop_raises.
  - unfold range. destruct (length elems); [lia | done].
  - intros ne st. apply branch_body_raises.
Qed.
End TreeStatisticsFacts.

(** On a chain of two elements the exception is the [NameError]. *)
Lemma tree_statistics_chain2 :
  tree_statistics 10 chain2_node_loc chain2 chain2_radius chain2_orders
  = Err (NameError "diameter").
Proof. vm_compute. reflexivity. Qed.

Lemma tree_statistics_raises_chain2 :
  1 <= length chain2
  /\ exists e, tree_statistics_conn 10 chain2_node_loc chain2 chain2_radius chain2_orders
                 (element_connectivity_1D chain2) = Err e.
Proof.
  split; [simpl; lia|].
  apply (tree_statistics_raises 10 chain2_node_loc chain2 chain2_radius chain2_orders).
  simpl. lia.
Defined.

(** ** [ellipse_volume_to_grid] *)

Lemma mapM_total {A B : Type} (f : A -> result B) (xs : list A) :
  (forall x, x ∈ xs -> exists y, f x = Ok y) -> exists ys, mapM f xs = Ok ys.
Proof.
  induction xs as [|x xs IH]; intros Hf; simpl; [by eexists|].
  destruct (Hf x) as [y ->]; [by left|]. cbn [bind].
  destruct IH as [ys ->]; [|by eexists].
  intros x' Hx'. apply Hf. by right.
Qed.

Section EllipsoidFacts.
Context {F : Type} `{Num F} `{Sqrt F}.
Variable calculate_ellipse_radii : F -> F -> F -> ellipse_radii F.
Variables check_in_ellipsoid check_on_ellipsoid : F -> F -> F -> F -> F -> F -> bool.

#[local] Abbreviation count_of := (corner_count check_in_ellipsoid check_on_ellipsoid).
#[local] Abbreviation in_or_on := (corner_in_or_on check_in_ellipsoid check_on_ellipsoid).

Lemma length_np_linspace (start stop : F) (num : nat) :
  length (np_linspace start stop num) = num.
Proof.
  unfold np_linspace. destruct (decide (1 < num));
    by rewrite ?length_insert, length_map, length_seq.
Qed.

Lemma wf_mesh_corner (mesh : rectangular_mesh F) (ne k : nat) :
  wf_mesh mesh = true -> ne < length (mesh_elems mesh) -> 1 <= k <= 8 ->
  exists x y z,
    corner_point mesh ne k = Some (x, y, z)
    /\ corner_coord mesh ne k 0 = Ok x
    /\ corner_coord mesh ne k 1 = Ok y
    /\ corner_coord mesh ne k 2 = Ok z.
Proof.
  unfold wf_mesh. rewrite andb_true_iff, forallb_forall. intros [_ Hcells] Hne Hk.
  destruct (lookup_lt_is_Some_2 (mesh_elems mesh) ne Hne) as [row Hrow].
  assert (Hcell : wf_cell (mesh_nodes mesh) row = true).
  { apply Hcells, list_elem_of_In, list_elem_of_lookup. by exists ne. }
  unfold wf_cell in Hcell. rewrite forallb_forall in Hcell.
  specialize (Hcell k). rewrite in_seq in Hcell.
  destruct (row !! k) as [n|] eqn:Hn; [|by (assert (false = true) by (apply Hcell; lia))].
  destruct (mesh_nodes mesh !! n) as [p|] eqn:Hp;
    [|by (assert (false = true) by (apply Hcell; lia))].
  assert (Hlen : 3 <= length p) by (eapply bool_decide_eq_true_1, Hcell; lia).
  destruct (lookup_lt_is_Some_2 p 0) as [x Hx]; [lia|].
  destruct (lookup_lt_is_Some_2 p 1) as [y Hy]; [lia|].
  destruct (lookup_lt_is_Some_2 p 2) as [z Hz]; [lia|].
  exists x, y, z. unfold corner_point, corner_coord.
  rewrite Hrow. simpl. rewrite Hn. simpl. rewrite Hp. simpl.
  rewrite Hx, Hy, Hz. simpl.
  rewrite !(proj2 (get_ok _ _ _) Hrow). cbn [bind].
  rewrite !(proj2 (get_ok _ _ _) Hn). cbn [bind].
  rewrite !(proj2 (get_ok _ _ _) Hp). cbn [bind].
  repeat split; by apply get_ok.
Qed.

Lemma corner_body_step (mesh : rectangular_mesh F) (radii : ellipse_radii F)
    (ne nod cnt : nat) (nir : list nat) :
  wf_mesh mesh = true -> ne < length (mesh_elems mesh) -> 1 <= nod <= 8 ->
  length nir = 8 ->
  exists nir',
    corner_body check_in_ellipsoid check_on_ellipsoid mesh radii ne nod (cnt, nir)
    = Ok (if in_or_on mesh radii ne nod then cnt + 1 else cnt, nir')
    /\ length nir' = 8.
Proof.
  intros Hwf Hne Hnod Hnir.
  destruct (wf_mesh_corner mesh ne nod Hwf Hne Hnod) as (x & y & z & Hp & Hx & Hy & Hz).
  unfold corner_body, corner_in_or_on. rewrite Hx, Hy, Hz, Hp. cbn [bind].
  destruct (_ || _).
  - rewrite set_lt by lia. cbn [bind]. eexists. split; [reflexivity|].
    by rewrite length_insert.
  - by exists nir.
Qed.

Lemma count_corners_spec (mesh : rectangular_mesh F) (radii : ellipse_radii F) (ne : nat) :
  wf_mesh mesh = true -> ne < length (mesh_elems mesh) ->
  exists nir,
    count_corners check_in_ellipsoid check_on_ellipsoid mesh radii ne
    = Ok (count_of mesh radii ne, nir).
Proof.
  intros Hwf Hne. unfold count_corners.
  destruct (for_loop_total
              (fun pre st =>
                 st.1 = length (filter (fun nod => in_or_on mesh radii ne nod = true) pre)
                 /\ length st.2 = 8)
              (seq 1 8) (corner_body check_in_ellipsoid check_on_ellipsoid mesh radii ne)
              (0, np_zeros 8)) as ([cnt nir] & Hrun & Hcnt & _).
  { by split. }
  { intros pre nod post [cnt nir] Hsplit [Hcnt Hnir]. simpl in Hcnt, Hnir.
    assert (Hnod : 1 <= nod <= 8).
    { assert (Hin : nod ∈ seq 1 8).
      { rewrite Hsplit. apply elem_of_app. right. by left. }
      apply elem_of_seq in Hin. lia. }
    destruct (corner_body_step mesh radii ne nod cnt nir Hwf Hne Hnod Hnir)
      as (nir' & -> & Hnir').
    eexists. split; [reflexivity|]. simpl. split; [|done].
    rewrite filter_app, filter_cons, filter_nil, length_app.
    destruct (in_or_on mesh radii ne nod).
    - rewrite decide_True by done. simpl. lia.
    - rewrite decide_False by done. simpl. lia. }
  simpl in Hcnt. exists nir. rewrite Hrun. by rewrite Hcnt.
Qed.

Lemma cell_quadrature_total (radii : ellipse_radii F) (num_test_points : nat)
    (startx endx starty endy startz endz : F) :
  exists v, cell_quadrature radii num_test_points startx endx starty endy startz endz
            = Ok v.
Proof.
  unfold cell_quadrature.
  set (xVector := np_linspace startx endx num_test_points).
  set (yVector := np_linspace starty endy num_test_points).
  set (zv := surface_heights radii xVector yVector startz endz).
  destruct (for_loop_total (fun _ inter => length inter = num_test_points)
              (range num_test_points)
              (fun i intermediate =>
                 col <- column zv i ;; set intermediate i (np_trapz col xVector))
              (np_fzeros num_test_points)) as (inter & -> & _); [| |by eexists].
  { apply length_replicate. }
  intros pre i post inter Hsplit Hlen.
  apply seq_split_at in Hsplit as (_ & _ & Hi).
  destruct (mapM_total (fun row : list F => get row i) zv) as [col Hcol].
  { intros row Hrow. unfold zv, surface_heights in Hrow.
    apply list_elem_of_In, in_map_iff in Hrow as (y & <- & _).
    destruct (get_lt (map
      (fun x =>
         let zv0 := fmul (fsquare (z_radius radii))
                      (fsub (fsub (of_Z 1) (fsquare (fdiv x (x_radius radii))))
                            (fsquare (fdiv y (y_radius radii)))) in
         let zv1 := if fleb zv0 (fsquare startz) then fsquare startz else zv0 in
         let zv2 := fsqrt zv1 in
         if fltb endz zv2 then endz else if fltb zv2 startz then startz else zv2)
      xVector) i) as (v & Hv & _); [|by exists v].
    rewrite length_map. unfold xVector. by rewrite length_np_linspace. }
  unfold column. rewrite Hcol. cbn [bind]. rewrite set_lt by lia.
  eexists. split; [reflexivity|]. by rewrite length_insert.
Qed.

(** One iteration of the loop over the cells: cell [ne] gets a volume, and
    is entered in the list of non-empty cells unless no corner is inside or
    on the ellipsoid. *)
Lemma cell_body_step (mesh : rectangular_mesh F) (radii : ellipse_radii F)
    (num_test_points ne : nat) (vol : list F) (loc : list nat) (cnt : nat) :
  wf_mesh mesh = true -> ne < length (mesh_elems mesh) ->
  ne < length vol -> cnt < length loc ->
  exists startx endx starty endy startz endz w,
    corner_coord mesh ne 1 0 = Ok startx /\ corner_coord mesh ne 8 0 = Ok endx
    /\ corner_coord mesh ne 1 1 = Ok starty /\ corner_coord mesh ne 8 1 = Ok endy
    /\ corner_coord mesh ne 1 2 = Ok startz /\ corner_coord mesh ne 8 2 = Ok endz
    /\ cell_body check_in_ellipsoid check_on_ellipsoid mesh radii num_test_points ne
         (vol, loc, cnt)
       = Ok (<[ne:=w]> vol,
             if decide (count_of mesh radii ne = 0) then loc else <[cnt:=ne]> loc,
             if decide (count_of mesh radii ne = 0) then cnt else cnt + 1)
    /\ (count_of mesh radii ne = 8 ->
        w = fmul (fmul (fsub endx startx) (fsub endy starty)) (fsub endz startz))
    /\ (count_of mesh radii ne = 0 -> w = fzero).
Proof.
  intros Hwf Hne Hvol Hloc.
  destruct (wf_mesh_corner mesh ne 1 Hwf Hne) as (sx & sy & sz & _ & Hsx & Hsy & Hsz);
    [lia|].
  destruct (wf_mesh_corner mesh ne 8 Hwf Hne) as (ex & ey & ez & _ & Hex & Hey & Hez);
    [lia|].
  destruct (count_corners_spec mesh radii ne Hwf Hne) as [nir Hcount].
  exists sx, ex, sy, ey, sz, ez. unfold cell_body.
  rewrite Hsx, Hex, Hsy, Hey, Hsz, Hez, Hcount. cbn [bind].
  assert (Hdone : forall w : F,
            (count_of mesh radii ne = 8 ->
             w = fmul (fmul (fsub ex sx) (fsub ey sy)) (fsub ez sz)) ->
            (count_of mesh radii ne = 0 -> w = fzero) ->
            forall m, m = Ok (<[ne:=w]> vol,
                        if decide (count_of mesh radii ne = 0) then loc else <[cnt:=ne]> loc,
                        if decide (count_of mesh radii ne = 0) then cnt else cnt + 1) ->
            exists w',
              Ok sx = Ok sx /\ Ok ex = Ok ex /\ Ok sy = Ok sy /\ Ok ey = Ok ey
              /\ Ok sz = Ok sz /\ Ok ez = Ok ez
              /\ m = Ok (<[ne:=w']> vol,
                     if decide (count_of mesh radii ne = 0) then loc else <[cnt:=ne]> loc,
                     if decide (count_of mesh radii ne = 0) then cnt else cnt + 1)
              /\ (count_of mesh radii ne = 8 ->
                  w' = fmul (fmul (fsub ex sx) (fsub ey sy)) (fsub ez sz))
              /\ (count_of mesh radii ne = 0 -> w' = fzero)).
  { intros w G8 G0 m ->. exists w. by repeat (split; [done|]). }
  destruct (decide (count_of mesh radii ne = 8)) as [E8|E8].
  - do 2 run_set. eapply Hdone; [reflexivity | intros; lia |].
    by rewrite !decide_False by lia.
  - destruct (decide (count_of mesh radii ne = 0)) as [E0|E0].
    + run_set. by eapply (Hdone fzero).
    + run_set.
      destruct (fltb sz fzero && fleb ez fzero); [|destruct (fltb sz fzero && fltb fzero ez)].
      * destruct (cell_quadrature_total radii num_test_points sx ex sy ey
                    (fabs ez) (fabs sz)) as [v ->].
        cbn [bind]. run_set. by eapply (Hdone v).
      * destruct (cell_quadrature_total radii num_test_points sx ex sy ey
                    fzero (fabs sz)) as [v ->].
        destruct (cell_quadrature_total radii num_test_points sx ex sy ey
                    fzero ez) as [v2 ->].
        cbn [bind]. run_set.
        rewrite (proj2 (get_ok _ _ _) (list_lookup_insert_eq vol ne v Hvol)).
        cbn [bind]. run_set. rewrite list_insert_insert_eq.
        by eapply (Hdone (fadd v v2)).
      * destruct (cell_quadrature_total radii num_test_points sx ex sy ey sz ez)
          as [v ->].
        cbn [bind]. run_set. by eapply (Hdone v).
Qed.

(** The state of the loop over the cells after the cells [pre]. *)
Definition volume_inv (mesh : rectangular_mesh F) (radii : ellipse_radii F)
    (pre : list nat) (st : list F * list nat * nat) : Prop :=
  let '(vol, loc, cnt) := st in
  let non_empty := filter (fun ne => count_of mesh radii ne <> 0) pre in
  length vol = mesh_total_elems mesh
  /\ length loc = mesh_total_elems mesh
  /\ cnt = length non_empty
  /\ take cnt loc = non_empty
  /\ forall ne, ne ∈ pre ->
       exists startx endx starty endy startz endz,
         corner_coord mesh ne 1 0 = Ok startx /\ corner_coord mesh ne 8 0 = Ok endx
         /\ corner_coord mesh ne 1 1 = Ok starty /\ corner_coord mesh ne 8 1 = Ok endy
         /\ corner_coord mesh ne 1 2 = Ok startz /\ corner_coord mesh ne 8 2 = Ok endz
         /\ (count_of mesh radii ne = 8 ->
             vol !! ne
             = Some (fmul (fmul (fsub endx startx) (fsub endy starty)) (fsub endz startz)))
         /\ (count_of mesh radii ne = 0 -> vol !! ne = Some fzero).

Lemma volume_inv_step (mesh : rectangular_mesh F) (radii : ellipse_radii F)
    (num_test_points : nat) (pre post : list nat) (ne : nat)
    (st : list F * list nat * nat) :
  wf_mesh mesh = true ->
  seq 0 (length (mesh_elems mesh)) = pre ++ ne :: post ->
  volume_inv mesh radii pre st ->
  exists st',
    cell_body check_in_ellipsoid check_on_ellipsoid mesh radii num_test_points ne st
    = Ok st'
    /\ volume_inv mesh radii (pre ++ [ne]) st'.
Proof.
  intros Hwf Hsplit. destruct st as [[vol loc] cnt].
  intros (Hvol & Hloc & Hcnt & Htake & Hcells).
  destruct (seq_split_at _ _ _ _ Hsplit) as (Hpre & Hlen & Hne).
  assert (Htotal : length (mesh_elems mesh) <= mesh_total_elems mesh).
  { unfold wf_mesh in Hwf. apply andb_true_iff in Hwf as [Hle _].
    by apply bool_decide_eq_true_1 in Hle. }
  assert (Hfound : cnt <= ne).
  { rewrite Hcnt, Hlen. apply length_filter. }
  destruct (cell_body_step mesh radii num_test_points ne vol loc cnt)
    as (sx & ex & sy & ey & sz & ez & w & Hsx & Hex & Hsy & Hey & Hsz & Hez
        & Hrun & G8' & G0'); [done | done | lia | lia |].
  rewrite Hrun. eexists. split; [reflexivity|].
  unfold volume_inv. rewrite filter_app, filter_cons, filter_nil.
  split; [by rewrite length_insert|].
  assert (Hcell : forall ne', ne' ∈ pre ++ [ne] ->
    exists startx endx starty endy startz endz,
      corner_coord mesh ne' 1 0 = Ok startx /\ corner_coord mesh ne' 8 0 = Ok endx
      /\ corner_coord mesh ne' 1 1 = Ok starty /\ corner_coord mesh ne' 8 1 = Ok endy
      /\ corner_coord mesh ne' 1 2 = Ok startz /\ corner_coord mesh ne' 8 2 = Ok endz
      /\ (count_of mesh radii ne' = 8 ->
          <[ne:=w]> vol !! ne'
          = Some (fmul (fmul (fsub endx startx) (fsub endy starty)) (fsub endz startz)))
      /\ (count_of mesh radii ne' = 0 -> <[ne:=w]> vol !! ne' = Some fzero)).
  { intros ne' [Hin|Hin]%elem_of_app.
    - destruct (Hcells ne' Hin) as (sx' & ex' & sy' & ey' & sz' & ez' & E1 & E2 & E3
                                    & E4 & E5 & E6 & G8 & G0).
      assert (Hneq : ne <> ne').
      { rewrite Hpre in Hin. apply elem_of_seq in Hin. lia. }
      exists sx', ex', sy', ey', sz', ez'.
      rewrite list_lookup_insert_ne by done. by repeat split.
    - apply list_elem_of_singleton in Hin as ->.
      exists sx, ex, sy, ey, sz, ez.
      rewrite list_lookup_insert_eq by lia.
      repeat split; try done.
      + intros E. by rewrite (G8' E).
      + intros E. by rewrite (G0' E). }
  destruct (decide (count_of mesh radii ne = 0)) as [E0|E0].
  - rewrite decide_False by (intros E; by apply E).
    rewrite app_nil_r. by repeat split.
  - rewrite decide_True by done. rewrite length_insert, length_app. simpl.
    replace (cnt + 1) with (S cnt) by lia.
    rewrite (take_S_r _ cnt ne) by (apply list_lookup_insert_eq; lia).
    rewrite take_insert_ge by lia.
    repeat split; [done | lia | by rewrite Htake | done].
Qed.

(** What [ellipse_volume_to_grid] returns on a mesh it can index: the
    cells with a corner inside or on the ellipsoid, in order, as the
    non-empty cells; the cuboid volume for a cell with all eight corners
    inside or on; zero for a cell with none. *)
Lemma ellipse_volume_to_grid_spec (mesh : rectangular_mesh F)
    (volume thickness ellipticity : F) (num_test_points : nat) :
  wf_mesh mesh = true ->
  let radii := calculate_ellipse_radii volume thickness ellipticity in
  exists r,
    ellipse_volume_to_grid calculate_ellipse_radii check_in_ellipsoid check_on_ellipsoid
      mesh volume thickness ellipticity num_test_points = Ok r
    /\ length (pl_vol_in_grid r) = mesh_total_elems mesh
    /\ non_empty_rects r
       = filter (fun ne => count_of mesh radii ne <> 0) (seq 0 (length (mesh_elems mesh)))
    /\ forall ne, ne < length (mesh_elems mesh) ->
         exists startx endx starty endy startz endz,
           corner_coord mesh ne 1 0 = Ok startx /\ corner_coord mesh ne 8 0 = Ok endx
           /\ corner_coord mesh ne 1 1 = Ok starty /\ corner_coord mesh ne 8 1 = Ok endy
           /\ corner_coord mesh ne 1 2 = Ok startz /\ corner_coord mesh ne 8 2 = Ok endz
           /\ (count_of mesh radii ne = 8 ->
               pl_vol_in_grid r !! ne
               = Some (fmul (fmul (fsub endx startx) (fsub endy starty))
                            (fsub endz startz)))
           /\ (count_of mesh radii ne = 0 -> pl_vol_in_grid r !! ne = Some fzero).
Proof.
  intros Hwf radii. unfold ellipse_volume_to_grid. fold radii.
  destruct (for_loop_total (volume_inv mesh radii) (range (length (mesh_elems mesh)))
              (cell_body check_in_ellipsoid check_on_ellipsoid mesh radii num_test_points)
              (np_fzeros (mesh_total_elems mesh), np_zeros (mesh_total_elems mesh), 0))
    as ([[vol loc] cnt] & -> & Hvol & Hloc & Hcnt & Htake & Hcells).
  { unfold volume_inv, np_fzeros, np_zeros. rewrite !length_replicate.
    split_and!; [done | done | done | done |].
    intros ne Hin. by apply elem_of_nil in Hin. }
  { intros pre ne post st Hsplit Hinv.
    by apply (volume_inv_step mesh radii num_test_points pre post). }
  cbn [bind]. unfold range in Hcnt, Htake, Hcells.
  assert (Hle : cnt <= length loc).
  { assert (Hle' : length (take cnt loc) = cnt) by (by rewrite Htake).
    rewrite length_take in Hle'. lia. }
  eexists. split; [reflexivity|]. simpl.
  rewrite np_resize_take by done.
  split_and!; [done | done |].
  intros ne Hne. apply Hcells, elem_of_seq. lia.
Qed.
End EllipsoidFacts.

Lemma filter_all {A : Type} (P : A -> Prop) `{!forall x, Decision (P x)} (l : list A) :
  (forall x, x ∈ l -> P x) -> filter P l = l.
Proof.
  induction l as [|x l IH]; intros Hall; [done|].
  rewrite filter_cons, decide_True by (apply Hall; by left).
  f_equal. apply IH. intros y Hy. apply Hall. by right.
Qed.

Lemma filter_none {A : Type} (P : A -> Prop) `{!forall x, Decision (P x)} (l : list A) :
  (forall x, x ∈ l -> ~ P x) -> filter P l = [].
Proof.
  induction l as [|x l IH]; intros Hnone; [done|].
  rewrite filter_cons, decide_False by (apply Hnone; by left).
  apply IH. intros y Hy. apply Hnone. by right.
Qed.

Section CornerCountFacts.
Context {F : Type}.
Variables check_in_ellipsoid check_on_ellipsoid : F -> F -> F -> F -> F -> F -> bool.

Lemma corner_count_all (mesh : rectangular_mesh F) (radii : ellipse_radii F) (ne : nat) :
  (forall nod, 1 <= nod <= 8 ->
     corner_in_or_on check_in_ellipsoid check_on_ellipsoid mesh radii ne nod = true) ->
  corner_count check_in_ellipsoid check_on_ellipsoid mesh radii ne = 8.
Proof.
  intros Hall. unfold corner_count. rewrite filter_all; [done|].
  intros nod Hnod%elem_of_seq. apply Hall. lia.
Qed.

Lemma corner_count_none (mesh : rectangular_mesh F) (radii : ellipse_radii F) (ne : nat) :
  (forall nod, 1 <= nod <= 8 ->
     corner_in_or_on check_in_ellipsoid check_on_ellipsoid mesh radii ne nod = false) ->
  corner_count check_in_ellipsoid check_on_ellipsoid mesh radii ne = 0.
Proof.
  intros Hnone. unfold corner_count. rewrite filter_none; [done|].
  intros nod Hnod%elem_of_seq. rewrite Hnone by lia. discriminate.
Qed.
End CornerCountFacts.

(** C5: in the result of [ellipse_volume_to_grid], a cell with all eight
    corners inside or on the ellipsoid has the volume
    (endx - startx) * (endy - starty) * (endz - startz) of the cuboid, and a
    cell with no corner inside or on the ellipsoid has volume 0. *)
Theorem full_and_empty_cell_volume {F : Type} `{Num F} `{Sqrt F}
    (calculate_ellipse_radii : F -> F -> F -> ellipse_radii F)
    (check_in_ellipsoid check_on_ellipsoid : F -> F -> F -> F -> F -> F -> bool)
    (mesh : rectangular_mesh F) (volume thickness ellipticity : F)
    (num_test_points : nat) :
  wf_mesh mesh = true ->
  let radii := calculate_ellipse_radii volume thickness ellipticity in
  exists r,
    ellipse_volume_to_grid calculate_ellipse_radii check_in_ellipsoid check_on_ellipsoid
      mesh volume thickness ellipticity num_test_points = Ok r
    /\ forall ne, ne < length (mesh_elems mesh) ->
         exists startx endx starty endy startz endz,
           corner_coord mesh ne 1 0 = Ok startx /\ corner_coord mesh ne 8 0 = Ok endx
           /\ corner_coord mesh ne 1 1 = Ok starty /\ corner_coord mesh ne 8 1 = Ok endy
           /\ corner_coord mesh ne 1 2 = Ok startz /\ corner_coord mesh ne 8 2 = Ok endz
           /\ ((forall nod, 1 <= nod <= 8 ->
                  corner_in_or_on check_in_ellipsoid check_on_ellipsoid
                    mesh radii ne nod = true) ->
               pl_vol_in_grid r !! ne
               = Some (fmul (fmul (fsub endx startx) (fsub endy starty))
                            (fsub endz startz)))
           /\ ((forall nod, 1 <= nod <= 8 ->
                  corner_in_or_on check_in_ellipsoid check_on_ellipsoid
                    mesh radii ne nod = false) ->
               pl_vol_in_grid r !! ne = Some fzero).
Proof.
  intros Hwf radii.
  destruct (ellipse_volume_to_grid_spec calculate_ellipse_radii check_in_ellipsoid
              check_on_ellipsoid mesh volume thickness ellipticity num_test_points Hwf)
    as (r & Hrun & _ & _ & Hcells).
  exists r. split; [exact Hrun|].
  intros ne Hne.
  destruct (Hcells ne Hne) as (sx & ex & sy & ey & sz & ez & E1 & E2 & E3 & E4 & E5 & E6
                               & G8 & G0).
  exists sx, ex, sy, ey, sz, ez. split_and!; try done.
  - intros Hall. by apply G8, corner_count_all.
  - intros Hnone. by apply G0, corner_count_none.
Qed.

(** The row of three cells, in binary64 and with the unit ball, is such an
    input. *)
Lemma full_and_empty_cell_volume_row_mesh :
  exists r,
    ellipse_volume_to_grid unit_radii check_in_ellipsoid_model check_on_ellipsoid_model
      row_mesh 1%float 1%float 1%float 5 = Ok r
    /\ forall ne, ne < length (mesh_elems row_mesh) ->
         exists startx endx starty endy startz endz,
           corner_coord row_mesh ne 1 0 = Ok startx
           /\ corner_coord row_mesh ne 8 0 = Ok endx
           /\ corner_coord row_mesh ne 1 1 = Ok starty
           /\ corner_coord row_mesh ne 8 1 = Ok endy
           /\ corner_coord row_mesh ne 1 2 = Ok startz
           /\ corner_coord row_mesh ne 8 2 = Ok endz
           /\ ((forall nod, 1 <= nod <= 8 ->
                  corner_in_or_on check_in_ellipsoid_model check_on_ellipsoid_model
                    row_mesh (unit_radii 1 1 1) ne nod = true) ->
               pl_vol_in_grid r !! ne
               = Some (fmul (fmul (fsub endx startx) (fsub endy starty))
                            (fsub endz startz)))
           /\ ((forall nod, 1 <= nod <= 8 ->
                  corner_in_or_on check_in_ellipsoid_model check_on_ellipsoid_model
                    row_mesh (unit_radii 1 1 1) ne nod = false) ->
               pl_vol_in_grid r !! ne = Some fzero).
Proof.
  apply (full_and_empty_cell_volume unit_radii check_in_ellipsoid_model
           check_on_ellipsoid_model row_mesh 1%float 1%float 1%float 5).
  vm_compute. reflexivity.
Defined.

Example row_mesh_volumes :
  ellipse_volume_to_grid unit_radii check_in_ellipsoid_model check_on_ellipsoid_model
    row_mesh 1%float 1%float 1%float 5
  = Ok {| pl_vol_in_grid := [0%float; 0.078125%float; 0.25%float];
          non_empty_rects := [1; 2] |}.
Proof. vm_compute. reflexivity. Qed.

(** C6, as stated, fails: for the single cell from (-2, -2, -2) to
    (2, 2, 2), which holds the unit ball, [ellipse_volume_to_grid] returns
    no non-empty cell and the volume 0. *)
Lemma box_mesh_is_empty :
  length (mesh_elems box_mesh) = 1
  /\ ellipse_volume_to_grid unit_radii check_in_ellipsoid_model check_on_ellipsoid_model
       box_mesh 1%float 1%float 1%float 50
     = Ok {| pl_vol_in_grid := [0%float]; non_empty_rects := [] |}.
Proof. split; vm_compute; reflexivity. Qed.

(** C6, amended: a grid of a single cell none of whose eight corners is
    inside or on the ellipsoid (as for a cell whose box holds the
    ellipsoid) yields no non-empty cell, and volume 0 for the cell. *)
Theorem single_outer_cell_is_empty {F : Type} `{Num F} `{Sqrt F}
    (calculate_ellipse_radii : F -> F -> F -> ellipse_radii F)
    (check_in_ellipsoid check_on_ellipsoid : F -> F -> F -> F -> F -> F -> bool)
    (mesh : rectangular_mesh F) (volume thickness ellipticity : F)
    (num_test_points : nat) :
  wf_mesh mesh = true ->
  length (mesh_elems mesh) = 1 ->
  (forall nod, 1 <= nod <= 8 ->
     corner_in_or_on check_in_ellipsoid check_on_ellipsoid mesh
       (calculate_ellipse_radii volume thickness ellipticity) 0 nod = false) ->
  exists r,
    ellipse_volume_to_grid calculate_ellipse_radii check_in_ellipsoid check_on_ellipsoid
      mesh volume thickness ellipticity num_test_points = Ok r
    /\ non_empty_rects r = []
    /\ pl_vol_in_grid r !! 0 = Some fzero.
Proof.
  intros Hwf Hone Hnone.
  destruct (ellipse_volume_to_grid_spec calculate_ellipse_radii check_in_ellipsoid
              check_on_ellipsoid mesh volume thickness ellipticity num_test_points Hwf)
    as (r & Hrun & _ & Hloc & Hcells).
  pose proof (corner_count_none _ _ _ _ _ Hnone) as Hcount.
  exists r. split; [exact Hrun|]. split.
  - rewrite Hloc, Hone. simpl. rewrite filter_cons, decide_False; [done|].
    intros Hne. by apply Hne.
  - destruct (Hcells 0) as (sx & ex & sy & ey & sz & ez & _ & _ & _ & _ & _ & _ & _ & G0);
      [lia|].
    by apply G0.
Qed.

(** The cell that holds the unit ball is such an input. *)
Lemma single_outer_cell_is_empty_box_mesh :
  exists r,
    ellipse_volume_to_grid unit_radii check_in_ellipsoid_model check_on_ellipsoid_model
      box_mesh 1%float 1%float 1%float 50 = Ok r
    /\ non_empty_rects r = []
    /\ pl_vol_in_grid r !! 0 = Some fzero.
Proof.
  apply (single_outer_cell_is_empty unit_radii check_in_ellipsoid_model
           check_on_ellipsoid_model box_mesh 1%float 1%float 1%float 50).
  - vm_compute. reflexivity.
  - reflexivity.
  - intros nod Hnod.
    destruct nod as [|[|[|[|[|[|[|[|[|nod]]]]]]]]]; try lia; vm_compute; reflexivity.
Defined.

(** ** The fallback scan [terminals_in_sampling_grid] *)

Lemma sum_list_insert (l : list nat) (i x y : nat) :
  l !! i = Some x -> sum_list (<[i:=y]> l) + x = sum_list l + y.
Proof.
  revert i. induction l as [|a l IH]; intros i Hi; [done|].
  destruct i as [|i]; simpl in *.
  - injection Hi as ->. lia.
  - specialize (IH i Hi). lia.
Qed.

Lemma sum_list_indicator (Q : nat -> Prop) `{!forall x, Decision (Q x)}
    (l : list nat) (n : nat) :
  length l = n ->
  (forall i, i < n -> l !! i = Some (if decide (Q i) then 1 else 0)) ->
  sum_list l = length (filter Q (seq 0 n)).
Proof.
  intros Hlen Hl.
  assert (Heq : l = map (fun i => if decide (Q i) then 1 else 0) (seq 0 n)).
  { apply list_eq. intros i. destruct (decide (i < n)) as [Hi|Hi].
    - rewrite Hl by done. symmetry. rewrite list_lookup_fmap.
      by rewrite lookup_seq_lt.
    - rewrite !lookup_ge_None_2; [done | | lia].
      rewrite length_map, length_seq. lia. }
  rewrite Heq. clear.
  assert (Hgen : forall j,
            sum_list (map (fun i => if decide (Q i) then 1 else 0) (seq j n))
            = length (filter Q (seq j n))); [|apply Hgen].
  induction n as [|n IH]; intros j; simpl; [done|].
  rewrite filter_cons. destruct (decide (Q j)); simpl; by rewrite IH.
Qed.

Section ScanFacts.
Context {F : Type} `{Num F}.
Variables (mesh : rectangular_mesh F) (tl : terminal_list) (node_loc : list (list F)).

#[local] Abbreviation hit := (in_listed_cell mesh tl node_loc).
#[local] Abbreviation mark := (fun cells nt => if decide (hit cells nt) then 1 else 0).

Lemma hit_snoc (cells : list nat) (ne nt : nat) :
  hit (cells ++ [ne]) nt
  <-> hit cells nt \/ (0 < ne /\ terminal_in_cell mesh tl node_loc ne nt = true).
Proof.
  unfold in_listed_cell. rewrite Exists_app, Exists_cons, Exists_nil. tauto.
Qed.

(** The state of the inner loop, for the cell [ne] after the cells
    [cells], when the terminals below [j] have been visited. *)
Definition scan_inv (cells : list nat) (ne j : nat)
    (st : list nat * list nat * list nat) : Prop :=
  let '(grid, mapped, telems) := st in
  length mapped = total_terminals tl
  /\ (forall nt, nt < total_terminals tl ->
        mapped !! nt = Some (if decide (nt < j) then mark (cells ++ [ne]) nt
                             else mark cells nt))
  /\ sum_list grid = sum_list mapped
  /\ (forall c, grid !! 0 = Some c -> c = 0).

Lemma scan_terminal_step (cells : list nat) (ne : nat) (min_coords max_coords : list F)
    (nt : nat) (st st' : list nat * list nat * list nat) :
  0 < ne ->
  corner mesh ne 1 = Ok min_coords -> corner mesh ne 8 = Ok max_coords ->
  nt < total_terminals tl ->
  scan_inv cells ne nt st ->
  scan_terminal tl node_loc ne min_coords max_coords nt st = Ok st' ->
  scan_inv cells ne (S nt) st'.
Proof.
  intros Hne Hlo Hhi Hnt. destruct st as [[grid mapped] telems].
  intros (Hlen & Hmap & Hsum & Hzero) Hrun.
  unfold scan_terminal in Hrun.
  apply bind_ok in Hrun as (m & Hm%get_ok & Hrun).
  pose proof (Hmap nt Hnt) as Hcur. rewrite decide_False in Hcur by lia.
  rewrite Hm in Hcur. injection Hcur as Hcur.
  assert (Hkeep : (hit cells nt <-> hit (cells ++ [ne]) nt) ->
                  scan_inv cells ne (S nt) (grid, mapped, telems)).
  { intros Hsame. split_and!; try done.
    intros nt' Hnt'. rewrite (Hmap nt' Hnt').
    destruct (decide (nt' < nt)), (decide (nt' < S nt)); try done; try lia.
    assert (nt' = nt) as -> by lia. f_equal.
    destruct (decide (hit cells nt)), (decide (hit (cells ++ [ne]) nt)); tauto. }
  destruct (decide (m = 0)) as [->|Hm0].
  - assert (Hfresh : ~ hit cells nt).
    { intros Hhit. by rewrite decide_True in Hcur by done. }
    apply bind_ok in Hrun as (coord & Hcoord & Hrun).
    apply bind_ok in Hrun as (b & Hbox & Hrun).
    assert (Hcell : terminal_in_cell mesh tl node_loc ne nt = b).
    { unfold terminal_in_cell. by rewrite Hlo, Hhi, Hcoord, Hbox. }
    destruct b.
    + apply bind_ok in Hrun as (c & Hc%get_ok & Hrun).
      apply bind_ok in Hrun as (grid' & [Hne' ->]%set_ok & Hrun).
      apply bind_ok in Hrun as (mapped' & [Hnt' ->]%set_ok & Hrun).
      apply bind_ok in Hrun as (telems' & _ & Hrun).
      injection Hrun as <-.
      assert (Hnow : hit (cells ++ [ne]) nt) by (apply hit_snoc; by right).
      split_and!.
      * by rewrite length_insert.
      * intros nt' Hlt. destruct (decide (nt' = nt)) as [->|Hneq].
        -- rewrite list_lookup_insert_eq by lia.
           by rewrite decide_True, decide_True by (done || lia).
        -- rewrite list_lookup_insert_ne by done. rewrite (Hmap nt' Hlt).
           destruct (decide (nt' < nt)), (decide (nt' < S nt)); try done; lia.
      * pose proof (sum_list_insert grid ne c (c + 1) Hc).
        pose proof (sum_list_insert mapped nt 0 1 Hm). lia.
      * intros c0. rewrite list_lookup_insert_ne by lia. apply Hzero.
    + injection Hrun as <-. apply Hkeep. rewrite hit_snoc.
      split; [by left|]. intros [Hold|[_ Hin]]; [done | congruence].
  - injection Hrun as <-. apply Hkeep. rewrite hit_snoc.
    split; [by left|]. intros _.
    destruct (decide (hit cells nt)); [done | congruence].
Qed.

(** The state of the outer loop after the cells [cells]. *)
Definition cells_inv (cells : list nat) (st : list nat * list nat * list nat) : Prop :=
  let '(grid, mapped, telems) := st in
  length mapped = total_terminals tl
  /\ (forall nt, nt < total_terminals tl -> mapped !! nt = Some (mark cells nt))
  /\ sum_list grid = sum_list mapped
  /\ (forall c, grid !! 0 = Some c -> c = 0).

Lemma scan_cell_step (placenta_list : list nat) (ne_i : nat)
    (st st' : list nat * list nat * list nat) :
  ne_i < length placenta_list ->
  cells_inv (take ne_i placenta_list) st ->
  scan_cell mesh placenta_list tl node_loc ne_i st = Ok st' ->
  cells_inv (take (S ne_i) placenta_list) st'.
Proof.
  intros Hi Hinv Hrun. unfold scan_cell in Hrun.
  apply bind_ok in Hrun as (ne & Hne%get_ok & Hrun).
  rewrite (take_S_r _ _ _ Hne). set (cells := take ne_i placenta_list) in *.
  destruct (decide (0 < ne)) as [Hpos|Hpos].
  - apply bind_ok in Hrun as (min_coords & Hlo & Hrun).
    apply bind_ok in Hrun as (max_coords & Hhi & Hrun).
    pose proof (for_loop_partial
                  (fun pre st => scan_inv cells ne (length pre) st)
                  (range (total_terminals tl))
                  (scan_terminal tl node_loc ne min_coords max_coords) st st' Hrun)
      as Hloop.
    destruct st' as [[grid' mapped'] telems'].
    destruct Hloop as (Hlen & Hmap & Hsum & Hzero).
    + destruct st as [[grid mapped] telems].
      destruct Hinv as (Hlen & Hmap & Hsum & Hzero). by split_and!.
    + intros pre nt post s1 s2 Hsplit Hs1 Hbody.
      apply seq_split_at in Hsplit as (_ & -> & Hnt).
      rewrite length_app. simpl. replace (length pre + 1) with (S (length pre)) by lia.
      by apply (scan_terminal_step cells ne min_coords max_coords (length pre) s1).
    + unfold range in Hmap. rewrite length_seq in Hmap.
      split_and!; try done.
      intros nt Hnt. rewrite (Hmap nt Hnt). by rewrite decide_True.
  - injection Hrun as <-. destruct st as [[grid mapped] telems].
    destruct Hinv as (Hlen & Hmap & Hsum & Hzero). split_and!; try done.
    intros nt Hnt. rewrite (Hmap nt Hnt). f_equal.
    assert (Hsame : hit cells nt <-> hit (cells ++ [ne]) nt).
    { rewrite hit_snoc. split; [by left|]. intros [Hold|[Hlt _]]; [done | lia]. }
    destruct (decide (hit cells nt)), (decide (hit (cells ++ [ne]) nt)); tauto.
Qed.

(** C10: in every result of the fallback scan the counts add up to the
    number of terminals that lie in a listed cell other than cell 0, each
    counted once, hence to no more than [total_terminals]; the count of
    cell 0 is 0, for cell 0 is skipped even when listed; and a terminal
    that lies in no listed cell but cell 0 is not among those counted. *)
Theorem terminals_in_sampling_grid_spec (placenta_list : list nat) (r : grid_scan) :
  terminals_in_sampling_grid mesh placenta_list tl node_loc = Ok r ->
  sum_list (scan_terminals_in_grid r)
  = length (filter (hit placenta_list) (seq 0 (total_terminals tl)))
  /\ sum_list (scan_terminals_in_grid r) <= total_terminals tl
  /\ (forall c, scan_terminals_in_grid r !! 0 = Some c -> c = 0)
  /\ (forall nt,
        (forall ne, ne ∈ placenta_list ->
           terminal_in_cell mesh tl node_loc ne nt = true -> ne = 0) ->
        nt ∉ filter (hit placenta_list) (seq 0 (total_terminals tl))).
Proof.
  intros Hrun. unfold terminals_in_sampling_grid in Hrun.
  apply bind_ok in Hrun as ([[grid mapped] telems] & Hloop & Hr).
  injection Hr as <-. simpl.
  pose proof (for_loop_partial
                (fun pre st => cells_inv (take (length pre) placenta_list) st)
                (range (length placenta_list))
                (scan_cell mesh placenta_list tl node_loc) _ _ Hloop) as Hinv.
  destruct Hinv as (Hlen & Hmap & Hsum & Hzero).
  { simpl. unfold np_zeros. split_and!.
    - by rewrite length_replicate.
    - intros nt Hnt. by rewrite lookup_replicate_2.
    - rewrite !sum_list_replicate. lia.
    - intros c Hc. by apply lookup_replicate in Hc as [-> _]. }
  { intros pre ne_i post s1 s2 Hsplit Hs1 Hbody.
    apply seq_split_at in Hsplit as (_ & -> & Hlt).
    rewrite length_app. simpl. replace (length pre + 1) with (S (length pre)) by lia.
    by apply (scan_cell_step placenta_list (length pre) s1). }
  unfold range in Hmap. rewrite length_seq, firstn_all in Hmap.
  assert (Hcount : sum_list grid
                   = length (filter (hit placenta_list) (seq 0 (total_terminals tl)))).
  { rewrite Hsum. by apply sum_list_indicator. }
  split_and!.
  - exact Hcount.
  - rewrite Hcount. etrans; [apply length_filter|]. by rewrite length_seq.
  - exact Hzero.
  - intros nt Honly [Hhit _]%list_elem_of_filter.
    unfold in_listed_cell in Hhit. apply Exists_exists in Hhit as (ne & Hin & Hpos & Hcell).
    specialize (Honly ne Hin Hcell). lia.
Qed.
End ScanFacts.

(** Two unit cells and three terminals, two of them in cell 1 and one in
    cell 0, with both cells listed: the two are counted, the one is not. *)
Example pair_mesh_scan :
  terminals_in_sampling_grid pair_mesh [0; 1] pair_terminals pair_node_loc
  = Ok {| scan_terminals_in_grid := [0; 2]; scan_terminal_elems := [1; 1; 0] |}.
Proof. vm_compute. reflexivity. Qed.

Lemma terminals_in_sampling_grid_spec_pair_mesh :
  let r := {| scan_terminals_in_grid := [0; 2]; scan_terminal_elems := [1; 1; 0] |} in
  sum_list (scan_terminals_in_grid r)
  = length (filter (in_listed_cell pair_mesh pair_terminals pair_node_loc [0; 1])
                   (seq 0 (total_terminals pair_terminals)))
  /\ sum_list (scan_terminals_in_grid r) <= total_terminals pair_terminals
  /\ (forall c, scan_terminals_in_grid r !! 0 = Some c -> c = 0)
  /\ (forall nt,
        (forall ne, ne ∈ [0; 1] ->
           terminal_in_cell pair_mesh pair_terminals pair_node_loc ne nt = true -> ne = 0) ->
        nt ∉ filter (in_listed_cell pair_mesh pair_terminals pair_node_loc [0; 1])
                    (seq 0 (total_terminals pair_terminals))).
Proof.
  apply (terminals_in_sampling_grid_spec pair_mesh pair_terminals pair_node_loc [0; 1]).
  vm_compute. reflexivity.
Defined.

(** ** The grid indexer in exact arithmetic *)

Lemma Qfloor_unique (x : Q) (z : Z) :
  (inject_Z z <= x)%Q -> (x < inject_Z (z + 1))%Q -> Qfloor x = z.
Proof.
  intros Hlo Hhi.
  assert (Hge : (z <= Qfloor x)%Z).
  { rewrite <- (Qfloor_Z z). by apply Qfloor_resp_le. }
  assert (Hlt : (Qfloor x < z + 1)%Z).
  { rewrite Zlt_Qlt. eapply Qle_lt_trans; [apply Qfloor_le | exact Hhi]. }
  lia.
Qed.

Lemma Qtrunc_inject_Z (q : Q) (z : Z) :
  (q == inject_Z z)%Q -> Z.quot (Qnum q) (Zpos (Qden q)) = z.
Proof.
  unfold Qeq. simpl. intros Heq. rewrite Z.mul_1_r in Heq. rewrite Heq.
  by apply Z.quot_mul.
Qed.

Lemma uniform_axis_count (start side : Q) (n : nat) :
  (0 < side)%Q -> (uniform_axis start side n == inject_Z (Z.of_nat n))%Q.
Proof.
  intros Hside. unfold uniform_axis. simpl. field.
  intros Hz. rewrite Hz in Hside. by apply Qlt_irrefl in Hside.
Qed.

Lemma centre_floor (start side : Q) (k : nat) :
  (0 < side)%Q ->
  Qfloor (Qdiv (Qminus (centre start side k) start) side) = Z.of_nat k.
Proof.
  intros Hside.
  assert (Heq : (Qdiv (Qminus (centre start side k) start) side
                 == inject_Z (Z.of_nat k) + (1 # 2))%Q).
  { unfold centre. field.
    intros Hz. rewrite Hz in Hside. by apply Qlt_irrefl in Hside. }
  rewrite Heq. apply Qfloor_unique.
  - rewrite <- (Qplus_0_r (inject_Z (Z.of_nat k))) at 1.
    apply Qplus_le_r. discriminate.
  - rewrite inject_Z_plus. apply Qplus_lt_r. reflexivity.
Qed.

Lemma cell_number_split (nx ny i : nat) :
  i = i mod nx + (i / nx) mod ny * nx + i / (nx * ny) * (nx * ny).
Proof.
  pose proof (Nat.div_mod_eq i nx) as H1.
  pose proof (Nat.div_mod_eq (i / nx) ny) as H2.
  rewrite Nat.Div0.div_div in H2. nia.
Qed.

(** In exact arithmetic the computation is right: on a uniform grid with
    least corner [(ox, oy, oz)] and cells of size [dx] by [dy] by [dz], the
    index [floor_x + floor_y * nx + floor_z * (nx * ny)] computed for the
    centroid of cell [i] is [i]. *)
Lemma grid_index_roundtrip (ox oy oz dx dy dz : Q)
    (nx ny nz i : nat) :
  (0 < dx)%Q -> (0 < dy)%Q -> (0 < dz)%Q ->
  i < nx * ny * nz ->
  grid_elem_index (uniform_frame ox oy oz dx dy dz nx ny nz)
                  (cell_centroid ox oy oz dx dy dz nx ny i)
  = Ok (Z.of_nat i).
Proof.
  intros Hx Hy Hz Hi.
  unfold grid_elem_index, cell_centroid, uniform_frame, get.
  cbn [lookup list_lookup bind startx xside nelem_x starty yside nelem_y startz zside
       fadd fsub fmul fdiv ffloor ftrunc Q_num].
  rewrite !centre_floor by done. f_equal.
  apply Qtrunc_inject_Z.
  rewrite !uniform_axis_count by done.
  rewrite <- !inject_Z_mult, <- !inject_Z_plus.
  rewrite (cell_number_split nx ny i) at 4.
  rewrite !Nat2Z.inj_add, !Nat2Z.inj_mul. reflexivity.
Qed.

(** The grid of 2 by 3 by 2 cells of size 1/10 by 1 by 3 from
    (0, -1, 2), cell 7. *)
Lemma grid_index_roundtrip_example :
  grid_elem_index (uniform_frame 0 (-1) 2 (1 # 10) 1 3 2 3 2)
                  (cell_centroid 0 (-1) 2 (1 # 10) 1 3 2 3 7)
  = Ok 7%Z.
Proof.
  apply (grid_index_roundtrip 0 (-1) 2 (1 # 10) 1 3 2 3 2 7); try reflexivity. lia.
Defined.

(** [mesh_frame] reads that frame off a mesh, and the fast binner counts
    a terminal at the centroid of cell 1 in cell 1. *)
Example pair_mesh_Q_frame :
  mesh_frame pair_mesh_Q = Ok (uniform_frame 0 0 0 1 1 1 2 1 1).
Proof. vm_compute. reflexivity. Qed.

Example pair_mesh_Q_fast :
  terminals_in_sampling_grid_fast pair_mesh_Q
    {| terminal_elems := [0]; terminal_nodes := [0]; total_terminals := 1 |}
    [0%Q :: cell_centroid 0 0 0 1 1 1 2 1 1]
  = Ok {| terminals_in_grid := [0; 1]; grid_terminal_elems := [1%Z] |}.
Proof. vm_compute. reflexivity. Qed.

Example rect_mesh_pair :
  rect_mesh [0; 1; 2]%Q [0; 1]%Q [0; 1]%Q = pair_mesh_Q.
Proof. vm_compute. reflexivity. Qed.

(** ** The grid indexer in binary64 *)

(** On the grid of 5 by 2 by 1 cells the number of cells along x,
    [(endx - startx) / xside], is computed as a number below 5. *)
Example grid5_frame :
  exists g, mesh_frame grid5 = Ok g
            /\ PrimFloat.ltb (nelem_x g) 5 = true
            /\ nelem_y g = 2%float.
Proof. eexists. split; [vm_compute; reflexivity|]. split; vm_compute; reflexivity. Qed.

(** C9: the terminal at the centroid of cell 5 of that grid (the first
    cell of the second row) is counted in cell 4: [int] truncates
    [0 + 1 * nelem_x + 0], which is just below 5, so the round trip from a
    cell to its centroid and back to the cell fails. *)
Theorem centroid_of_cell_5_counted_in_cell_4 :
  exists c,
    centroid grid5 5 = Ok c
    /\ terminals_in_sampling_grid_fast grid5 one_terminal [0%float :: c]
       = Ok {| terminals_in_grid := [0; 0; 0; 0; 1; 0; 0; 0; 0; 0];
               grid_terminal_elems := [4%Z] |}.
Proof.
  eexists. split.
  - vm_compute. reflexivity.
  - vm_compute. reflexivity.
Qed.

(** * Further properties *)

(** ** The forward loop of [evaluate_orders] *)

Lemma generation_body_inv (elem_upstream elem_downstream : list (list nat))
    (ne : nat) (g g' : list nat) (m m' : nat) :
  generation_body elem_upstream elem_downstream ne (g, m) = Ok (g', m') ->
  g !! ne = Some 0 ->
  exists up ne0,
    elem_upstream !! ne = Some up /\ up !! 1 = Some ne0
    /\ ((ne0 = 0 /\ g' = <[ne:=1]> g)
        \/ (ne0 <> 0
            /\ exists g0 down0 c,
                 g !! ne0 = Some g0 /\ elem_downstream !! ne0 = Some down0
                 /\ down0 !! 0 = Some c
                 /\ g' = <[ne:=generation_step c g0]> g)).
Proof.
  intros Hrun Hzero. unfold generation_body in Hrun.
  apply bind_ok in Hrun as (up & Hup%get_ok & Hrun).
  apply bind_ok in Hrun as (ne0 & Hne0%get_ok & Hrun).
  apply bind_ok in Hrun as (g1 & Hg1 & Hrun).
  apply bind_ok in Hrun as (v & _ & Hrun). injection Hrun as <- _.
  exists up, ne0. split; [done|]. split; [done|].
  destruct (decide (ne0 <> 0)) as [Hnz|Hz].
  - right. split; [done|].
    apply bind_ok in Hg1 as (g0 & Hg0%get_ok & Hg1).
    apply bind_ok in Hg1 as (down0 & Hdown0%get_ok & Hg1).
    apply bind_ok in Hg1 as (c & Hc%get_ok & Hg1).
    exists g0, down0, c. split_and!; try done. unfold generation_step.
    destruct (decide (c = 1)); [|destruct (decide (2 <= c))].
    + by apply set_ok in Hg1 as [_ ->].
    + by apply set_ok in Hg1 as [_ ->].
    + injection Hg1 as <-. symmetry. by apply list_insert_id.
  - left. split; [lia|]. by apply set_ok in Hg1 as [_ ->].
Qed.

(** The state of the forward loop after the elements [pre]. *)
Definition generation_inv (n : nat) (conn : connectivity) (pre : list nat)
    (st : list nat * nat) : Prop :=
  length st.1 = n
  /\ (forall j, length pre <= j < n -> st.1 !! j = Some 0)
  /\ (forall j, j < length pre -> generation_rule conn st.1 j).

Lemma generation_inv_step (n : nat) (conn : connectivity) (pre post : list nat)
    (ne : nat) (st st' : list nat * nat) :
  seq 0 n = pre ++ ne :: post ->
  generation_inv n conn pre st ->
  generation_body (elem_up conn) (elem_down conn) ne st = Ok st' ->
  generation_inv n conn (pre ++ [ne]) st'.
Proof.
  intros Hsplit (Hlen & Hzero & Hrule) Hrun.
  destruct st as [g m], st' as [g' m']. simpl in *.
  apply seq_split_at in Hsplit as (_ & -> & Hne).
  destruct (generation_body_inv _ _ _ _ _ _ _ Hrun) as (up & ne0 & Hup & Hne0 & Hcase).
  { apply Hzero. lia. }
  assert (Hshape : exists v, g' = <[length pre:=v]> g).
  { destruct Hcase as [[_ ->]|(_ & g0 & down0 & c & _ & _ & _ & ->)]; by eexists. }
  destruct Hshape as [v Hshape].
  unfold generation_inv. rewrite length_app. simpl. split_and!.
  - rewrite Hshape. by rewrite length_insert.
  - intros j Hj. rewrite Hshape, list_lookup_insert_ne by lia. apply Hzero. lia.
  - intros j Hj. destruct (decide (j = length pre)) as [->|Hneq].
    + intros up' ne0' Hup' Hne0'. rewrite Hup in Hup'. injection Hup' as <-.
      rewrite Hne0 in Hne0'. injection Hne0' as <-.
      destruct Hcase as [[-> ->]|(Hnz & g0 & down0 & c & Hg0 & Hdown0 & Hc & ->)].
      * split; [|done]. intros _. apply list_lookup_insert_eq. lia.
      * split; [done|]. intros _ down0' c' Hdown0' Hc'.
        rewrite Hdown0 in Hdown0'. injection Hdown0' as <-.
        rewrite Hc in Hc'. injection Hc' as <-.
        split.
        -- intros Hlt g0'. rewrite list_lookup_insert_ne by lia.
           rewrite Hg0. intros [= <-]. apply list_lookup_insert_eq. lia.
        -- intros Hle.
           assert (Hinit : g !! ne0 = Some 0).
           { apply Hzero. split; [done|]. apply lookup_lt_Some in Hg0. lia. }
           rewrite Hg0 in Hinit. injection Hinit as ->.
           apply list_lookup_insert_eq. lia.
    + assert (Hlt : j < length pre) by lia.
      intros up' ne0' Hup' Hne0'.
      destruct (Hrule j Hlt up' ne0' Hup' Hne0') as [Hinlet Hnext].
      rewrite Hshape. split.
      * intros Hz. rewrite list_lookup_insert_ne by lia. by apply Hinlet.
      * intros Hnz down0' c' Hdown0' Hc'.
        destruct (Hnext Hnz down0' c' Hdown0' Hc') as [Hbefore Hafter].
        split.
        -- intros Hlt' g0'. rewrite !list_lookup_insert_ne by lia. by apply Hbefore.
        -- intros Hle. rewrite list_lookup_insert_ne by lia. by apply Hafter.
Qed.

(** The generation array [evaluate_orders] returns follows the rule of
    the forward loop at every element: 1 for an element whose upstream row
    has 0 in entry 1; the generation of the upstream element, or one more
    below a branching, when the upstream element has a smaller number; and
    the value computed from generation 0 when it has not. *)
Theorem generation_follows_rule (n : nat) (conn : connectivity) (r : orders) :
  evaluate_orders_conn n conn = Ok r ->
  forall ne, ne < n -> generation_rule conn (generation r) ne.
Proof.
  intros Hrun ne Hne. unfold evaluate_orders_conn in Hrun.
  apply bind_ok in Hrun as ([g m] & Hgen & Hrun).
  apply bind_ok in Hrun as ([h s] & _ & Hrun). injection Hrun as <-. simpl.
  pose proof (for_loop_partial (generation_inv n conn) (range n)
                (generation_body (elem_up conn) (elem_down conn)) _ _ Hgen) as Hinv.
  destruct Hinv as (_ & _ & Hrule).
  - unfold generation_inv. simpl. split_and!.
    + apply length_replicate.
    + intros j Hj. apply lookup_replicate_2. lia.
    + intros j Hj. lia.
  - intros pre x post s1 s2 Hsplit Hs1 Hbody.
    by apply (generation_inv_step n conn pre post x s1).
  - apply Hrule. unfold range. by rewrite length_seq.
Qed.

(** The tree of four elements, where the branching element is number 1,
    is an input on which [evaluate_orders] returns. *)
Lemma generation_follows_rule_tree4 :
  evaluate_orders_conn 4 (element_connectivity_1D tree4)
  = Ok {| strahler := [2; 2; 1; 1]; horsfield := [2; 2; 1; 1];
          generation := [1; 1; 2; 2] |}
  /\ forall ne, ne < 4 ->
       generation_rule (element_connectivity_1D tree4) [1; 1; 2; 2] ne.
Proof.
  assert (Hrun : evaluate_orders_conn 4 (element_connectivity_1D tree4)
                 = Ok {| strahler := [2; 2; 1; 1]; horsfield := [2; 2; 1; 1];
                         generation := [1; 1; 2; 2] |})
    by (vm_compute; reflexivity).
  split; [exact Hrun|].
  exact (generation_follows_rule 4 (element_connectivity_1D tree4) _ Hrun).
Defined.

(** ** Strahler order against Horsfield order *)

(** Entry by entry, [strahler] does not exceed [horsfield]. *)
Definition orders_le (horsfield strahler : list nat) : Prop :=
  forall j s h, strahler !! j = Some s -> horsfield !! j = Some h -> s <= h.

Lemma daughter_body_le (down horsfield strahler : list nat) (noelem : nat)
    (n_h t_s add n_h' t_s' add' : nat) :
  orders_le horsfield strahler ->
  daughter_body down horsfield strahler noelem (n_h, t_s, add) = Ok (n_h', t_s', add') ->
  t_s <= n_h -> add <= 1 -> t_s' <= n_h' /\ add' <= 1.
Proof.
  intros Hle Hrun Hts Hadd. unfold daughter_body in Hrun.
  apply bind_ok in Hrun as (ne2 & _ & Hrun).
  apply bind_ok in Hrun as (h2 & Hh2%get_ok & Hrun).
  apply bind_ok in Hrun as (s2 & Hs2%get_ok & Hrun).
  pose proof (Hle ne2 s2 h2 Hs2 Hh2).
  destruct (decide (n_h < h2)), (decide (s2 < t_s)); try destruct (decide (t_s < s2));
    injection Hrun as <- <- <-; lia.
Qed.

Lemma daughter_loop_le (down horsfield strahler : list nat) (ks : list nat)
    (n_h t_s add n_h' t_s' add' : nat) :
  orders_le horsfield strahler ->
  for_loop ks (daughter_body down horsfield strahler) (n_h, t_s, add)
  = Ok (n_h', t_s', add') ->
  t_s <= n_h -> add <= 1 -> t_s' <= n_h' /\ add' <= 1.
Proof.
  intros Hle. revert n_h t_s add.
  induction ks as [|k ks IH]; intros n_h t_s add Hrun Hts Hadd.
  - injection Hrun as <- <- <-. by split.
  - simpl in Hrun. apply bind_ok in Hrun as ([[n1 t1] a1] & Hbody & Hrun).
    destruct (daughter_body_le _ _ _ _ _ _ _ _ _ _ Hle Hbody Hts Hadd) as [Ht1 Ha1].
    by apply (IH n1 t1 a1).
Qed.

(** The first daughter is the one whose strahler order the loop starts
    from: once it is visited, the running strahler order is below the
    running horsfield order. *)
Lemma daughter_first_le (down horsfield strahler : list nat)
    (d1 t_s n_h n_h' t_s' add' : nat) :
  orders_le horsfield strahler ->
  down !! 1 = Some d1 -> strahler !! d1 = Some t_s ->
  daughter_body down horsfield strahler 1 (n_h, t_s, 1) = Ok (n_h', t_s', add') ->
  t_s' <= n_h' /\ add' <= 1.
Proof.
  intros Hle Hd1 Hts Hrun. unfold daughter_body in Hrun.
  apply bind_ok in Hrun as (ne2 & Hne2%get_ok & Hrun).
  rewrite Hd1 in Hne2. injection Hne2 as <-.
  apply bind_ok in Hrun as (h2 & Hh2%get_ok & Hrun).
  apply bind_ok in Hrun as (s2 & Hs2%get_ok & Hrun).
  rewrite Hts in Hs2. injection Hs2 as <-.
  pose proof (Hle d1 t_s h2 Hts Hh2).
  rewrite decide_False in Hrun by lia. rewrite decide_False in Hrun by lia.
  destruct (decide (n_h < h2)); injection Hrun as <- <- <-; lia.
Qed.

Lemma order_body_le (elem_downstream : list (list nat)) (generation : list nat)
    (ne : nat) (horsfield strahler horsfield' strahler' : list nat) :
  orders_le horsfield strahler ->
  order_body elem_downstream generation ne (horsfield, strahler)
  = Ok (horsfield', strahler') ->
  orders_le horsfield' strahler'.
Proof.
  intros Hle Hrun. unfold order_body in Hrun.
  apply bind_ok in Hrun as (h0 & Hh0%get_ok & Hrun).
  apply bind_ok in Hrun as (down & _ & Hrun).
  apply bind_ok in Hrun as (c & _ & Hrun).
  apply bind_ok in Hrun as (c' & _ & Hrun).
  apply bind_ok in Hrun as ([[n_h t_s] add] & Hst & Hrun).
  apply bind_ok in Hrun as (h1 & [Hlt1 ->]%set_ok & Hrun).
  apply bind_ok in Hrun as (s1 & [Hlt2 ->]%set_ok & Hrun).
  injection Hrun as <- <-.
  assert (Hnew : t_s + add <= n_h).
  { destruct (decide (2 <= c')) as [Hc2|Hc2]; [|destruct (decide (c' = 1))].
    - apply bind_ok in Hst as (d1 & Hd1%get_ok & Hst).
      apply bind_ok in Hst as (ts0 & Hts0%get_ok & Hst).
      apply bind_ok in Hst as ([[n2 t2] a2] & Hloop & Hst).
      injection Hst as <- <- <-.
      destruct c' as [|c']; [lia|]. cbn [seq for_loop] in Hloop.
      apply bind_ok in Hloop as ([[n3 t3] a3] & Hfirst & Hloop).
      destruct (daughter_first_le _ _ _ _ _ _ _ _ _ Hle Hd1 Hts0 Hfirst) as [Ht3 Ha3].
      destruct (daughter_loop_le _ _ _ _ _ _ _ _ _ _ Hle Hloop Ht3 Ha3). lia.
    - apply bind_ok in Hst as (ne2 & _ & Hst).
      apply bind_ok in Hst as (h2 & Hh2%get_ok & Hst).
      apply bind_ok in Hst as (s2 & Hs2%get_ok & Hst).
      injection Hst as <- <- <-. pose proof (Hle ne2 s2 h2 Hs2 Hh2). lia.
    - injection Hst as <- <- <-. lia. }
  intros j s h. destruct (decide (j = ne)) as [->|Hneq].
  - rewrite !list_lookup_insert_eq by done. intros [= <-] [= <-]. exact Hnew.
  - rewrite !list_lookup_insert_ne by done. apply Hle.
Qed.

(** In every result of [evaluate_orders] the strahler order of an
    element is at most its horsfield order, whatever the connectivity and
    the numbering of the elements. *)
Theorem strahler_le_horsfield (n : nat) (conn : connectivity) (r : orders) :
  evaluate_orders_conn n conn = Ok r ->
  forall ne s h, strahler r !! ne = Some s -> horsfield r !! ne = Some h -> s <= h.
Proof.
  intros Hrun. unfold evaluate_orders_conn in Hrun.
  apply bind_ok in Hrun as ([g m] & _ & Hrun).
  apply bind_ok in Hrun as ([h s] & Hloop & Hrun). injection Hrun as <-. simpl.
  apply (for_loop_partial (fun _ st => orders_le st.1 st.2) (range_down n)
           (order_body (elem_down conn) g) _ _ Hloop).
  - intros j s0 h0 Hs0 Hh0. apply lookup_replicate in Hs0 as [-> _]. lia.
  - intros pre x post [h1 s1] [h2 s2] _ Hs1 Hbody. simpl in *.
    by apply (order_body_le _ _ _ _ _ _ _ Hs1 Hbody).
Qed.

(** The tree with a root of three daughters is an input on which
    [evaluate_orders] returns. *)
Lemma strahler_le_horsfield_trifurcation :
  evaluate_orders_conn 8 (element_connectivity_1D trifurcation)
  = Ok {| strahler := [2; 2; 2; 1; 1; 1; 1; 1];
          horsfield := [3; 2; 2; 1; 1; 1; 1; 1];
          generation := [1; 1; 1; 1; 2; 2; 2; 2] |}
  /\ forall ne s h,
       [2; 2; 2; 1; 1; 1; 1; 1] !! ne = Some s ->
       [3; 2; 2; 1; 1; 1; 1; 1] !! ne = Some h ->
       s <= h.
Proof.
  assert (Hrun : evaluate_orders_conn 8 (element_connectivity_1D trifurcation)
                 = Ok {| strahler := [2; 2; 2; 1; 1; 1; 1; 1];
                         horsfield := [3; 2; 2; 1; 1; 1; 1; 1];
                         generation := [1; 1; 1; 1; 2; 2; 2; 2] |})
    by (vm_compute; reflexivity).
  split; [exact Hrun|].
  exact (strahler_le_horsfield 8 (element_connectivity_1D trifurcation) _ Hrun).
Defined.

(** ** The backward loop of [evaluate_orders] *)

Lemma root_first_spec (conn : connectivity) (ne c k d : nat) (down : list nat) :
  root_first conn = true ->
  elem_down conn !! ne = Some down -> down !! 0 = Some c ->
  1 <= k <= c -> down !! k = Some d -> ne < d.
Proof.
  unfold root_first. rewrite forallb_forall. intros Hall Hrow Hc Hk Hd.
  specialize (Hall ne). rewrite Hrow in Hall. unfold root_first_row in Hall.
  rewrite Hc, forallb_forall in Hall.
  assert (Hin : In ne (seq 0 (length (elem_down conn)))).
  { apply in_seq. apply lookup_lt_Some in Hrow. lia. }
  specialize (Hall Hin k). rewrite Hd in Hall.
  eapply bool_decide_eq_true_1, Hall, in_seq. lia.
Qed.

Lemma rev_seq_split (n : nat) (pre post : list nat) (x : nat) :
  rev (seq 0 n) = pre ++ x :: post ->
  x < n /\ forall j, j ∈ pre <-> x < j < n.
Proof.
  intros Heq.
  assert (Hseq : seq 0 n = rev post ++ x :: rev pre).
  { rewrite <- (rev_involutive (seq 0 n)), Heq, rev_app_distr. simpl.
    by rewrite <- app_assoc. }
  destruct (seq_split_at _ _ _ _ Hseq) as (Hpost & Hx & Hlt).
  split; [done|]. intros j.
  assert (Hpre : rev pre = seq (S x) (n - S x)).
  { replace n with (x + S (n - S x)) in Hseq at 1 by lia.
    rewrite seq_app in Hseq. simpl in Hseq. rewrite <- Hpost in Hseq.
    apply app_inv_head in Hseq. by injection Hseq as <-. }
  rewrite list_elem_of_In, in_rev, Hpre, in_seq. lia.
Qed.

Lemma Forall2_impl_in {A B : Type} (P Q : A -> B -> Prop) (l : list A) (k : list B) :
  Forall2 P l k -> (forall x y, x ∈ l -> P x y -> Q x y) -> Forall2 Q l k.
Proof.
  induction 1 as [|x y l k Hxy _ IH]; intros Himpl; constructor.
  - apply Himpl; [by left | done].
  - apply IH. intros x' y' Hin. apply Himpl. by right.
Qed.

(** A loop over the daughters that returns has found the orders of all
    of them. *)
Lemma daughter_loop_vals (down horsfield strahler : list nat) (ks : list nat)
    (st st' : nat * nat * nat) :
  for_loop ks (daughter_body down horsfield strahler) st = Ok st' ->
  exists vals,
    Forall2 (fun k v => exists d, down !! k = Some d
                                  /\ horsfield !! d = Some v.1
                                  /\ strahler !! d = Some v.2) ks vals.
Proof.
  revert st. induction ks as [|k ks IH]; intros st Hrun.
  - exists []. constructor.
  - simpl in Hrun. apply bind_ok in Hrun as (st1 & Hbody & Hrun).
    destruct (IH st1 Hrun) as [vals Hvals].
    destruct st as [[n_h t_s] add]. unfold daughter_body in Hbody.
    apply bind_ok in Hbody as (d & Hd%get_ok & Hbody).
    apply bind_ok in Hbody as (h2 & Hh2%get_ok & Hbody).
    apply bind_ok in Hbody as (s2 & Hs2%get_ok & _).
    exists ((h2, s2) :: vals). constructor; [by exists d | done].
Qed.

(** What an iteration of the backward loop writes at an element not
    visited before. *)
Lemma order_body_inv (conn : connectivity) (generation : list nat)
    (ne : nat) (h s h' s' : list nat) :
  order_body (elem_down conn) generation ne (h, s) = Ok (h', s') ->
  h !! ne = Some 0 ->
  exists vh vs,
    h' = <[ne:=vh]> h /\ s' = <[ne:=vs]> s /\ ne < length h /\ ne < length s
    /\ forall down c,
         elem_down conn !! ne = Some down -> down !! 0 = Some c ->
         (c = 0 -> vh = 1 /\ vs = 1)
         /\ (c = 1 ->
             forall d g, down !! 1 = Some d -> generation !! d = Some g ->
               if decide (g = 0) then vh = 1 /\ vs = 1
               else h !! d = Some vh /\ s !! d = Some vs)
         /\ (2 <= c ->
             exists vals s1,
               daughters down h s c vals
               /\ head (map snd vals) = Some s1
               /\ vh = fold_left Nat.max (map fst vals) 1 + 1
               /\ vs = fold_left Nat.max (map snd vals) s1
                       + (if decide (Forall (fun v => v.2 = s1) vals) then 1 else 0)).
Proof.
  intros Hrun Hzero. unfold order_body in Hrun.
  apply bind_ok in Hrun as (h0 & Hh0%get_ok & Hrun).
  rewrite Hzero in Hh0. injection Hh0 as <-.
  apply bind_ok in Hrun as (down & Hdown%get_ok & Hrun).
  apply bind_ok in Hrun as (c & Hc%get_ok & Hrun).
  apply bind_ok in Hrun as (c' & Hc' & Hrun).
  apply bind_ok in Hrun as ([[n_h t_s] add] & Hst & Hrun).
  apply bind_ok in Hrun as (h1 & [Hlt1 ->]%set_ok & Hrun).
  apply bind_ok in Hrun as (s1 & [Hlt2 ->]%set_ok & Hrun).
  injection Hrun as <- <-.
  exists n_h, (t_s + add). split_and!; try done.
  intros down' c0 Hdown' Hc0.
  rewrite Hdown in Hdown'. injection Hdown' as <-.
  rewrite Hc in Hc0. injection Hc0 as <-.
  destruct (decide (c = 1)) as [->|Hc1].
  - apply bind_ok in Hc' as (d1 & Hd1%get_ok & Hc').
    apply bind_ok in Hc' as (g1 & Hg1%get_ok & Hc').
    split; [lia|]. split; [|lia]. intros _ d g Hd Hg.
    rewrite Hd1 in Hd. injection Hd as <-. rewrite Hg1 in Hg. injection Hg as <-.
    destruct (decide (g1 = 0)).
    + injection Hc' as <-.
      destruct (decide (2 <= 0)) as [?|_]; [lia|].
      destruct (decide (0 = 1)) as [?|_]; [lia|].
      injection Hst as <- <- <-. by split.
    + injection Hc' as <-.
      destruct (decide (2 <= 1)) as [?|_]; [lia|].
      destruct (decide (1 = 1)) as [_|?]; [|lia].
      apply bind_ok in Hst as (ne2 & Hne2%get_ok & Hst).
      rewrite Hd1 in Hne2. injection Hne2 as <-.
      apply bind_ok in Hst as (h2 & Hh2%get_ok & Hst).
      apply bind_ok in Hst as (s2 & Hs2%get_ok & Hst).
      injection Hst as <- <- <-. by split.
  - injection Hc' as <-.
    destruct (decide (2 <= c)) as [Hc2|Hc2].
    + split; [lia|]. split; [lia|]. intros _.
      apply bind_ok in Hst as (d1 & Hd1%get_ok & Hst).
      apply bind_ok in Hst as (ts0 & Hts0%get_ok & Hst).
      apply bind_ok in Hst as ([[n2 t2] a2] & Hloop & Hst).
      injection Hst as <- <- <-.
      destruct (daughter_loop_vals _ _ _ _ _ _ Hloop) as [vals Hvals].
      rewrite (daughter_loop_spec _ _ _ _ _ _ _ _ Hvals) in Hloop.
      injection Hloop as <- <- <-.
      exists vals, ts0. split_and!; try done.
      destruct c as [|c]; [lia|]. simpl in Hvals.
      inversion Hvals as [|k v ks vs (d & Hd & _ & Hs) Hrest]; subst.
      rewrite Hd1 in Hd. injection Hd as <-. simpl. congruence.
    + destruct (decide (c = 1)) as [?|_]; [lia|].
      injection Hst as <- <- <-. split; [by split|]. split; intros; lia.
Qed.

(** The state of the backward loop after the elements [pre]. *)
Definition order_inv (n : nat) (conn : connectivity) (generation : list nat)
    (pre : list nat) (st : list nat * list nat) : Prop :=
  length st.1 = n /\ length st.2 = n
  /\ (forall j, j < n -> j ∉ pre -> st.1 !! j = Some 0 /\ st.2 !! j = Some 0)
  /\ (forall j, j ∈ pre -> order_rule conn generation st.1 st.2 j).

Lemma order_inv_step (n : nat) (conn : connectivity) (generation : list nat)
    (pre post : list nat) (ne : nat) (st st' : list nat * list nat) :
  root_first conn = true ->
  rev (seq 0 n) = pre ++ ne :: post ->
  order_inv n conn generation pre st ->
  order_body (elem_down conn) generation ne st = Ok st' ->
  order_inv n conn generation (pre ++ [ne]) st'.
Proof.
  intros Hroot Hsplit (Hlenh & Hlens & Hzero & Hrule) Hrun.
  destruct st as [h s], st' as [h' s']. simpl in *.
  destruct (rev_seq_split _ _ _ _ Hsplit) as (Hne & Hpre).
  assert (Hfresh : ne ∉ pre) by (rewrite Hpre; lia).
  destruct (Hzero ne Hne Hfresh) as [Hh0 Hs0].
  destruct (order_body_inv conn generation ne h s h' s' Hrun Hh0)
    as (vh & vs & -> & -> & Hlt1 & Hlt2 & Hnew).
  unfold order_inv. simpl. rewrite !length_insert. split_and!; try done.
  - intros j Hj Hnot. rewrite elem_of_app, list_elem_of_singleton in Hnot.
    assert (Hneq : ne <> j) by (intros ->; tauto).
    rewrite !list_lookup_insert_ne by done. apply Hzero; tauto.
  - intros j [Hin|Heq%list_elem_of_singleton]%elem_of_app; [|subst j].
    + assert (Hgt : ne < j) by (apply Hpre in Hin; lia).
      intros down c Hdown Hc.
      destruct (Hrule j Hin down c Hdown Hc) as (R0 & R1 & R2).
      rewrite !(list_lookup_insert_ne _ ne j) by lia. split_and!.
      * exact R0.
      * intros Hc1 d g Hd Hg. specialize (R1 Hc1 d g Hd Hg).
        assert (j < d) by (apply (root_first_spec conn j c 1 d down); (done || lia)).
        rewrite !(list_lookup_insert_ne _ ne d) by lia. exact R1.
      * intros Hc2. destruct (R2 Hc2) as (vals & s1 & Hvals & Hhead & Hh & Hs).
        exists vals, s1. split_and!; try done.
        apply (Forall2_impl_in _ _ _ _ Hvals).
        intros k v Hk%elem_of_seq (d & Hd & Hhd & Hsd).
        assert (j < d) by (apply (root_first_spec conn j c k d down); (done || lia)).
        exists d. by rewrite !list_lookup_insert_ne by lia.
    + intros down c Hdown Hc.
      destruct (Hnew down c Hdown Hc) as (N0 & N1 & N2).
      rewrite !list_lookup_insert_eq by done. split_and!.
      * intros Hc0. destruct (N0 Hc0) as [-> ->]. by split.
      * intros Hc1 d g Hd Hg. specialize (N1 Hc1 d g Hd Hg).
        assert (ne < d) by (apply (root_first_spec conn ne c 1 d down); (done || lia)).
        rewrite !(list_lookup_insert_ne _ ne d) by lia.
        destruct (decide (g = 0)).
        -- destruct N1 as [-> ->]. by split.
        -- destruct N1 as [-> ->]. by split.
      * intros Hc2. destruct (N2 Hc2) as (vals & s1 & Hvals & Hhead & -> & ->).
        exists vals, s1. split_and!; try done.
        apply (Forall2_impl_in _ _ _ _ Hvals).
        intros k v Hk%elem_of_seq (d & Hd & Hhd & Hsd).
        assert (ne < d) by (apply (root_first_spec conn ne c k d down); (done || lia)).
        exists d. by rewrite !list_lookup_insert_ne by lia.
Qed.

(** When the elements are numbered root first, the horsfield and strahler
    arrays [evaluate_orders] returns follow the rule of the backward loop at
    every element. *)
Theorem orders_follow_rule (n : nat) (conn : connectivity) (r : orders) :
  root_first conn = true ->
  evaluate_orders_conn n conn = Ok r ->
  forall ne, ne < n ->
    order_rule conn (generation r) (horsfield r) (strahler r) ne.
Proof.
  intros Hroot Hrun ne Hne. unfold evaluate_orders_conn in Hrun.
  apply bind_ok in Hrun as ([g m] & _ & Hrun).
  apply bind_ok in Hrun as ([h s] & Hloop & Hrun). injection Hrun as <-. simpl.
  pose proof (for_loop_partial (order_inv n conn g) (range_down n)
                (order_body (elem_down conn) g) _ _ Hloop) as Hinv.
  destruct Hinv as (_ & _ & _ & Hrule).
  - unfold order_inv. simpl. split_and!.
    + apply length_replicate.
    + apply length_replicate.
    + intros j Hj _. split; by apply lookup_replicate_2.
    + intros j Hj. by apply elem_of_nil in Hj.
  - intros pre x post s1 s2 Hsplit Hs1 Hbody.
    by apply (order_inv_step n conn g pre post x s1).
  - apply Hrule. unfold range_down. rewrite list_elem_of_In, <- in_rev, in_seq. lia.
Qed.

(** The tree with a root of three daughters is numbered root first. *)
Lemma orders_follow_rule_trifurcation :
  root_first (element_connectivity_1D trifurcation) = true
  /\ evaluate_orders_conn 8 (element_connectivity_1D trifurcation)
     = Ok {| strahler := [2; 2; 2; 1; 1; 1; 1; 1];
             horsfield := [3; 2; 2; 1; 1; 1; 1; 1];
             generation := [1; 1; 1; 1; 2; 2; 2; 2] |}
  /\ forall ne, ne < 8 ->
       order_rule (element_connectivity_1D trifurcation)
         [1; 1; 1; 1; 2; 2; 2; 2] [3; 2; 2; 1; 1; 1; 1; 1] [2; 2; 2; 1; 1; 1; 1; 1] ne.
Proof.
  assert (Hroot : root_first (element_connectivity_1D trifurcation) = true)
    by (vm_compute; reflexivity).
  assert (Hrun : evaluate_orders_conn 8 (element_connectivity_1D trifurcation)
                 = Ok {| strahler := [2; 2; 2; 1; 1; 1; 1; 1];
                         horsfield := [3; 2; 2; 1; 1; 1; 1; 1];
                         generation := [1; 1; 1; 1; 2; 2; 2; 2] |})
    by (vm_compute; reflexivity).
  split; [exact Hroot|]. split; [exact Hrun|].
  exact (orders_follow_rule 8 (element_connectivity_1D trifurcation) _ Hroot Hrun).
Defined.

(** ** The terminal finder on too few nodes *)

(** A computation whose only exception is [IndexError]. *)
Definition index_errors_only {A : Type} (m : result A) : Prop :=
  forall e, m = Err e -> e = IndexError.

Lemma index_errors_only_get {A : Type} (a : list A) (i : nat) :
  index_errors_only (get a i).
Proof. unfold index_errors_only, get. destruct (a !! i); congruence. Qed.

Lemma index_errors_only_set {A : Type} (a : list A) (i : nat) (v : A) :
  index_errors_only (set a i v).
Proof. unfold index_errors_only, set. destruct (decide _); congruence. Qed.

Lemma index_errors_only_bind {A B : Type} (m : result A) (k : A -> result B) :
  index_errors_only m -> (forall a, index_errors_only (k a)) ->
  index_errors_only (bind m k).
Proof.
  intros Hm Hk e. destruct m as [a|e']; simpl; [apply Hk|].
  intros [= <-]. by apply Hm.
Qed.

Lemma index_errors_only_for_loop {A S : Type} (xs : list A)
    (body : A -> S -> result S) (s : S) :
  (forall x s1, index_errors_only (body x s1)) ->
  index_errors_only (for_loop xs body s).
Proof.
  intros Hbody. revert s. induction xs as [|x xs IH]; intros s; simpl.
  - intros e. discriminate.
  - apply index_errors_only_bind; [apply Hbody | apply IH].
Qed.

Lemma index_errors_only_terminal (num_nodes : nat) (elems : list elem_row)
    (conn : connectivity) :
  index_errors_only (calc_terminal_branch_conn num_nodes elems conn).
Proof.
  unfold calc_terminal_branch_conn. apply index_errors_only_bind.
  - apply index_errors_only_for_loop. intros ne [[tb tn] k].
    unfold calc_terminal_branch_body.
    apply index_errors_only_bind; [apply index_errors_only_get|]. intros down.
    apply index_errors_only_bind; [apply index_errors_only_get|]. intros c.
    destruct (decide (c = 0)); [|intros e'; discriminate].
    apply index_errors_only_bind; [apply index_errors_only_set|]. intros tb'.
    apply index_errors_only_bind; [apply index_errors_only_get|]. intros row.
    apply index_errors_only_bind; [apply index_errors_only_get|]. intros leaf.
    apply index_errors_only_bind; [apply index_errors_only_set|]. intros tn'.
    intros e'. discriminate.
  - intros [[tb tn] k] e'. discriminate.
Qed.

(** Whenever the loop of [calc_terminal_branch] gets through, the
    terminals found so far fit the array of [len(node_loc)] slots. *)
Lemma terminal_loop_room (num_nodes : nat) (elems : list elem_row) (conn : connectivity)
    (xs : list nat) (st st' : list nat * list nat * nat) :
  for_loop xs (calc_terminal_branch_body elems conn) st = Ok st' ->
  length st.1.2 = num_nodes -> st.2 <= num_nodes ->
  length st'.1.2 = num_nodes
  /\ st.2 + length (filter (fun ne => down_count conn ne = Some 0) xs) = st'.2
  /\ st'.2 <= num_nodes.
Proof.
  revert st. induction xs as [|ne xs IH]; intros [[tb tn] k] Hrun Hlen Hk.
  - injection Hrun as <-. simpl in *. lia.
  - simpl in Hrun. apply bind_ok in Hrun as ([[tb1 tn1] k1] & Hbody & Hrun).
    unfold calc_terminal_branch_body in Hbody.
    apply bind_ok in Hbody as (down & Hdown%get_ok & Hbody).
    apply bind_ok in Hbody as (c & Hc%get_ok & Hbody).
    assert (Hcount : down_count conn ne = Some c).
    { unfold down_count. rewrite Hdown. exact Hc. }
    rewrite filter_cons. simpl in Hlen, Hk.
    destruct (decide (c = 0)) as [->|Hc0].
    + apply bind_ok in Hbody as (tb2 & _ & Hbody).
      apply bind_ok in Hbody as (row & _ & Hbody).
      apply bind_ok in Hbody as (leaf & _ & Hbody).
      apply bind_ok in Hbody as (tn2 & [Hlt ->]%set_ok & Hbody).
      injection Hbody as <- <- <-.
      destruct (IH _ Hrun) as (H1 & H2 & H3); simpl.
      * by rewrite length_insert.
      * lia.
      * rewrite decide_True by done. simpl in *. split_and!; [done | lia | done].
    + injection Hbody as <- <- <-.
      destruct (IH _ Hrun) as (H1 & H2 & H3); simpl; [done | done |].
      rewrite decide_False by congruence. simpl in *. by split_and!.
Qed.

(** [calc_terminal_branch] sizes the array of terminal nodes by
    [len(node_loc)]: on a tree with more terminal elements than nodes it
    raises [IndexError]. *)
Theorem calc_terminal_branch_too_few_nodes (num_nodes : nat) (elems : list elem_row)
    (conn : connectivity) :
  num_nodes < length (terminals_of (length elems) conn) ->
  calc_terminal_branch_conn num_nodes elems conn = Err IndexError.
Proof.
  intros Hmany.
  destruct (calc_terminal_branch_conn num_nodes elems conn) as [r|e] eqn:Hrun.
  - exfalso. unfold calc_terminal_branch_conn in Hrun.
    apply bind_ok in Hrun as ([[tb tn] k] & Hloop & _).
    destruct (terminal_loop_room num_nodes elems conn _ _ _ Hloop) as (_ & Hk & Hle).
    + simpl. apply length_replicate.
    + simpl. lia.
    + simpl in Hk, Hle. unfold terminals_of, range in *. lia.
  - f_equal. by apply (index_errors_only_terminal num_nodes elems conn).
Qed.

(** The tree of three elements has two terminals. *)
Lemma calc_terminal_branch_too_few_nodes_tree3 :
  calc_terminal_branch_conn 1 tree3 (element_connectivity_1D tree3) = Err IndexError.
Proof.
  apply calc_terminal_branch_too_few_nodes. vm_compute. lia.
Defined.

(** ** The fast binner counts every terminal *)

Lemma np_index_ok (len : nat) (k : Z) (i : nat) :
  np_index len k = Ok i ->
  i < len /\ (- Z.of_nat len <= k < Z.of_nat len)%Z.
Proof.
  unfold np_index.
  destruct (decide (0 <= k < Z.of_nat len)%Z); [intros [= <-]; lia|].
  destruct (decide (- Z.of_nat len <= k < 0)%Z); [intros [= <-]; lia|].
  discriminate.
Qed.

Lemma index_errors_only_mapM {A B : Type} (f : A -> result B) (xs : list A) :
  (forall x, index_errors_only (f x)) -> index_errors_only (mapM f xs).
Proof.
  intros Hf. induction xs as [|x xs IH]; simpl.
  - intros e. discriminate.
  - apply index_errors_only_bind; [apply Hf|]. intros y.
    apply index_errors_only_bind; [apply IH|]. intros ys e. discriminate.
Qed.

Section FastBinnerFacts.
Context {F : Type} `{Num F}.

(** The state of the loop of the fast binner after the terminals [pre]. *)
Definition fast_inv (cells total : nat) (pre : list nat) (st : list nat * list Z)
  : Prop :=
  length st.1 = cells /\ length st.2 = total
  /\ sum_list st.1 = length pre
  /\ (forall nt k, st.2 !! nt = Some k ->
        (- Z.of_nat cells <= k < Z.of_nat cells)%Z \/ (k = 0%Z /\ nt ∉ pre)).

Lemma fast_body_step (g : grid_frame F) (tl : terminal_list) (node_loc : list (list F))
    (cells : nat) (pre : list nat) (nt : nat) (st st' : list nat * list Z) :
  fast_inv cells (total_terminals tl) pre st ->
  fast_body g tl node_loc nt st = Ok st' ->
  fast_inv cells (total_terminals tl) (pre ++ [nt]) st'.
Proof.
  destruct st as [grid telems]. intros (Hgrid & Htel & Hsum & Hrange) Hrun.
  simpl in *. unfold fast_body in Hrun.
  apply bind_ok in Hrun as (coord & _ & Hrun).
  apply bind_ok in Hrun as (nelem & _ & Hrun).
  apply bind_ok in Hrun as (i & [Hi Hnelem]%np_index_ok & Hrun).
  apply bind_ok in Hrun as (c & Hc%get_ok & Hrun).
  apply bind_ok in Hrun as (grid' & [_ ->]%set_ok & Hrun).
  apply bind_ok in Hrun as (telems' & [Hnt ->]%set_ok & Hrun).
  injection Hrun as <-. unfold fast_inv. simpl.
  rewrite !length_insert, length_app. simpl. split_and!; try done.
  - pose proof (sum_list_insert grid i c (c + 1) Hc). lia.
  - intros nt' k. destruct (decide (nt' = nt)) as [->|Hneq].
    + rewrite list_lookup_insert_eq by done. intros [= <-]. left. lia.
    + rewrite list_lookup_insert_ne by done. intros Hk.
      destruct (Hrange nt' k Hk) as [Hin|[-> Hnot]]; [by left|].
      right. split; [done|]. rewrite elem_of_app, list_elem_of_singleton. tauto.
Qed.

(** Every result of [terminals_in_sampling_grid_fast] counts each
    terminal in exactly one cell: the counts add up to [total_terminals];
    there is one count per cell of the mesh and one recorded cell per
    terminal, and each recorded cell is an index numpy accepts for the array
    of counts (possibly a negative one, counted from the end). *)
Theorem fast_binner_counts_all (mesh : rectangular_mesh F) (tl : terminal_list)
    (node_loc : list (list F)) (r : grid_terminals) :
  terminals_in_sampling_grid_fast mesh tl node_loc = Ok r ->
  sum_list (terminals_in_grid r) = total_terminals tl
  /\ length (terminals_in_grid r) = length (mesh_elems mesh)
  /\ length (grid_terminal_elems r) = total_terminals tl
  /\ (forall nt k, grid_terminal_elems r !! nt = Some k ->
        (- Z.of_nat (length (mesh_elems mesh)) <= k
         < Z.of_nat (length (mesh_elems mesh)))%Z).
Proof.
  intros Hrun. unfold terminals_in_sampling_grid_fast in Hrun.
  apply bind_ok in Hrun as (g & _ & Hrun).
  apply bind_ok in Hrun as ([grid telems] & Hloop & Hrun).
  injection Hrun as <-. simpl.
  pose proof (for_loop_partial
                (fast_inv (length (mesh_elems mesh)) (total_terminals tl))
                (range (total_terminals tl)) (fast_body g tl node_loc) _ _ Hloop)
    as Hinv.
  destruct Hinv as (Hgrid & Htel & Hsum & Hrange).
  - unfold fast_inv, np_zeros. simpl. rewrite !length_replicate. split_and!; try done.
    + rewrite sum_list_replicate. lia.
    + intros nt k Hk. apply lookup_replicate in Hk as [-> _].
      right. split; [done|]. apply not_elem_of_nil.
  - intros pre nt post s1 s2 _ Hs1 Hbody.
    by apply (fast_body_step g tl node_loc _ pre nt s1).
  - simpl in *. unfold range in Hsum, Hrange. rewrite length_seq in Hsum.
    split_and!; try done.
    intros nt k Hk. destruct (Hrange nt k Hk) as [Hin|[-> Hnot]]; [done|].
    exfalso. apply Hnot, elem_of_seq. apply lookup_lt_Some in Hk. lia.
Qed.

(** [terminals_in_sampling_grid_fast] reads cell 0 of the mesh before it
    looks at any terminal: on a mesh without cells it raises, even for an
    empty list of terminals. *)
Theorem fast_binner_needs_a_cell (mesh : rectangular_mesh F) (tl : terminal_list)
    (node_loc : list (list F)) :
  mesh_elems mesh = [] ->
  exists e, terminals_in_sampling_grid_fast mesh tl node_loc = Err e
            /\ (e = IndexError \/ e = ValueError).
Proof.
  intros Hempty. unfold terminals_in_sampling_grid_fast, mesh_frame.
  assert (Haxis : exists e, axis_frame mesh 0 = Err e
                            /\ (e = IndexError \/ e = ValueError)).
  { unfold axis_frame.
    destruct (column (mesh_nodes mesh) 0) as [col|e] eqn:Hcol; cbn [bind].
    - destruct (np_min col) as [start|e] eqn:Hmin; cbn [bind].
      + unfold corner_coord. rewrite Hempty. cbn. eauto.
      + exists e. split; [done|]. unfold np_min in Hmin.
        destruct col; [injection Hmin as <-; by right | discriminate].
    - exists e. split; [done|]. left.
      apply (index_errors_only_mapM (fun row : list F => get row 0) (mesh_nodes mesh));
        [|exact Hcol].
      intros row. apply index_errors_only_get. }
  destruct Haxis as (e & -> & He). cbn [bind]. by exists e.
Qed.
End FastBinnerFacts.

(** The grid of two unit cells over [Q], with a terminal at the centroid
    of cell 1, is an input on which the fast binner returns. *)
Lemma fast_binner_counts_all_pair :
  let r := {| terminals_in_grid := [0; 1]; grid_terminal_elems := [1%Z] |} in
  sum_list (terminals_in_grid r) = 1
  /\ length (terminals_in_grid r) = length (mesh_elems pair_mesh_Q)
  /\ length (grid_terminal_elems r) = 1
  /\ (forall nt k, grid_terminal_elems r !! nt = Some k ->
        (- Z.of_nat (length (mesh_elems pair_mesh_Q)) <= k
         < Z.of_nat (length (mesh_elems pair_mesh_Q)))%Z).
Proof.
  apply (fast_binner_counts_all pair_mesh_Q
           {| terminal_elems := [0]; terminal_nodes := [0]; total_terminals := 1 |}
           [0%Q :: cell_centroid 0 0 0 1 1 1 2 1 1]).
  vm_compute. reflexivity.
Defined.

(** A mesh of nodes without cells. *)
Lemma fast_binner_needs_a_cell_example :
  exists e,
    terminals_in_sampling_grid_fast
      {| mesh_nodes := [[0; 0; 0]%Q]; mesh_elems := []; mesh_total_elems := 0 |}
      {| terminal_elems := []; terminal_nodes := []; total_terminals := 0 |} []
    = Err e
    /\ (e = IndexError \/ e = ValueError).
Proof. by apply fast_binner_needs_a_cell. Defined.

(** ** The grid indexer on any point, in exact arithmetic *)




(** ** Non-empty cells and the resolution of the quadrature *)

(** On a mesh it can index, [ellipse_volume_to_grid] returns one volume
    per [total_elems], and as non-empty cells exactly the cells with at least
    one corner inside or on the ellipsoid, in increasing order. *)
Theorem non_empty_cells_are_those_with_a_corner {F : Type} `{Num F} `{Sqrt F}
    (calculate_ellipse_radii : F -> F -> F -> ellipse_radii F)
    (check_in_ellipsoid check_on_ellipsoid : F -> F -> F -> F -> F -> F -> bool)
    (mesh : rectangular_mesh F) (volume thickness ellipticity : F)
    (num_test_points : nat) :
  wf_mesh mesh = true ->
  exists r,
    ellipse_volume_to_grid calculate_ellipse_radii check_in_ellipsoid check_on_ellipsoid
      mesh volume thickness ellipticity num_test_points = Ok r
    /\ length (pl_vol_in_grid r) = mesh_total_elems mesh
    /\ non_empty_rects r
       = filter (fun ne =>
                   corner_count check_in_ellipsoid check_on_ellipsoid mesh
                     (calculate_ellipse_radii volume thickness ellipticity) ne <> 0)
                (seq 0 (length (mesh_elems mesh)))
    /\ StronglySorted lt (non_empty_rects r).
Proof.
  intros Hwf.
  destruct (ellipse_volume_to_grid_spec calculate_ellipse_radii check_in_ellipsoid
              check_on_ellipsoid mesh volume thickness ellipticity num_test_points Hwf)
    as (r & Hrun & Hlen & Hloc & _).
  exists r. split_and!; try done.
  rewrite Hloc. apply filter_seq_sorted.
Qed.

Lemma non_empty_cells_are_those_with_a_corner_row_mesh :
  exists r,
    ellipse_volume_to_grid unit_radii check_in_ellipsoid_model check_on_ellipsoid_model
      row_mesh 1%float 1%float 1%float 5 = Ok r
    /\ length (pl_vol_in_grid r) = mesh_total_elems row_mesh
    /\ non_empty_rects r
       = filter (fun ne =>
                   corner_count check_in_ellipsoid_model check_on_ellipsoid_model row_mesh
                     (unit_radii 1%float 1%float 1%float) ne <> 0)
                (seq 0 (length (mesh_elems row_mesh)))
    /\ StronglySorted lt (non_empty_rects r).
Proof.
  apply (non_empty_cells_are_those_with_a_corner unit_radii check_in_ellipsoid_model
           check_on_ellipsoid_model row_mesh 1%float 1%float 1%float 5).
  vm_compute. reflexivity.
Defined.

(** With fewer than two sample points per axis the trapezoidal sums are
    empty: the quadrature of a boundary cell then returns
    [0 - startz * (endx - startx) * (endy - starty)], whatever the ellipsoid. *)
Theorem quadrature_needs_two_points {F : Type} `{Num F} `{Sqrt F}
    (radii : ellipse_radii F) (num_test_points : nat)
    (startx endx starty endy startz endz : F) :
  num_test_points <= 1 ->
  cell_quadrature radii num_test_points startx endx starty endy startz endz
  = Ok (fsub fzero (fmul (fmul startz (fsub endx startx)) (fsub endy starty))).
Proof.
  intros Hnum.
  destruct num_test_points as [|[|n]]; [reflexivity | reflexivity | lia].
Qed.

Lemma quadrature_needs_two_points_example :
  cell_quadrature (unit_radii 1 1 1)%float 1 0%float 1%float 0%float 1%float
                  0.5%float 1%float
  = Ok (fsub fzero (fmul (fmul 0.5%float (fsub 1%float 0%float))
                         (fsub 1%float 0%float))).
Proof. apply quadrature_needs_two_points. lia. Defined.

(** ** The two exits of [cal_br_vol_samp_grid] *)

Section BranchVolumeFacts.
Context {F : Type} `{Num F}.
Variable calculate_ellipse_radii : F -> F -> F -> ellipse_radii F.
Variables check_in_ellipsoid check_on_ellipsoid : F -> F -> F -> F -> F -> F -> bool.
Variable distribute_branch :
  rectangular_mesh F -> nat -> list F -> list F -> branch_state F
  -> result (branch_state F).

(** One iteration of the loop over the branches, by the outcome of the
    end-point test. *)
Lemma branch_body_vol_spec (mesh : rectangular_mesh F) (branch_el : list elem_row)
    (branch_node : list (list F)) (radii : ellipse_radii F) (ne : nat) (b : bool)
    (st : branch_state F) :
  branch_rejected check_in_ellipsoid check_on_ellipsoid branch_el branch_node radii ne
  = Some b ->
  exists N1 N2,
    branch_ends branch_el branch_node ne = Some (N1, N2)
    /\ branch_body_vol check_in_ellipsoid check_on_ellipsoid distribute_branch
         mesh branch_el branch_node radii ne st
       = if b then Err (SysExit (branch_outside_msg ne))
         else distribute_branch mesh ne N1 N2 st.
Proof.
  unfold branch_rejected, branch_ends, branch_body_vol.
  destruct (branch_el !! ne) as [row|] eqn:Hrow; [|discriminate]. simpl.
  destruct (row !! 1) as [n1|] eqn:Hn1; [|discriminate]. simpl.
  destruct (branch_node !! n1) as [p1|] eqn:Hp1; [|discriminate]. simpl.
  destruct (row !! 2) as [n2|] eqn:Hn2; [|discriminate]. simpl.
  destruct (branch_node !! n2) as [p2|] eqn:Hp2; [|discriminate]. simpl.
  destruct (slice p1 1 4 !! 0) as [a0|] eqn:Ha0; [|discriminate]. simpl.
  destruct (slice p1 1 4 !! 1) as [a1|] eqn:Ha1; [|discriminate]. simpl.
  destruct (slice p1 1 4 !! 2) as [a2|] eqn:Ha2; [|discriminate]. simpl.
  destruct (slice p2 1 4 !! 0) as [b0|] eqn:Hb0; [|discriminate]. simpl.
  destruct (slice p2 1 4 !! 1) as [b1|] eqn:Hb1; [|discriminate]. simpl.
  destruct (slice p2 1 4 !! 2) as [b2|] eqn:Hb2; [|discriminate]. simpl.
  intros [= <-]. exists (slice p1 1 4), (slice p2 1 4). split; [done|].
  run_get Hrow. run_get Hn1. run_get Hp1. run_get Hn2. run_get Hp2.
  run_get Ha0. run_get Ha1. run_get Ha2. run_get Hb0. run_get Hb1. run_get Hb2.
  reflexivity.
Qed.

(** [cal_br_vol_samp_grid] stops at the first branch its end-point test
    rejects, and its message names that branch: when the branches before
    branch [k] pass the test and are shared out over the grid without an
    exception, and branch [k] fails the test, the run ends in [sys.exit] with
    the message for branch [k]. *)
Theorem first_rejected_branch_is_named (mesh : rectangular_mesh F)
    (branch_el : list elem_row) (branch_node : list (list F))
    (volume thickness ellipticity : F) (p_vol : ellipse_volumes F) (k : nat) :
  let radii := calculate_ellipse_radii volume thickness ellipticity in
  k < length branch_el ->
  (forall j, j < k ->
     branch_rejected check_in_ellipsoid check_on_ellipsoid branch_el branch_node radii j
     = Some false) ->
  (forall j N1 N2 st, j < k -> exists st', distribute_branch mesh j N1 N2 st = Ok st') ->
  branch_rejected check_in_ellipsoid check_on_ellipsoid branch_el branch_node radii k
  = Some true ->
  cal_br_vol_samp_grid calculate_ellipse_radii check_in_ellipsoid check_on_ellipsoid
    distribute_branch mesh branch_el branch_node volume thickness ellipticity p_vol
  = Err (SysExit (branch_outside_msg k)).
Proof.
  intros radii Hk Hbefore Hdist Hrej. unfold cal_br_vol_samp_grid. fold radii.
  unfold range. replace (length branch_el) with (k + S (length branch_el - S k)) by lia.
  rewrite seq_app. simpl. rewrite for_loop_app.
  destruct (for_loop_total (fun _ _ => True) (seq 0 k)
              (branch_body_vol check_in_ellipsoid check_on_ellipsoid distribute_branch
                 mesh branch_el branch_node radii)
              (np_zeros (mesh_total_elems mesh), np_fzeros (k + S (length branch_el - S k)),
               np_fzeros2 (mesh_total_elems mesh) 2, 0)) as (st1 & -> & _); [done| |].
  { intros pre j post st Hsplit _.
    apply seq_split_at in Hsplit as (_ & _ & Hj).
    destruct (branch_body_vol_spec mesh branch_el branch_node radii j false st
                (Hbefore j Hj)) as (N1 & N2 & _ & ->).
    destruct (Hdist j N1 N2 st Hj) as [st' ->]. by exists st'. }
  cbn [bind for_loop].
  destruct (branch_body_vol_spec mesh branch_el branch_node radii k true st1 Hrej)
    as (N1 & N2 & _ & ->).
  reflexivity.
Qed.

(** A result of [cal_br_vol_samp_grid] never has branch volume in a grid
    cell whose ellipsoid volume is zero: for every cell with
    [pl_vol_in_grid[i] == 0], the total in the first column of
    [total_vol_samp_gr] is zero too. *)
Theorem no_branch_volume_in_empty_cells (mesh : rectangular_mesh F)
    (branch_el : list elem_row) (branch_node : list (list F))
    (volume thickness ellipticity : F) (p_vol : ellipse_volumes F)
    (r : branch_volumes F) :
  cal_br_vol_samp_grid calculate_ellipse_radii check_in_ellipsoid check_on_ellipsoid
    distribute_branch mesh branch_el branch_node volume thickness ellipticity p_vol
  = Ok r ->
  forall i, i < length (total_vol_samp_gr r) ->
    exists pv, pl_vol_in_grid p_vol !! i = Some pv
               /\ (feqb pv fzero = true ->
                   exists tv, get2 (total_vol_samp_gr r) i 0 = Ok tv
                              /\ feqb tv fzero = true).
Proof.
  intros Hrun. unfold cal_br_vol_samp_grid in Hrun.
  apply bind_ok in Hrun as ([[[br_num vol_each] total_vol] b_count] & _ & Hrun).
  apply bind_ok in Hrun as ([] & Hcheck & Hrun). injection Hrun as <-. simpl.
  pose proof (for_loop_partial
                (fun pre _ =>
                   forall i, i ∈ pre ->
                     exists pv, pl_vol_in_grid p_vol !! i = Some pv
                                /\ (feqb pv fzero = true ->
                                    exists tv, get2 total_vol i 0 = Ok tv
                                               /\ feqb tv fzero = true))
                (range (length total_vol))
                (countercheck (pl_vol_in_grid p_vol) total_vol) tt tt Hcheck) as Hinv.
  intros i Hi. apply Hinv.
  - intros j Hj. by apply elem_of_nil in Hj.
  - intros pre j post [] [] _ Hpre Hbody i' [Hin|Heq%list_elem_of_singleton]%elem_of_app;
      [by apply Hpre|subst i'].
    unfold countercheck in Hbody.
    apply bind_ok in Hbody as (pv & Hpv%get_ok & Hbody).
    exists pv. split; [done|]. intros Hzero. rewrite Hzero in Hbody.
    apply bind_ok in Hbody as (tv & Htv & Hbody).
    exists tv. split; [done|]. by destruct (feqb tv fzero).
  - unfold range. apply elem_of_seq. lia.
Qed.
End BranchVolumeFacts.

(** Of the two branches from the centre of the unit ball the second one
    ends on the surface and is rejected; the first one passes. *)
Lemma first_rejected_branch_is_named_two_branches :
  cal_br_vol_samp_grid unit_radii check_in_ellipsoid_model check_on_ellipsoid_model
    keep_totals box_mesh two_branch_el two_branch_node 1%float 1%float 1%float
    {| pl_vol_in_grid := [0%float]; non_empty_rects := [] |}
  = Err (SysExit (branch_outside_msg 1)).
Proof.
  apply (first_rejected_branch_is_named unit_radii check_in_ellipsoid_model
           check_on_ellipsoid_model keep_totals box_mesh two_branch_el two_branch_node
           1%float 1%float 1%float _ 1).
  - simpl. lia.
  - intros j Hj. assert (j = 0) as -> by lia. vm_compute. reflexivity.
  - intros j N1 N2 st _. by exists st.
  - vm_compute. reflexivity.
Defined.

(** One branch inside the unit ball, with a remainder of the loop body
    that leaves the totals at zero, is an input on which the routine
    returns. *)
Lemma no_branch_volume_in_empty_cells_example :
  cal_br_vol_samp_grid unit_radii check_in_ellipsoid_model check_on_ellipsoid_model
    keep_totals box_mesh [[0; 0; 1]] two_branch_node 1%float 1%float 1%float
    {| pl_vol_in_grid := [0%float]; non_empty_rects := [] |}
  = Ok {| total_vol_samp_gr := [[0%float; 0%float]];
          br_num_in_samp_gr := [0];
          vol_each_br := [0%float];
          total_br_vol := 0%float |}
  /\ forall i, i < 1 ->
       exists pv, [0%float] !! i = Some pv
                  /\ (feqb pv fzero = true ->
                      exists tv, get2 [[0%float; 0%float]] i 0 = Ok tv
                                 /\ feqb tv fzero = true).
Proof.
  assert (Hrun : cal_br_vol_samp_grid unit_radii check_in_ellipsoid_model
                   check_on_ellipsoid_model keep_totals box_mesh [[0; 0; 1]]
                   two_branch_node 1%float 1%float 1%float
                   {| pl_vol_in_grid := [0%float]; non_empty_rects := [] |}
                 = Ok {| total_vol_samp_gr := [[0%float; 0%float]];
                         br_num_in_samp_gr := [0];
                         vol_each_br := [0%float];
                         total_br_vol := 0%float |})
    by (vm_compute; reflexivity).
  split; [exact Hrun|].
  exact (no_branch_volume_in_empty_cells unit_radii check_in_ellipsoid_model
           check_on_ellipsoid_model keep_totals box_mesh [[0; 0; 1]] two_branch_node
           1%float 1%float 1%float _ _ Hrun).
Defined.

(** ** [define_radius_by_order] *)

Lemma generation_body_length (elem_upstream elem_downstream : list (list nat))
    (ne : nat) (st st' : list nat * nat) :
  generation_body elem_upstream elem_downstream ne st = Ok st' ->
  length st'.1 = length st.1.
Proof.
  destruct st as [g m]. intros Hrun. unfold generation_body in Hrun.
  apply bind_ok in Hrun as (up & _ & Hrun).
  apply bind_ok in Hrun as (ne0 & _ & Hrun).
  apply bind_ok in Hrun as (g1 & Hg1 & Hrun).
  apply bind_ok in Hrun as (v & _ & Hrun). injection Hrun as <-. simpl.
  destruct (decide (ne0 <> 0)).
  - apply bind_ok in Hg1 as (g0 & _ & Hg1).
    apply bind_ok in Hg1 as (down0 & _ & Hg1).
    apply bind_ok in Hg1 as (c & _ & Hg1).
    destruct (decide (c = 1)); [|destruct (decide (2 <= c))].
    + apply set_ok in Hg1 as [_ ->]. by rewrite length_insert.
    + apply set_ok in Hg1 as [_ ->]. by rewrite length_insert.
    + by injection Hg1 as <-.
  - apply set_ok in Hg1 as [_ ->]. by rewrite length_insert.
Qed.

Lemma order_body_length (elem_downstream : list (list nat)) (generation : list nat)
    (ne : nat) (st st' : list nat * list nat) :
  order_body elem_downstream generation ne st = Ok st' ->
  length st'.1 = length st.1 /\ length st'.2 = length st.2.
Proof.
  destruct st as [h s]. intros Hrun. unfold order_body in Hrun.
  apply bind_ok in Hrun as (h0 & _ & Hrun).
  apply bind_ok in Hrun as (down & _ & Hrun).
  apply bind_ok in Hrun as (c & _ & Hrun).
  apply bind_ok in Hrun as (c' & _ & Hrun).
  apply bind_ok in Hrun as ([[n_h t_s] add] & _ & Hrun).
  apply bind_ok in Hrun as (h1 & [_ ->]%set_ok & Hrun).
  apply bind_ok in Hrun as (s1 & [_ ->]%set_ok & Hrun).
  injection Hrun as <-. simpl. by rewrite !length_insert.
Qed.

(** Each array [evaluate_orders] returns has one entry per element. *)
Lemma evaluate_orders_lengths (n : nat) (conn : connectivity) (r : orders)
    (system : order_system) :
  evaluate_orders_conn n conn = Ok r -> length (select_order r system) = n.
Proof.
  intros Hrun. unfold evaluate_orders_conn in Hrun.
  apply bind_ok in Hrun as ([g m] & Hgen & Hrun).
  apply bind_ok in Hrun as ([h s] & Hord & Hrun). injection Hrun as <-.
  assert (Hg : length g = n).
  { apply (for_loop_partial (fun _ st => length st.1 = n) _ _ _ _ Hgen).
    - apply length_replicate.
    - intros pre x post s1 s2 _ Hs1 Hbody.
      by rewrite (generation_body_length _ _ _ _ _ Hbody). }
  assert (Hhs : length h = n /\ length s = n).
  { apply (for_loop_partial (fun _ st => length st.1 = n /\ length st.2 = n)
             _ _ _ _ Hord).
    - split; apply length_replicate.
    - intros pre x post s1 s2 _ [Hh Hs] Hbody.
      destruct (order_body_length _ _ _ _ _ Hbody) as [-> ->]. by split. }
  destruct system; simpl; tauto.
Qed.

Section RadiusByOrderFacts.
Context {F : Type} `{Num F}.
Variables np_log10 power10 : F -> F.

(** In every result of [define_radius_by_order] the radius of each
    element is the power law of its order, relative to the order of the
    inlet element.  This holds at the inlet element too: the value
    [inlet_radius] stored there before the loop is overwritten by
    [10 ** (log10(radius_ratio) * 0 + log10(inlet_radius))]. *)
Theorem radius_follows_order (elems : list elem_row) (conn : connectivity)
    (system : order_system) (inlet_elem : Z) (inlet_radius radius_ratio : F)
    (radius : list F) :
  define_radius_by_order_conn np_log10 power10 elems conn system inlet_elem
                              inlet_radius radius_ratio = Ok radius ->
  exists ords inlet n_max_ord,
    evaluate_orders_conn (length elems) conn = Ok ords
    /\ np_index (length elems) inlet_elem = Ok inlet
    /\ select_order ords system !! inlet = Some n_max_ord
    /\ length radius = length elems
    /\ forall ne, ne < length elems ->
         exists o, select_order ords system !! ne = Some o
                   /\ radius !! ne
                      = Some (radius_of_order np_log10 power10 inlet_radius radius_ratio
                                              o n_max_ord).
Proof.
  intros Hrun. unfold define_radius_by_order_conn in Hrun.
  apply bind_ok in Hrun as (ords & Hords & Hrun).
  rewrite (evaluate_orders_lengths _ _ _ system Hords) in Hrun.
  apply bind_ok in Hrun as (inlet & Hidx & Hrun).
  apply bind_ok in Hrun as (n_max & Hmax%get_ok & Hrun).
  apply bind_ok in Hrun as (inlet' & _ & Hrun).
  apply bind_ok in Hrun as (radius0 & [Hinlet ->]%set_ok & Hloop).
  exists ords, inlet, n_max. split; [done|]. split; [done|]. split; [done|].
  pose proof (for_loop_partial
                (fun pre rad =>
                   length rad = length elems
                   /\ forall ne, ne ∈ pre ->
                        exists o, select_order ords system !! ne = Some o
                                  /\ rad !! ne
                                     = Some (radius_of_order np_log10 power10
                                               inlet_radius radius_ratio o n_max))
                _ _ _ _ Hloop) as Hinv.
  destruct Hinv as (Hlen & Hall).
  - split.
    + unfold np_fzeros. by rewrite length_insert, length_replicate.
    + intros ne Hne. by apply elem_of_nil in Hne.
  - intros pre ne post rad rad' Hsplit [Hlen Hpre] Hbody.
    apply seq_split_at in Hsplit as (Hseq & _ & Hne).
    apply bind_ok in Hbody as (o & Ho%get_ok & [Hlt ->]%set_ok).
    split; [by rewrite length_insert|].
    intros ne' [Hin|Heq%list_elem_of_singleton]%elem_of_app.
    + destruct (Hpre ne' Hin) as (o' & Ho' & Hrad).
      exists o'. split; [done|]. rewrite list_lookup_insert_ne; [done|].
      rewrite Hseq in Hin. apply elem_of_seq in Hin. lia.
    + subst ne'. exists o. split; [done|]. by apply list_lookup_insert_eq.
  - split; [done|]. intros ne Hne. apply Hall. unfold range. apply elem_of_seq. lia.
Qed.

(** [define_radius_by_order] reads the order of the inlet element before
    anything else is assigned: an inlet element that is no index of the
    element array, from the front or from the end, makes it raise; in
    particular it raises on every empty tree. *)
Theorem radius_needs_inlet_element (elems : list elem_row) (conn : connectivity)
    (system : order_system) (inlet_elem : Z) (inlet_radius radius_ratio : F) :
  (inlet_elem < - Z.of_nat (length elems) \/ Z.of_nat (length elems) <= inlet_elem)%Z ->
  exists e,
    define_radius_by_order_conn np_log10 power10 elems conn system inlet_elem
                                inlet_radius radius_ratio = Err e.
Proof.
  intros Hout. unfold define_radius_by_order_conn.
  destruct (evaluate_orders_conn (length elems) conn) as [ords|e] eqn:Hords;
    cbn [bind]; [|by exists e].
  rewrite (evaluate_orders_lengths _ _ _ system Hords).
  unfold np_index.
  destruct (decide (0 <= inlet_elem < Z.of_nat (length elems))%Z); [lia|].
  destruct (decide (- Z.of_nat (length elems) <= inlet_elem < 0)%Z); [lia|].
  cbn [bind]. by eexists.
Qed.
End RadiusByOrderFacts.

(** The tree of four elements with the Strahler system and its last
    element, given as -1, as inlet; binary64, with the identity in place of
    the logarithm and of the power. *)
Lemma radius_follows_order_tree4 :
  exists ords inlet n_max_ord,
    evaluate_orders_conn (length tree4) (element_connectivity_1D tree4) = Ok ords
    /\ np_index (length tree4) (-1) = Ok inlet
    /\ select_order ords Strahler !! inlet = Some n_max_ord
    /\ length [4%float; 4%float; 2%float; 2%float] = length tree4
    /\ forall ne, ne < length tree4 ->
         exists o, select_order ords Strahler !! ne = Some o
                   /\ [4%float; 4%float; 2%float; 2%float] !! ne
                      = Some (radius_of_order (fun x : float => x) (fun x : float => x)
                                              2%float 2%float o n_max_ord).
Proof.
  apply (radius_follows_order (fun x : float => x) (fun x : float => x) tree4
           (element_connectivity_1D tree4) Strahler (-1) 2%float 2%float).
  vm_compute. reflexivity.
Defined.

Lemma radius_needs_inlet_element_empty :
  exists e,
    define_radius_by_order_conn (fun x : float => x) (fun x : float => x) []
      (element_connectivity_1D []) Strahler 0 1%float 1%float = Err e.
Proof. apply radius_needs_inlet_element. simpl. lia. Defined.

(** ** The cell recorded for each terminal by [terminals_in_sampling_grid] *)

Lemma count_of_insert (c : nat) (l : list nat) (i old new : nat) :
  l !! i = Some old ->
  count_of c (<[i:=new]> l) + (if decide (old = c) then 1 else 0)
  = count_of c l + (if decide (new = c) then 1 else 0).
Proof.
  unfold count_of. revert i. induction l as [|x l IH]; intros i Hi; [done|].
  destruct i as [|i]; simpl in *.
  - injection Hi as ->. rewrite !filter_cons.
    destruct (decide (old = c)), (decide (new = c)); simpl; lia.
  - specialize (IH i Hi). rewrite !filter_cons.
    destruct (decide (x = c)); simpl; lia.
Qed.

Section ScanAttribution.
Context {F : Type} `{Num F}.
Variables (mesh : rectangular_mesh F) (tl : terminal_list) (node_loc : list (list F)).

#[local] Abbreviation listed := (in_listed_cell mesh tl node_loc).
#[local] Abbreviation first_cell := (first_listed_cell mesh tl node_loc).
#[local] Abbreviation lies_in ne nt :=
  (bool_decide (0 < ne) && terminal_in_cell mesh tl node_loc ne nt).

Lemma lies_in_spec (ne nt : nat) :
  lies_in ne nt = true <-> 0 < ne /\ terminal_in_cell mesh tl node_loc ne nt = true.
Proof. rewrite andb_true_iff, bool_decide_eq_true. tauto. Qed.

Lemma find_snoc {A : Type} (f : A -> bool) (l : list A) (x : A) :
  find f (l ++ [x])
  = match find f l with
    | Some y => Some y
    | None => if f x then Some x else None
    end.
Proof. induction l as [|y l IH]; simpl; [done|]. by destruct (f y). Qed.

Lemma listed_find (cells : list nat) (nt : nat) :
  listed cells nt <-> find (fun ne => lies_in ne nt) cells <> None.
Proof.
  unfold in_listed_cell. induction cells as [|ne cells IH].
  - rewrite Exists_nil. simpl. tauto.
  - rewrite Exists_cons, IH. pose proof (lies_in_spec ne nt) as Hspec.
    cbn [find]. destruct (lies_in ne nt).
    + split; [congruence | tauto].
    + split; [|tauto]. intros [Hne|Hrest]; [|done].
      apply Hspec in Hne. discriminate.
Qed.

Lemma first_cell_unlisted (cells : list nat) (nt : nat) :
  ~ listed cells nt -> first_cell cells nt = 0.
Proof.
  rewrite listed_find. unfold first_listed_cell.
  destruct (find _ cells); [intros Hno; by destruct Hno | done].
Qed.

Lemma first_cell_snoc (cells : list nat) (ne nt : nat) :
  first_cell (cells ++ [ne]) nt
  = if decide (listed cells nt) then first_cell cells nt
    else if lies_in ne nt then ne else 0.
Proof.
  unfold first_listed_cell. rewrite find_snoc.
  destruct (decide (listed cells nt)) as [Hl|Hl]; rewrite listed_find in Hl.
  - by destruct (find _ cells).
  - destruct (find _ cells); [by destruct Hl|]. by destruct (lies_in ne nt).
Qed.

(** The recorded cells and the counts in the inner loop, for the cell
    [ne] after the cells [cells], when the terminals below [j] have been
    visited. *)
Definition attrib_inv (cells : list nat) (ne j : nat)
    (st : list nat * list nat * list nat) : Prop :=
  let '(grid, mapped, telems) := st in
  length telems = total_terminals tl
  /\ (forall nt, nt < total_terminals tl ->
        telems !! nt = Some (if decide (nt < j) then first_cell (cells ++ [ne]) nt
                             else first_cell cells nt))
  /\ (forall c, 0 < c -> c < length grid -> grid !! c = Some (count_of c telems)).

Lemma attrib_terminal_step (cells : list nat) (ne : nat) (min_coords max_coords : list F)
    (nt : nat) (st st' : list nat * list nat * list nat) :
  0 < ne ->
  corner mesh ne 1 = Ok min_coords -> corner mesh ne 8 = Ok max_coords ->
  nt < total_terminals tl ->
  scan_inv mesh tl node_loc cells ne nt st ->
  attrib_inv cells ne nt st ->
  scan_terminal tl node_loc ne min_coords max_coords nt st = Ok st' ->
  attrib_inv cells ne (S nt) st'.
Proof.
  intros Hne Hlo Hhi Hnt. destruct st as [[grid mapped] telems].
  intros (_ & Hmap & _ & _) (Hlen & Htel & Hcount) Hrun.
  unfold scan_terminal in Hrun.
  apply bind_ok in Hrun as (m & Hm%get_ok & Hrun).
  pose proof (Hmap nt Hnt) as Hcur. rewrite decide_False in Hcur by lia.
  rewrite Hm in Hcur. injection Hcur as Hcur.
  assert (Hkeep : first_cell (cells ++ [ne]) nt = first_cell cells nt ->
                  attrib_inv cells ne (S nt) (grid, mapped, telems)).
  { intros Hsame. split_and!; try done.
    intros nt' Hnt'. rewrite (Htel nt' Hnt').
    destruct (decide (nt' < nt)), (decide (nt' < S nt)); try done; try lia.
    assert (nt' = nt) as -> by lia. by rewrite Hsame. }
  destruct (decide (m = 0)) as [->|Hm0].
  - assert (Hfresh : ~ listed cells nt).
    { intros Hhit. by rewrite decide_True in Hcur by done. }
    apply bind_ok in Hrun as (coord & Hcoord & Hrun).
    apply bind_ok in Hrun as (b & Hbox & Hrun).
    assert (Hcell : terminal_in_cell mesh tl node_loc ne nt = b).
    { unfold terminal_in_cell. by rewrite Hlo, Hhi, Hcoord, Hbox. }
    assert (Hfirst : first_cell (cells ++ [ne]) nt = if b then ne else 0).
    { rewrite first_cell_snoc, decide_False by done.
      rewrite Hcell, bool_decide_eq_true_2 by done. done. }
    pose proof (first_cell_unlisted cells nt Hfresh) as Hzero.
    destruct b.
    + apply bind_ok in Hrun as (c & Hc%get_ok & Hrun).
      apply bind_ok in Hrun as (grid' & [Hne' ->]%set_ok & Hrun).
      apply bind_ok in Hrun as (mapped' & _ & Hrun).
      apply bind_ok in Hrun as (telems' & [Hnt' ->]%set_ok & Hrun).
      injection Hrun as <-.
      pose proof (Htel nt Hnt) as Hold. rewrite decide_False, Hzero in Hold by lia.
      split_and!.
      * by rewrite length_insert.
      * intros nt' Hlt. destruct (decide (nt' = nt)) as [->|Hneq].
        -- rewrite list_lookup_insert_eq by lia.
           by rewrite decide_True, Hfirst by lia.
        -- rewrite list_lookup_insert_ne by done. rewrite (Htel nt' Hlt).
           destruct (decide (nt' < nt)), (decide (nt' < S nt)); try done; lia.
      * intros c0 Hpos Hc0. rewrite length_insert in Hc0.
        pose proof (count_of_insert c0 telems nt 0 ne Hold) as Hins.
        rewrite decide_False in Hins by lia.
        destruct (decide (c0 = ne)) as [->|Hother].
        -- rewrite list_lookup_insert_eq by lia.
           rewrite decide_True in Hins by done.
           rewrite (Hcount ne Hpos Hc0) in Hc. injection Hc as <-. f_equal. lia.
        -- rewrite list_lookup_insert_ne by done.
           rewrite decide_False in Hins by done.
           rewrite (Hcount c0 Hpos Hc0). f_equal. lia.
    + injection Hrun as <-. apply Hkeep. by rewrite Hfirst, Hzero.
  - injection Hrun as <-. apply Hkeep.
    rewrite first_cell_snoc. destruct (decide (listed cells nt)); [done | congruence].
Qed.

(** The recorded cells and the counts after the cells [cells]. *)
Definition cells_attrib_inv (cells : list nat)
    (st : list nat * list nat * list nat) : Prop :=
  let '(grid, mapped, telems) := st in
  length telems = total_terminals tl
  /\ (forall nt, nt < total_terminals tl -> telems !! nt = Some (first_cell cells nt))
  /\ (forall c, 0 < c -> c < length grid -> grid !! c = Some (count_of c telems)).

Lemma attrib_cell_step (placenta_list : list nat) (ne_i : nat)
    (st st' : list nat * list nat * list nat) :
  ne_i < length placenta_list ->
  cells_inv mesh tl node_loc (take ne_i placenta_list) st ->
  cells_attrib_inv (take ne_i placenta_list) st ->
  scan_cell mesh placenta_list tl node_loc ne_i st = Ok st' ->
  cells_attrib_inv (take (S ne_i) placenta_list) st'.
Proof.
  intros Hi Hold Hinv Hrun. unfold scan_cell in Hrun.
  apply bind_ok in Hrun as (ne & Hne%get_ok & Hrun).
  rewrite (take_S_r _ _ _ Hne). set (cells := take ne_i placenta_list) in *.
  destruct (decide (0 < ne)) as [Hpos|Hpos].
  - apply bind_ok in Hrun as (min_coords & Hlo & Hrun).
    apply bind_ok in Hrun as (max_coords & Hhi & Hrun).
    pose proof (for_loop_partial
                  (fun pre st => scan_inv mesh tl node_loc cells ne (length pre) st
                                 /\ attrib_inv cells ne (length pre) st)
                  (range (total_terminals tl))
                  (scan_terminal tl node_loc ne min_coords max_coords) st st' Hrun)
      as Hloop.
    destruct st' as [[grid' mapped'] telems'].
    destruct Hloop as (_ & Hlen & Htel & Hcount).
    + destruct st as [[grid mapped] telems].
      destruct Hold as (Hlen0 & Hmap0 & Hsum0 & Hzero0).
      destruct Hinv as (Hlen & Htel & Hcount). split; by split_and!.
    + intros pre nt post s1 s2 Hsplit [Hs1 Ha1] Hbody.
      apply seq_split_at in Hsplit as (_ & -> & Hnt).
      rewrite length_app. simpl. replace (length pre + 1) with (S (length pre)) by lia.
      split.
      * by apply (scan_terminal_step mesh tl node_loc cells ne min_coords max_coords
                    (length pre) s1).
      * by apply (attrib_terminal_step cells ne min_coords max_coords (length pre) s1).
    + unfold range in Htel. rewrite length_seq in Htel.
      split_and!; try done.
      intros nt Hnt. rewrite (Htel nt Hnt). by rewrite decide_True.
  - injection Hrun as <-. destruct st as [[grid mapped] telems].
    destruct Hinv as (Hlen & Htel & Hcount). split_and!; try done.
    intros nt Hnt. rewrite (Htel nt Hnt). f_equal.
    rewrite first_cell_snoc. destruct (decide (listed cells nt)) as [|Hno]; [done|].
    rewrite (first_cell_unlisted _ _ Hno).
    rewrite bool_decide_eq_false_2 by done. done.
Qed.

(** In every result of the fallback scan, [terminal_elems] holds for each
    terminal the first cell of [placenta_list], cell 0 apart, that contains
    it, and 0 when there is none; and the count of every cell other than
    cell 0 is the number of terminals recorded for that cell. *)
Theorem scan_records_first_listed_cell (placenta_list : list nat) (r : grid_scan) :
  terminals_in_sampling_grid mesh placenta_list tl node_loc = Ok r ->
  length (scan_terminal_elems r) = total_terminals tl
  /\ (forall nt, nt < total_terminals tl ->
        scan_terminal_elems r !! nt = Some (first_cell placenta_list nt))
  /\ length (scan_terminals_in_grid r) = length (mesh_elems mesh)
  /\ (forall ne, 0 < ne -> ne < length (mesh_elems mesh) ->
        scan_terminals_in_grid r !! ne = Some (count_of ne (scan_terminal_elems r))).
Proof.
  intros Hrun. unfold terminals_in_sampling_grid in Hrun.
  apply bind_ok in Hrun as ([[grid mapped] telems] & Hloop & Hr).
  injection Hr as <-. simpl.
  pose proof (for_loop_partial
                (fun pre st =>
                   cells_inv mesh tl node_loc (take (length pre) placenta_list) st
                   /\ cells_attrib_inv (take (length pre) placenta_list) st
                   /\ length st.1.1 = length (mesh_elems mesh))
                (range (length placenta_list))
                (scan_cell mesh placenta_list tl node_loc) _ _ Hloop) as Hinv.
  destruct Hinv as (_ & (Hlen & Htel & Hcount) & Hgrid).
  { simpl. unfold np_zeros. split; [|split].
    - split_and!.
      + by rewrite length_replicate.
      + intros nt Hnt. by rewrite lookup_replicate_2.
      + rewrite !sum_list_replicate. lia.
      + intros c Hc. by apply lookup_replicate in Hc as [-> _].
    - split_and!.
      + by rewrite length_replicate.
      + intros nt Hnt. by rewrite lookup_replicate_2.
      + intros c Hpos Hc. rewrite length_replicate in Hc.
        rewrite lookup_replicate_2 by done. f_equal. unfold count_of.
        clear -Hpos. induction (total_terminals tl) as [|n IH]; [done|].
        simpl. rewrite filter_cons. destruct (decide (0 = c)); [lia | done].
    - by rewrite length_replicate. }
  { intros pre ne_i post s1 s2 Hsplit (Hs1 & Ha1 & Hg1) Hbody.
    apply seq_split_at in Hsplit as (_ & -> & Hlt).
    rewrite length_app. simpl. replace (length pre + 1) with (S (length pre)) by lia.
    split; [|split].
    - by apply (scan_cell_step mesh tl node_loc placenta_list (length pre) s1).
    - by apply (attrib_cell_step placenta_list (length pre) s1).
    - rewrite <- Hg1. clear -Hbody. unfold scan_cell in Hbody.
      apply bind_ok in Hbody as (ne & _ & Hbody).
      destruct (decide (0 < ne)); [|by injection Hbody as <-].
      apply bind_ok in Hbody as (lo & _ & Hbody).
      apply bind_ok in Hbody as (hi & _ & Hbody).
      apply (for_loop_partial (fun _ st => length st.1.1 = length s1.1.1)
               _ _ _ _ Hbody); [done|].
      intros pre' nt post' [[g1 m1] t1] t2 _ Hsame Hstep. simpl in Hsame.
      unfold scan_terminal in Hstep.
      apply bind_ok in Hstep as (m & _ & Hstep).
      destruct (decide (m = 0)); [|by injection Hstep as <-].
      apply bind_ok in Hstep as (coord & _ & Hstep).
      apply bind_ok in Hstep as ([|] & _ & Hstep); [|by injection Hstep as <-].
      apply bind_ok in Hstep as (c & _ & Hstep).
      apply bind_ok in Hstep as (g' & [_ ->]%set_ok & Hstep).
      apply bind_ok in Hstep as (m' & _ & Hstep).
      apply bind_ok in Hstep as (t' & _ & Hstep).
      injection Hstep as <-. simpl. by rewrite length_insert. }
  unfold range in Htel, Hcount. rewrite length_seq, firstn_all in Htel.
  simpl in Hgrid. split_and!; try done.
  intros ne Hpos Hne. apply Hcount; [done | lia].
Qed.
End ScanAttribution.

(** Two unit cells and three terminals, with cell 1 listed twice after
    cell 0. *)
Lemma scan_records_first_listed_cell_pair_mesh :
  let r := {| scan_terminals_in_grid := [0; 2]; scan_terminal_elems := [1; 1; 0] |} in
  length (scan_terminal_elems r) = total_terminals pair_terminals
  /\ (forall nt, nt < total_terminals pair_terminals ->
        scan_terminal_elems r !! nt
        = Some (first_listed_cell pair_mesh pair_terminals pair_node_loc [0; 1; 1] nt))
  /\ length (scan_terminals_in_grid r) = length (mesh_elems pair_mesh)
  /\ (forall ne, 0 < ne -> ne < length (mesh_elems pair_mesh) ->
        scan_terminals_in_grid r !! ne = Some (count_of ne (scan_terminal_elems r))).
Proof.
  apply (scan_records_first_listed_cell pair_mesh pair_terminals pair_node_loc [0; 1; 1]).
  vm_compute. reflexivity.
Defined.
